(** * Value-function iteration kernels (Thrust functors) in Rocq

    A shallow embedding of the numerical kernels of the VFI solver:
    the Tauchen discretisation of the AR(1) productivity process
    ([transMat], [ar1]), the capital grid ([kGrid]), the monotone grid
    search [binary_val], the two Bellman maximisers [grid_max] and
    [binary_max], the per-state update [vfStep] and the initial value
    function [vfInit].

    Conventions of the embedding.
    - [REAL] (the template parameter [T], a C++ [double]) is the type [R] of
      real numbers: arithmetic is exact, and rounding, infinities and NaN
      are outside the model.
    - [int] is [Z]; index arithmetic is assumed to stay in the range of
      [int].  Integer division and remainder truncate toward zero
      ([Z.quot], [Z.rem]), as in C++.
    - A pointer [T*] is an [array], a total function from offsets to
      values; [&A[0] + k] is [ptr_add A k], a write [A[i] = v] is
      [store A i v].  An output parameter ([T* V], [T* G] of the
      maximisers) becomes a returned value that the caller stores.
    - The functions of <cmath> ([pow], [erf], [log], [exp], [sqrt]) are
      parameters of the definitions that call them.
    - A [for] loop over a counter is [for_loop]; a [while] loop is a
      function with fuel that returns [None] when the fuel runs out. *)

From Stdlib Require Import Reals Lra Lia ZArith List Ascii Bool Psatz.
Import ListNotations.

Local Open Scope Z_scope.
Local Open Scope R_scope.

(** ** Memory and loops *)

Abbreviation REAL := R (only parsing).

Definition array := Z -> REAL.

Definition store (A : array) (i : Z) (v : REAL) : array :=
  fun k => if (k =? i)%Z then v else A k.

Definition ptr_add (A : array) (k : Z) : array :=
  fun i => A (k + i)%Z.

Definition of_list (l : list REAL) : array :=
  fun i => nth (Z.to_nat i) l 0.

(** [for (i = lo; i < hi; ++i) s = body i s]. *)
Definition for_loop {St : Type} (lo hi : Z) (body : Z -> St -> St)
  (s : St) : St :=
  fold_left (fun s k => body (lo + Z.of_nat k)%Z s)
            (seq 0 (Z.to_nat (hi - lo))) s.

(** The conversion [(int) r] of a [REAL] to [int]: truncation toward zero. *)
Definition int_of_real (r : REAL) : Z :=
  if Rle_dec 0 r then Int_part r else (- Int_part (- r))%Z.

(** ** [binary_val]: location of a value in a monotone grid *)

(** The [while ((ihi - ilo) > 1)] loop of [binary_val]. *)
Fixpoint binary_val_loop (fuel : nat) (x : REAL) (X : array) (ilo ihi : Z)
  : option Z :=
  if (ihi - ilo >? 1)%Z then
    match fuel with
    | O => None
    | S fuel' =>
        let imid := ((ilo + ihi) ÷ 2)%Z in
        if Req_dec_T (X imid) x then Some imid
        else if Rgt_dec (X imid) x then binary_val_loop fuel' x X ilo imid
        else binary_val_loop fuel' x X imid ihi
    end
  else Some ihi.

Definition binary_val_fuel (fuel : nat) (x : REAL) (n : Z) (X : array)
  : option Z :=
  if Rlt_dec x (X 0%Z) then Some 0%Z
  else if Rgt_dec x (X (n - 1)%Z) then Some (n - 1)%Z
  else binary_val_loop fuel x X 0 (n - 1).

(** [binary_val] with the fuel the loop needs at most: the bracket
    [ihi - ilo] starts at [n - 1] and shrinks at every iteration. *)
Definition binary_val (x : REAL) (n : Z) (X : array) : option Z :=
  binary_val_fuel (Z.to_nat n) x n X.

(** ** The power function of <cmath>

    [pow] on the reals.  For a positive base it is [exp (y * ln x)]; for a
    negative base and an integer exponent it is the integer power;
    [pow(0, y)] is 0 for [y > 0] and 1 for [y = 0].  In the remaining
    cases <cmath> reports a domain or pole error (NaN or an infinity),
    which the reals do not have: [libm_pow] is 0 there, and nothing below
    depends on that value.  The kernels take their power function as a
    parameter; [libm_pow] is the one they are run with on concrete
    inputs. *)
Definition libm_pow (x y : REAL) : REAL :=
  if Rlt_dec 0 x then Rpower x y
  else if Rlt_dec x 0 then
    if Req_dec_T (IZR (Int_part y)) y then powerRZ x (Int_part y) else 0
  else if Rlt_dec 0 y then 0
  else if Req_dec_T y 0 then 1 else 0.

Section Kernels.

(** The <cmath> functions the kernels call. *)
Variable pow : REAL -> REAL -> REAL.
Variables erf log exp sqrt : REAL -> REAL.

(** ** AR(1) discretisation (Tauchen) *)

(** Functor [ar1Vals]: value of the AR(1) grid at position [ix]. *)
Definition ar1Vals (nz : Z) (lambda mu sigma rho : REAL) (ix : Z) : REAL :=
  let sigma_z := sigma / sqrt (1 - pow rho 2) in
  let mu_z := mu * (1 / (1 - rho)) in
  let zmin := mu_z - lambda * sigma_z in
  let zmax := mu_z + lambda * sigma_z in
  let zstep := (zmax - zmin) / IZR (nz - 1) in
  exp (zmin + zstep * IZR ix).

(** Functor [transMat], applied to the origin index [ix]: the updated
    buffer [P]. *)
Definition transMat (nz : Z) (mu sigma rho : REAL) (Zg P : array) (ix : Z)
  : array :=
  let zstep := (log (Zg (nz - 1)%Z) - log (Zg 0%Z)) / IZR (nz - 1) in
  let normarg1 :=
    (log (Zg 0%Z) - mu - rho * log (Zg ix)) / sigma + 0.5 * zstep / sigma in
  let P := store P ix (0.5 + 0.5 * erf (normarg1 / pow 2 0.5)) in
  let P := store P (ix + nz * (nz - 1)) (1 - P ix) in
  for_loop 1 (nz - 1)
    (fun jx P =>
       let normarg1 :=
         (log (Zg jx) - mu - rho * log (Zg ix)) / sigma
         + 0.5 * zstep / sigma in
       let normarg2 :=
         (log (Zg jx) - mu - rho * log (Zg ix)) / sigma
         - 0.5 * zstep / sigma in
       let P := store P (ix + jx * nz)
                  (0.5 * erf (normarg1 / pow 2 0.5)
                   - 0.5 * erf (normarg2 / pow 2 0.5)) in
       store P (ix + nz * (nz - 1))
         (P (ix + nz * (nz - 1))%Z - P (ix + jx * nz)%Z))
    P.

(** Function [ar1]: fills the grid [Zg] and the matrix [P]. *)
Definition ar1 (nz : Z) (mu rho sigma lambda : REAL) (Zg P : array)
  : array * array :=
  let sigma_z := sigma / pow (1 - pow rho 2) 0.5 in
  let mu_z := mu / (1 - rho) in
  let zmin := mu_z - lambda * sigma_z in
  let zmax := mu_z + lambda * sigma_z in
  let zstep := (zmax - zmin) / IZR (nz - 1) in
  let Zg :=
    for_loop 0 nz (fun ix Zg => store Zg ix (exp (zmin + zstep * IZR ix)))
      Zg in
  let P :=
    for_loop 0 nz
      (fun ix P =>
         let normarg1 :=
           (zmin - mu - rho * log (Zg ix)) / sigma + 0.5 * zstep / sigma in
         let P := store P (ix * nz) (0.5 + 0.5 * erf (normarg1 / sqrt 2)) in
         let P := store P (ix + nz * (nz - 1)) (1 - P (ix * nz)%Z) in
         for_loop 1 (nz - 1)
           (fun jx P =>
              let normarg1 :=
                (log (Zg jx) - mu - rho * log (Zg ix)) / sigma
                + 0.5 * zstep / sigma in
              let normarg2 :=
                (log (Zg jx) - mu - rho * log (Zg ix)) / sigma
                - 0.5 * zstep / sigma in
              let P := store P (ix + nz * jx)
                         (0.5 * erf (normarg1 / sqrt 2)
                          - 0.5 * erf (normarg2 / sqrt 2)) in
              store P (ix + nz * (nz - 1))
                (P (ix + nz * (nz - 1))%Z - P (ix + nz * jx)%Z))
           P)
      P in
  (Zg, P).

(** ** Capital grid *)

(** Functor [kGrid]: value of capital at position [ix]. *)
Definition kGrid (nk nz : Z) (beta alpha delta : REAL) (Zg : array)
  (ix : Z) : REAL :=
  let kmin :=
    0.95 * pow ((1 / (alpha * Zg 0%Z)) * ((1 / beta) - 1 + delta))
             (1 / (alpha - 1)) in
  let kmax :=
    1.05 * pow ((1 / (alpha * Zg (nz - 1)%Z)) * ((1 / beta) - 1 + delta))
             (1 / (alpha - 1)) in
  let kstep := (kmax - kmin) / IZR (nk - 1) in
  kmin + kstep * IZR ix.

(** ** Bellman objective *)

(** [Exp = 0.0; for (m = 0; m < nz; ++m) Exp += P[m*nz] * V0[l + m*nk]],
    the expectation loop that both maximisers repeat for each candidate
    [l]; [P] and [V0] are the pointers the maximiser received. *)
Definition expect (nz nk : Z) (P V0 : array) (l : Z) : REAL :=
  for_loop 0 nz (fun m Exp => Exp + P (m * nz)%Z * V0 (l + m * nk)%Z) 0.

(** [pow(ydepK - K[klo+l], 1-eta)/(1-eta) + beta*Exp], the value [w] of
    candidate [l]. *)
Definition objective (klo nk nz : Z) (ydepK eta beta : REAL)
  (K P V0 : array) (l : Z) : REAL :=
  pow (ydepK - K (klo + l)%Z) (1 - eta) / (1 - eta)
  + beta * expect nz nk P V0 l.

(** ** [grid_max]: exhaustive search

    The result is the pair of values written to [*V] and [*G]. *)
Definition grid_max (klo nksub nk nz : Z) (ydepK eta beta : REAL)
  (K P V0 : array) : REAL * REAL :=
  let w := objective klo nk nz ydepK eta beta K P V0 0 in
  let '(wmax, windmax) :=
    for_loop 1 nksub
      (fun l '(wmax, windmax) =>
         let w := objective klo nk nz ydepK eta beta K P V0 l in
         if Rgt_dec w wmax then (w, l) else (wmax, windmax))
      (w, 0%Z) in
  (wmax, IZR (klo + windmax)).

(** ** [binary_max]: bisection under concavity *)

(** The [while (kshi - kslo > 2)] loop; the state is
    [(kslo, kshi, w1, w2)]. *)
Fixpoint binary_max_loop (fuel : nat) (klo nk nz : Z)
  (ydepK eta beta : REAL) (K P V0 : array) (kslo kshi : Z) (w1 w2 : REAL)
  : option (Z * Z * REAL * REAL) :=
  if (kshi - kslo >? 2)%Z then
    match fuel with
    | O => None
    | S fuel' =>
        let ksmid1 := ((kslo + kshi) ÷ 2)%Z in
        let ksmid2 := (ksmid1 + 1)%Z in
        let w1 := objective klo nk nz ydepK eta beta K P V0 ksmid1 in
        let w2 := objective klo nk nz ydepK eta beta K P V0 ksmid2 in
        if Rgt_dec w2 w1
        then binary_max_loop fuel' klo nk nz ydepK eta beta K P V0
               ksmid1 kshi w1 w2
        else binary_max_loop fuel' klo nk nz ydepK eta beta K P V0
               kslo ksmid2 w1 w2
    end
  else Some (kslo, kshi, w1, w2).

(** [w1] and [w2] are not initialised before the loop; it runs at least
    once when [nksub > 3], so their first values (here [0]) are never
    read.  The result is the pair of values written to [*V] and [*G]. *)
Definition binary_max_fuel (fuel : nat) (klo nksub nk nz : Z)
  (ydepK eta beta : REAL) (K P V0 : array) : option (REAL * REAL) :=
  let w := objective klo nk nz ydepK eta beta K P V0 in
  let kslo := 0%Z in
  let kshi := (nksub - 1)%Z in
  if (nksub >? 3)%Z then
    match binary_max_loop fuel klo nk nz ydepK eta beta K P V0
            kslo kshi 0 0 with
    | None => None
    | Some (kslo, kshi, w1, w2) =>
        if Rgt_dec w2 w1 then
          let w1 := w kshi in
          if Rgt_dec w2 w1 then Some (w2, IZR (klo + kslo + 1))
          else Some (w1, IZR (klo + kshi))
        else
          let w2 := w kslo in
          if Rgt_dec w2 w1 then Some (w2, IZR (klo + kslo))
          else Some (w1, IZR (klo + kslo + 1))
    end
  else if (nksub =? 3)%Z then
    let w1 := w kslo in
    let w2 := w (kslo + 1)%Z in
    let w3 := w kshi in
    let '(v, g) := (w1, IZR (klo + kslo)) in
    let '(v, g) := if Rgt_dec w2 v then (w2, IZR (klo + kslo + 1))
                   else (v, g) in
    let '(v, g) := if Rgt_dec w3 v then (w3, IZR (klo + kshi))
                   else (v, g) in
    Some (v, g)
  else
    let w1 := w kslo in
    let w2 := w kshi in
    if Rgt_dec w2 w1 then Some (w2, IZR (klo + kshi))
    else Some (w1, IZR (klo + kslo)).

Definition binary_max (klo nksub nk nz : Z) (ydepK eta beta : REAL)
  (K P V0 : array) : option (REAL * REAL) :=
  binary_max_fuel (Z.to_nat nksub) klo nksub nk nz ydepK eta beta K P V0.

(** ** [vfStep]: update of one state *)

(** Output plus depreciated capital at state [(ix, jx)]. *)
Definition resources (alpha delta : REAL) (K Zg : array) (ix jx : Z)
  : REAL :=
  Zg jx * pow (K ix) alpha + (1 - delta) * K ix.

(** [khi = binary_val(ydepK, nk, K); if (K[khi] > ydepK) khi -= 1]. *)
Definition upper_index (ydepK : REAL) (nk : Z) (K : array) : option Z :=
  match binary_val ydepK nk K with
  | None => None
  | Some khi => Some (if Rgt_dec (K khi) ydepK then (khi - 1)%Z else khi)
  end.

(** Functor [vfStep] applied to the flat index [hx]: the updated buffers
    [V] and [G]. *)
Definition vfStep (nk nz : Z) (eta beta alpha delta : REAL)
  (maxtype : ascii) (howard : bool) (K Zg P V0 V G : array) (hx : Z)
  : option (array * array) :=
  let ix := Z.rem hx nk in
  let jx := ((hx - ix) ÷ nk)%Z in
  let ydepK := resources alpha delta K Zg ix jx in
  match howard with
  | false =>
      let klo := 0%Z in
      match upper_index ydepK nk K with
      | None => None
      | Some khi =>
          let nksub := (khi - klo + 1)%Z in
          if Ascii.eqb maxtype "g" then
            let '(v, g) := grid_max klo nksub nk nz ydepK eta beta K
                             (ptr_add P jx) (ptr_add V0 klo) in
            Some (store V (ix + jx * nk) v, store G (ix + jx * nk) g)
          else if Ascii.eqb maxtype "b" then
            match binary_max klo nksub nk nz ydepK eta beta K
                    (ptr_add P jx) (ptr_add V0 klo) with
            | None => None
            | Some (v, g) =>
                Some (store V (ix + jx * nk) v, store G (ix + jx * nk) g)
            end
          else Some (V, G)
      end
  | true =>
      let g := int_of_real (G (ix + jx * nk)%Z) in
      let Exp :=
        for_loop 0 nz
          (fun mx Exp => Exp + P (jx + mx * nz)%Z * V0 (g + mx * nk)%Z) 0 in
      Some (store V (ix + jx * nk)
              (pow (ydepK - K g) (1 - eta) / (1 - eta) + beta * Exp),
            G)
  end.

(** ** Initial value function *)

(** Functor [vfInit], applied to the productivity index [jx]: the updated
    buffer [V]. *)
Definition vfInit (nk : Z) (eta beta alpha delta : REAL) (Zg V : array)
  (jx : Z) : array :=
  let Kj :=
    pow ((1 / (alpha * Zg jx)) * ((1 / beta) - 1 + delta))
      (1 / (alpha - 1)) in
  let Vj := pow (Zg jx * pow Kj alpha - delta * Kj) (1 - eta) / (1 - eta) in
  for_loop 0 nk (fun ix V => store V (ix + jx * nk) Vj) V.

End Kernels.

(** * Specifications *)

(** [X] is strictly increasing on its [n] entries. *)
Definition increasing (n : Z) (X : array) : Prop :=
  forall i j : Z, (0 <= i < j)%Z -> (j < n)%Z -> X i < X j.

(** [i] is the first index of [X] whose entry is at least [x]. *)
Definition first_at_least (x : REAL) (n : Z) (X : array) (i : Z) : Prop :=
  (0 <= i < n)%Z /\ x <= X i /\ forall k : Z, (0 <= k < i)%Z -> X k < x.

(** The profile [f] over the first [n] points of the grid [K] is
    (strictly) concave in capital: its slope between consecutive grid
    points (strictly) decreases.  The slopes are compared cross-multiplied,
    which is the same on an increasing grid. *)
Definition concave (n : Z) (K f : array) : Prop :=
  forall l : Z, (0 < l)%Z -> (l + 1 < n)%Z ->
    (f (l + 1)%Z - f l) * (K l - K (l - 1)%Z)
    <= (f l - f (l - 1)%Z) * (K (l + 1)%Z - K l).

Definition strictly_concave (n : Z) (K f : array) : Prop :=
  forall l : Z, (0 < l)%Z -> (l + 1 < n)%Z ->
    (f (l + 1)%Z - f l) * (K l - K (l - 1)%Z)
    < (f l - f (l - 1)%Z) * (K (l + 1)%Z - K l).

(** A profile that rises strictly up to its peak and falls strictly after
    it (two equal values can only sit next to each other at the top). *)
Definition single_peaked (n : Z) (f : array) : Prop :=
  forall m : Z, (0 <= m)%Z -> (m + 1 < n)%Z ->
    (f m < f (m + 1)%Z -> forall i : Z, (0 <= i < m)%Z -> f i < f m) /\
    (f (m + 1)%Z <= f m ->
     forall i : Z, (m + 1 < i < n)%Z -> f i < f (m + 1)%Z).

(** The [nz] weights [p 0 .. p (nz-1)] form a probability distribution. *)
Definition distribution (nz : Z) (p : array) : Prop :=
  (forall m : Z, (0 <= m < nz)%Z -> 0 <= p m) /\
  for_loop 0 nz (fun m s => s + p m) 0 = 1.

(** ** The transition matrix

    The probability of moving from productivity index [i] to index [j] is
    the cell [i + j * nz] of [P]: this is where [transMat] writes it and
    where [vfStep] and the maximisers read it. *)

(** The sum of the probabilities of leaving state [i]. *)
Definition row_sum (nz : Z) (P : array) (i : Z) : REAL :=
  for_loop 0 nz (fun j s => s + P (i + j * nz)%Z) 0.

(** The normal-CDF mass that [transMat] computes for the move from [ix]
    to [jx], for [jx] before the last column. *)
Definition tauchen (pow : REAL -> REAL -> REAL) (erf log : REAL -> REAL)
  (nz : Z) (mu sigma rho : REAL) (Zg : array) (ix jx : Z) : REAL :=
  let zstep := (log (Zg (nz - 1)%Z) - log (Zg 0%Z)) / IZR (nz - 1) in
  let centre := (log (Zg jx) - mu - rho * log (Zg ix)) / sigma in
  if (jx =? 0)%Z
  then 0.5 + 0.5 * erf ((centre + 0.5 * zstep / sigma) / pow 2 0.5)
  else 0.5 * erf ((centre + 0.5 * zstep / sigma) / pow 2 0.5)
       - 0.5 * erf ((centre - 0.5 * zstep / sigma) / pow 2 0.5).

(** The probability of moving from [i] to [j] that [transMat] stores: the
    normal-CDF mass before the last column; in the last column, one minus
    the first column, less the other columns one after the other (the
    order in which the functor subtracts them). *)
Definition transition_prob (pow : REAL -> REAL -> REAL)
  (erf log : REAL -> REAL) (nz : Z) (mu sigma rho : REAL) (Zg : array)
  (i j : Z) : REAL :=
  if (j <? nz - 1)%Z then tauchen pow erf log nz mu sigma rho Zg i j
  else for_loop 1 (nz - 1)
         (fun m s => s - tauchen pow erf log nz mu sigma rho Zg i m)
         (1 - tauchen pow erf log nz mu sigma rho Zg i 0).

(** Two layouts of the [nz * nz] matrix in the flat buffer [P]: the cell
    of the entry for the move from [j] to [z']. *)
Definition column_major (nz j z' : Z) : Z := (j + z' * nz)%Z.
Definition row_major (nz j z' : Z) : Z := (j * nz + z')%Z.

(** The pass of [vfStep] at [hx] takes the transition probabilities out
    of the state's productivity index [j] from the cells that [layout]
    gives to the entries [(j, z')]: two buffers that agree on these cells
    give the same values for [V[hx]] and [G[hx]]. *)
Definition reads_entries_at (layout : Z -> Z -> Z -> Z)
  (pow : REAL -> REAL -> REAL) (nk nz : Z) (eta beta alpha delta : REAL)
  (maxtype : ascii) (howard : bool) (K Zg V0 V G : array) (hx : Z)
  : Prop :=
  let j := ((hx - Z.rem hx nk) ÷ nk)%Z in
  forall P Q : array,
    (forall z' : Z, (0 <= z' < nz)%Z ->
       Q (layout nz j z') = P (layout nz j z')) ->
    exists V1 G1 V2 G2 : array,
      vfStep pow nk nz eta beta alpha delta maxtype howard K Zg P V0 V G hx
      = Some (V1, G1) /\
      vfStep pow nk nz eta beta alpha delta maxtype howard K Zg Q V0 V G hx
      = Some (V2, G2) /\
      V1 hx = V2 hx /\ G1 hx = G2 hx.

(** ** The capital grid *)

(** The deterministic steady-state capital at productivity [z],
    [k*(z) = ((1/(alpha z)) (1/beta - 1 + delta))^(1/(alpha - 1))]. *)
Definition kstar (alpha beta delta z : REAL) : REAL :=
  Rpower ((1 / (alpha * z)) * (1 / beta - 1 + delta)) (1 / (alpha - 1)).

(** All the [n] entries of [X] are positive. *)
Definition positive (n : Z) (X : array) : Prop :=
  forall i : Z, (0 <= i < n)%Z -> 0 < X i.


(** ** The Bellman step at a state

    The state with capital index [k] and productivity index [j] has the
    flat index [k + j * nk]. *)

(** [ydepK] as [vfStep] computes it at the flat index [hx]. *)
Definition ydepK_at (pow : REAL -> REAL -> REAL) (nk : Z)
  (alpha delta : REAL) (K Zg : array) (hx : Z) : REAL :=
  resources pow alpha delta K Zg (Z.rem hx nk) ((hx - Z.rem hx nk) ÷ nk).

(** The Bellman objective of the next-period capital index [k'] at
    productivity index [j]:
    [u(ydepK - K[k']) + beta * sum over z' of P[j,z'] * V0[k',z']], with
    [u(c) = c^(1-eta)/(1-eta)], the entry [P[j,z']] at offset [j + z'*nz]
    and the entry [V0[k',z']] at offset [k' + z'*nk]. *)
Definition bellman (pow : REAL -> REAL -> REAL) (nk nz : Z)
  (eta beta : REAL) (K P V0 : array) (ydepK : REAL) (j k' : Z) : REAL :=
  pow (ydepK - K k') (1 - eta) / (1 - eta)
  + beta * for_loop 0 nz
             (fun z' s => s + P (j + z' * nz)%Z * V0 (k' + z' * nk)%Z) 0.

(** The bracket [[0, khi]] of [vfStep] at [hx] is in range and feasible. *)
Definition bracket_feasible (pow : REAL -> REAL -> REAL) (nk : Z)
  (alpha delta : REAL) (K Zg : array) (hx : Z) : Prop :=
  exists khi : Z,
    upper_index (ydepK_at pow nk alpha delta K Zg hx) nk K = Some khi /\
    (0 <= khi <= nk - 1)%Z /\
    forall k' : Z, (0 <= k' <= khi)%Z ->
      0 <= ydepK_at pow nk alpha delta K Zg hx - K k'.

(** The grid-search pass of [vfStep] at [hx] writes the maximum of the
    Bellman objective over the bracket, and an index of the bracket that
    attains it. *)
Definition grid_search_optimal (pow : REAL -> REAL -> REAL) (nk nz : Z)
  (eta beta alpha delta : REAL) (K Zg P V0 V G : array) (hx : Z) : Prop :=
  let ydepK := ydepK_at pow nk alpha delta K Zg hx in
  let j := ((hx - Z.rem hx nk) ÷ nk)%Z in
  exists (khi g : Z) (V' G' : array),
    upper_index ydepK nk K = Some khi /\
    vfStep pow nk nz eta beta alpha delta "g" false K Zg P V0 V G hx
    = Some (V', G') /\
    G' hx = IZR g /\ (0 <= g <= khi)%Z /\
    V' hx = bellman pow nk nz eta beta K P V0 ydepK j g /\
    forall k' : Z, (0 <= k' <= khi)%Z ->
      bellman pow nk nz eta beta K P V0 ydepK j k' <= V' hx.

(** The two maximisers write the same value and the same index. *)
Definition maximisers_agree (pow : REAL -> REAL -> REAL)
  (klo nksub nk nz : Z) (ydepK eta beta : REAL) (K P V0 : array) : Prop :=
  binary_max pow klo nksub nk nz ydepK eta beta K P V0
  = Some (grid_max pow klo nksub nk nz ydepK eta beta K P V0).

(** An optional write to one cell. *)
Definition write (A : array) (i : Z) (v : option REAL) : array :=
  match v with
  | Some x => store A i x
  | None => A
  end.

(** * Proofs *)

(** ** Memory and loops *)

Lemma store_same (A : array) (i : Z) (v : REAL) : store A i v i = v.
Proof. unfold store. now rewrite Z.eqb_refl. Qed.

Lemma store_other (A : array) (i k : Z) (v : REAL) :
  k <> i -> store A i v k = A k.
Proof.
  intros Hne. unfold store.
  destruct (Z.eqb_spec k i); [contradiction | reflexivity].
Qed.

Lemma for_loop_empty {St : Type} (lo hi : Z) (body : Z -> St -> St) (s : St) :
  (hi <= lo)%Z -> for_loop lo hi body s = s.
Proof.
  intros Hle. unfold for_loop.
  replace (Z.to_nat (hi - lo)) with O by lia. reflexivity.
Qed.

Lemma for_loop_snoc {St : Type} (lo hi : Z) (body : Z -> St -> St) (s : St) :
  (lo <= hi)%Z ->
  for_loop lo (hi + 1) body s = body hi (for_loop lo hi body s).
Proof.
  intros Hle. unfold for_loop.
  replace (Z.to_nat (hi + 1 - lo)) with (Z.to_nat (hi - lo) + 1)%nat by lia.
  rewrite seq_app, fold_left_app. simpl.
  replace (lo + Z.of_nat (Z.to_nat (hi - lo)))%Z with hi by lia.
  reflexivity.
Qed.

(** Invariant rule for counted loops. *)
Lemma for_loop_inv {St : Type} (Inv : Z -> St -> Prop) (lo hi : Z)
  (body : Z -> St -> St) (s : St) :
  (lo <= hi)%Z ->
  Inv lo s ->
  (forall i t, (lo <= i < hi)%Z -> Inv i t -> Inv (i + 1)%Z (body i t)) ->
  Inv hi (for_loop lo hi body s).
Proof.
  intros Hle H0 Hstep.
  assert (H : forall n : nat, (lo + Z.of_nat n <= hi)%Z ->
            Inv (lo + Z.of_nat n)%Z (for_loop lo (lo + Z.of_nat n) body s)).
  { induction n as [|n IH]; intros Hn.
    - rewrite for_loop_empty by lia.
      now replace (lo + Z.of_nat 0)%Z with lo by lia.
    - replace (lo + Z.of_nat (S n))%Z with (lo + Z.of_nat n + 1)%Z by lia.
      rewrite for_loop_snoc by lia.
      apply Hstep; [lia | apply IH; lia]. }
  specialize (H (Z.to_nat (hi - lo))).
  replace (lo + Z.of_nat (Z.to_nat (hi - lo)))%Z with hi in H by lia.
  apply H. lia.
Qed.

Lemma for_loop_ext {St : Type} (lo hi : Z) (f g : Z -> St -> St) (s : St) :
  (forall i t, (lo <= i < hi)%Z -> f i t = g i t) ->
  for_loop lo hi f s = for_loop lo hi g s.
Proof.
  intros Hfg.
  destruct (Z_le_gt_dec lo hi) as [Hle|Hgt].
  - apply (for_loop_inv (fun i t => t = for_loop lo i g s)); auto.
    + now rewrite for_loop_empty by lia.
    + intros i t Hi ->. rewrite for_loop_snoc by lia. apply Hfg. lia.
  - now rewrite !for_loop_empty by lia.
Qed.

Lemma int_of_real_IZR (z : Z) : int_of_real (IZR z) = z.
Proof.
  unfold int_of_real.
  destruct (Rle_dec 0 (IZR z)) as [Hpos|Hneg].
  - symmetry. apply Int_part_spec. lra.
  - rewrite <- opp_IZR.
    rewrite <- (Int_part_spec (IZR (- z)) (- z)); [lia | lra].
Qed.

(** ** [binary_val] *)

(** One iteration of the loop keeps the midpoint strictly inside the
    bracket. *)
Lemma midpoint_inside (ilo ihi : Z) :
  (ihi - ilo > 1)%Z -> (ilo < (ilo + ihi) ÷ 2 < ihi)%Z.
Proof.
  intros H.
  pose proof (Z.quot_rem' (ilo + ihi) 2) as Hq.
  pose proof (Z.rem_bound_abs (ilo + ihi) 2) as Hr.
  assert (Hb : (Z.abs (Z.rem (ilo + ihi) 2) < 2)%Z) by (apply Hr; lia).
  lia.
Qed.

(** The loop returns within [ihi - ilo - 1] iterations, and its result is
    either an exact match or the upper end of a bracket of width one. *)
Lemma binary_val_loop_post (x : REAL) (X : array) :
  forall (fuel : nat) (ilo ihi : Z),
    (ilo < ihi)%Z ->
    (ihi - ilo <= Z.of_nat fuel + 1)%Z ->
    exists r : Z,
      binary_val_loop fuel x X ilo ihi = Some r /\
      (ilo < r <= ihi)%Z /\
      (X r = x \/
       ((r = ihi \/ x < X r) /\ ((r - 1)%Z = ilo \/ X (r - 1)%Z < x))).
Proof.
  induction fuel as [|fuel IH]; intros ilo ihi Hlt Hfuel.
  - simpl. destruct (Z.gtb_spec (ihi - ilo) 1) as [Hgt|Hle]; [lia|].
    exists ihi. repeat split; lia.
  - simpl. destruct (Z.gtb_spec (ihi - ilo) 1) as [Hgt|Hle].
    + pose proof (midpoint_inside ilo ihi ltac:(lia)) as Hmid.
      set (imid := ((ilo + ihi) ÷ 2)%Z) in *.
      destruct (Req_dec_T (X imid) x) as [Heq|Hne].
      * exists imid. repeat split; try lia. now left.
      * destruct (Rgt_dec (X imid) x) as [Hgt'|Hngt].
        -- destruct (IH ilo imid) as (r & Hr & Hrange & Hpost); try lia.
           exists r. repeat split; try lia; try assumption.
           destruct Hpost as [H|[[H|H] H']]; [now left| |].
           ++ right. split; [right; subst r; lra | assumption].
           ++ right. split; [now right | assumption].
        -- destruct (IH imid ihi) as (r & Hr & Hrange & Hpost); try lia.
           exists r. repeat split; try lia; try assumption.
           destruct Hpost as [H|[H [H'|H']]]; [now left| |].
           ++ right. split; [assumption | right; rewrite H'; lra].
           ++ right. split; [assumption | now right].
    + exists ihi. repeat split; lia.
Qed.

(** [binary_val] always returns, and this is what it returns. *)
Lemma binary_val_post (x : REAL) (n : Z) (X : array) :
  (1 <= n)%Z ->
  exists r : Z,
    binary_val x n X = Some r /\
    (0 <= r < n)%Z /\
    (x < X 0%Z -> r = 0%Z) /\
    (X 0%Z <= x -> X (n - 1)%Z < x -> r = (n - 1)%Z) /\
    (X 0%Z <= x <= X (n - 1)%Z ->
     (n = 1%Z /\ r = 0%Z) \/
     ((0 < r)%Z /\ x <= X r /\
      (X r = x \/ r = 1%Z \/ X (r - 1)%Z < x))).
Proof.
  intros Hn. unfold binary_val, binary_val_fuel.
  destruct (Rlt_dec x (X 0%Z)) as [Hlo|Hlo].
  { exists 0%Z. repeat split; try lia; intros; lra. }
  destruct (Rgt_dec x (X (n - 1)%Z)) as [Hhi|Hhi].
  { exists (n - 1)%Z. repeat split; try lia; intros; lra. }
  destruct (Z.eq_dec n 1) as [->|Hn1].
  { exists 0%Z. simpl. repeat split; try lia; intros; lra. }
  destruct (binary_val_loop_post x X (Z.to_nat n) 0 (n - 1))
    as (r & Hr & Hrange & Hpost); try lia.
  exists r. rewrite Hr. repeat split; try lia; try (intros; lra).
  intros _. right. split; [lia|].
  destruct Hpost as [H|[[H|H] [H'|H']]].
  - split; [lra | now left].
  - subst r. split; [lra | right; left; lia].
  - subst r. split; [lra | now right; right].
  - split; [lra | right; left; lia].
  - split; [lra | now right; right].
Qed.

(** On a strictly increasing grid, for [X[0] < x <= X[n-1]], the result
    is the first index whose entry is at least [x]. *)
Lemma binary_val_interior (x : REAL) (n : Z) (X : array) :
  (1 <= n)%Z -> increasing n X -> X 0%Z < x <= X (n - 1)%Z ->
  exists r : Z, binary_val x n X = Some r /\ first_at_least x n X r.
Proof.
  intros Hn Hinc Hx.
  destruct (binary_val_post x n X Hn) as (r & Hr & Hrange & _ & _ & Hmid).
  exists r. split; [assumption|].
  destruct Hmid as [[-> ->]|(Hpos & Hle & Hprev)];
    [lra | simpl in Hx; lra |].
  repeat split; try lia; try assumption.
  intros k Hk.
  destruct Hprev as [H|[H|H]].
  - rewrite <- H. apply Hinc; lia.
  - assert (k = 0%Z) as -> by lia. lra.
  - destruct (Z.eq_dec k (r - 1)) as [->|Hne]; [assumption|].
    apply Rlt_trans with (X (r - 1)%Z); [apply Hinc; lia | assumption].
Qed.

(** At [x = X[0]] on a grid of two or more points the result is index 1,
    although index 0 is the first whose entry is at least [x]. *)
Lemma binary_val_at_first_point (n : Z) (X : array) :
  (2 <= n)%Z -> increasing n X ->
  binary_val (X 0%Z) n X = Some 1%Z /\ first_at_least (X 0%Z) n X 0.
Proof.
  intros Hn Hinc. split.
  - destruct (binary_val_post (X 0%Z) n X ltac:(lia))
      as (r & Hr & Hrange & _ & _ & Hmid).
    rewrite Hr. f_equal.
    assert (H0 : X 0%Z <= X (n - 1)%Z) by (left; apply Hinc; lia).
    destruct Hmid as [[-> _]|(Hpos & Hle & Hprev)]; [lra | lia |].
    destruct Hprev as [H|[H|H]]; [| assumption |].
    + pose proof (Hinc 0%Z r ltac:(lia) ltac:(lia)). lra.
    + destruct (Z.eq_dec r 1) as [->|Hne]; [reflexivity|].
      pose proof (Hinc 0%Z (r - 1)%Z ltac:(lia) ltac:(lia)). lra.
  - repeat split; try lia; try lra. 
Qed.

(** ** [upper_index]: the feasible bracket of [vfStep] *)

Lemma upper_index_post (ydepK : REAL) (nk : Z) (K : array) :
  (1 <= nk)%Z -> increasing nk K -> K 0%Z <= ydepK ->
  exists khi : Z,
    upper_index ydepK nk K = Some khi /\
    (0 <= khi <= nk - 1)%Z /\
    forall k' : Z, (0 <= k' <= khi)%Z -> K k' <= ydepK.
Proof.
  intros Hnk Hinc H0. unfold upper_index.
  destruct (binary_val_post ydepK nk K Hnk)
    as (r & -> & Hrange & _ & Hhi & Hmid).
  assert (Hmono : forall i j, (0 <= i <= j)%Z -> (j < nk)%Z -> K i <= K j).
  { intros i j Hij Hj. destruct (Z.eq_dec i j) as [->|Hne]; [lra|].
    left. apply Hinc; lia. }
  destruct (Rle_or_lt ydepK (K (nk - 1)%Z)) as [Hin|Hout].
  - destruct (Hmid (conj H0 Hin)) as [[-> ->]|(Hpos & Hle & Hprev)].
    + simpl in Hin. destruct (Rgt_dec (K 0%Z) ydepK) as [Hgt|_]; [lra|].
      exists 0%Z. repeat split; try lia.
      intros k' Hk'. now assert (k' = 0%Z) as -> by lia.
    + destruct (Rgt_dec (K r) ydepK) as [Hgt|Hngt].
      * exists (r - 1)%Z. repeat split; try lia.
        intros k' Hk'. apply Rle_trans with (K (r - 1)%Z).
        { apply Hmono; lia. }
        destruct Hprev as [H|[H|H]]; [lra | | lra].
        subst r. exact H0.
      * exists r. repeat split; try lia.
        intros k' Hk'. apply Rle_trans with (K r); [apply Hmono; lia | lra].
  - rewrite (Hhi H0 Hout).
    destruct (Rgt_dec (K (nk - 1)%Z) ydepK) as [Hgt|_]; [lra|].
    exists (nk - 1)%Z. repeat split; try lia.
    intros k' Hk'. apply Rle_trans with (K (nk - 1)%Z);
      [apply Hmono; lia | lra].
Qed.

(** Below the grid the bracket is empty: [khi = -1]. *)
Lemma upper_index_empty (ydepK : REAL) (nk : Z) (K : array) :
  ydepK < K 0%Z -> upper_index ydepK nk K = Some (-1)%Z.
Proof.
  intros Hlt. unfold upper_index, binary_val, binary_val_fuel.
  destruct (Rlt_dec ydepK (K 0%Z)) as [_|H]; [|contradiction].
  destruct (Rgt_dec (K 0%Z) ydepK) as [_|H]; [reflexivity | lra].
Qed.

Lemma upper_index_total (ydepK : REAL) (nk : Z) (K : array) :
  (1 <= nk)%Z -> exists khi : Z, upper_index ydepK nk K = Some khi.
Proof.
  intros Hnk. unfold upper_index.
  destruct (binary_val_post ydepK nk K Hnk) as (r & -> & _). eauto.
Qed.

(** ** [grid_max] *)

Section Maximisers.

Variable pow : REAL -> REAL -> REAL.
Variables klo nk nz : Z.
Variables ydepK eta beta : REAL.
Variables K P V0 : array.

Let w : Z -> REAL := objective pow klo nk nz ydepK eta beta K P V0.

(** [grid_max] returns the first maximiser of the objective over the
    bracket, and its value. *)
Lemma grid_max_post (nksub : Z) :
  (1 <= nksub)%Z ->
  exists g : Z,
    grid_max pow klo nksub nk nz ydepK eta beta K P V0
    = (w g, IZR (klo + g)) /\
    (0 <= g < nksub)%Z /\
    (forall k : Z, (0 <= k < nksub)%Z -> w k <= w g) /\
    (forall k : Z, (0 <= k < g)%Z -> w k < w g).
Proof.
  intros Hn. unfold grid_max. fold w.
  pose (Inv := fun (l : Z) (s : REAL * Z) =>
    let '(wmax, windmax) := s in
    wmax = w windmax /\ (0 <= windmax < l)%Z /\
    (forall k : Z, (0 <= k < l)%Z -> w k <= wmax) /\
    (forall k : Z, (0 <= k < windmax)%Z -> w k < wmax)).
  assert (HInv : Inv nksub
    (for_loop 1 nksub
       (fun l '(wmax, windmax) =>
          if Rgt_dec (w l) wmax then (w l, l) else (wmax, windmax))
       (w 0%Z, 0%Z))).
  { apply for_loop_inv; [lia | |].
    - unfold Inv. repeat split; try lia.
      intros k Hk. assert (k = 0%Z) as -> by lia. lra.
    - intros l [wmax windmax] Hl (Hw & Hrange & Hmax & Hfirst).
      unfold Inv. destruct (Rgt_dec (w l) wmax) as [Hgt|Hngt].
      + repeat split; try lia.
        * intros k Hk. destruct (Z.eq_dec k l) as [->|Hne]; [lra|].
          specialize (Hmax k ltac:(lia)). lra.
        * intros k Hk. specialize (Hmax k ltac:(lia)). lra.
      + repeat split; try lia; try assumption.
        intros k Hk. destruct (Z.eq_dec k l) as [->|Hne]; [lra|].
        apply Hmax. lia. }
  destruct (for_loop 1 nksub _ _) as [wmax windmax].
  destruct HInv as (-> & Hrange & Hmax & Hfirst).
  exists windmax. auto.
Qed.

(** Whatever the bracket, the value written is the objective at the
    index written. *)
Lemma grid_max_value (nksub : Z) :
  exists g : Z,
    grid_max pow klo nksub nk nz ydepK eta beta K P V0
    = (w g, IZR (klo + g)).
Proof.
  destruct (Z_le_gt_dec 1 nksub) as [Hn|Hn].
  - destruct (grid_max_post nksub Hn) as (g & Hg & _). eauto.
  - exists 0%Z. unfold grid_max. now rewrite for_loop_empty by lia.
Qed.

End Maximisers.

(** ** [binary_max] *)

Section Bisection.

Variable pow : REAL -> REAL -> REAL.
Variables klo nk nz : Z.
Variables ydepK eta beta : REAL.
Variables K P V0 : array.

Let w : Z -> REAL := objective pow klo nk nz ydepK eta beta K P V0.

Lemma midpoint_nonneg (lo hi : Z) :
  (0 <= lo)%Z -> (2 < hi - lo)%Z ->
  (lo + 1 <= (lo + hi) ÷ 2)%Z /\ ((lo + hi) ÷ 2 + 2 <= hi)%Z.
Proof.
  intros Hlo Hd. rewrite Z.quot_div_nonneg by lia.
  pose proof (Z.div_mod (lo + hi) 2 ltac:(lia)).
  pose proof (Z.mod_pos_bound (lo + hi) 2 ltac:(lia)). lia.
Qed.

(** The bracket-shrinking loop, with an invariant [Inv] of the bracket:
    it stops after at most [kshi - kslo - 2] iterations at a bracket of
    exactly three candidates, and [w1], [w2] hold the two values compared
    last. *)
Lemma binary_max_loop_post (Inv : Z -> Z -> Prop) :
  (forall lo hi : Z,
      (0 <= lo)%Z -> (2 < hi - lo)%Z -> Inv lo hi ->
      (w ((lo + hi) ÷ 2 + 1)%Z > w ((lo + hi) ÷ 2)%Z ->
       Inv ((lo + hi) ÷ 2)%Z hi) /\
      (~ w ((lo + hi) ÷ 2 + 1)%Z > w ((lo + hi) ÷ 2)%Z ->
       Inv lo ((lo + hi) ÷ 2 + 1)%Z)) ->
  forall (fuel : nat) (kslo kshi : Z) (w1 w2 : REAL),
    (0 <= kslo)%Z -> (2 <= kshi - kslo)%Z ->
    (kshi - kslo <= Z.of_nat fuel + 2)%Z ->
    Inv kslo kshi ->
    exists (lo : Z) (w1' w2' : REAL),
      binary_max_loop pow fuel klo nk nz ydepK eta beta K P V0
        kslo kshi w1 w2 = Some (lo, (lo + 2)%Z, w1', w2') /\
      (kslo <= lo)%Z /\ (lo + 2 <= kshi)%Z /\ Inv lo (lo + 2)%Z /\
      ((lo = kslo /\ (lo + 2)%Z = kshi /\ w1' = w1 /\ w2' = w2) \/
       (w2' > w1' /\ w1' = w lo /\ w2' = w (lo + 1)%Z) \/
       (~ w2' > w1' /\ w1' = w (lo + 1)%Z /\ w2' = w (lo + 2)%Z)).
Proof.
  intros Hstep.
  induction fuel as [|fuel IH]; intros kslo kshi w1 w2 Hlo Hd Hfuel HInv.
  - simpl. destruct (Z.gtb_spec (kshi - kslo) 2) as [Hgt|Hle]; [lia|].
    exists kslo, w1, w2. replace (kslo + 2)%Z with kshi by lia.
    repeat split; try lia; try assumption. left. repeat split; lia.
  - simpl. destruct (Z.gtb_spec (kshi - kslo) 2) as [Hgt|Hle].
    + pose proof (midpoint_nonneg kslo kshi Hlo Hgt) as [Hm1 Hm2].
      destruct (Hstep kslo kshi Hlo Hgt HInv) as [Hup Hdown].
      fold w. set (m := ((kslo + kshi) ÷ 2)%Z) in *. clearbody m.
      destruct (Rgt_dec (w (m + 1)%Z) (w m)) as [Hgt'|Hngt].
      * destruct (IH m kshi (w m) (w (m + 1)%Z))
          as (lo & w1' & w2' & Hrun & Hl & Hh & HI & Hlast);
          try lia; [now apply Hup|].
        exists lo, w1', w2'. repeat split; try lia; try assumption.
        destruct Hlast as [(-> & _ & -> & ->)|Hlast];
          [right; left; auto | right; exact Hlast].
      * destruct (IH kslo (m + 1)%Z (w m) (w (m + 1)%Z))
          as (lo & w1' & w2' & Hrun & Hl & Hh & HI & Hlast);
          try lia; [now apply Hdown|].
        exists lo, w1', w2'. repeat split; try lia; try assumption.
        destruct Hlast as [(-> & Heq & -> & ->)|Hlast];
          [|right; exact Hlast].
        right; right. assert (m = (kslo + 1)%Z) as -> by lia.
        replace (kslo + 1 + 1)%Z with (kslo + 2)%Z in * by lia. auto.
    + exists kslo, w1, w2. replace (kslo + 2)%Z with kshi by lia.
      repeat split; try lia; try assumption. left. repeat split; lia.
Qed.

(** [binary_max] always returns.  With more than three candidates, it
    resolves a bracket [lo, lo+1, lo+2] that satisfies the invariant, in
    one of two ways according to the last comparison of the loop. *)
Lemma binary_max_cases (Inv : Z -> Z -> Prop) (nksub : Z) :
  (forall lo hi : Z,
      (0 <= lo)%Z -> (2 < hi - lo)%Z -> Inv lo hi ->
      (w ((lo + hi) ÷ 2 + 1)%Z > w ((lo + hi) ÷ 2)%Z ->
       Inv ((lo + hi) ÷ 2)%Z hi) /\
      (~ w ((lo + hi) ÷ 2 + 1)%Z > w ((lo + hi) ÷ 2)%Z ->
       Inv lo ((lo + hi) ÷ 2 + 1)%Z)) ->
  (3 < nksub)%Z -> Inv 0%Z (nksub - 1)%Z ->
  exists lo : Z,
    (0 <= lo)%Z /\ (lo + 2 < nksub)%Z /\ Inv lo (lo + 2)%Z /\
    ((w (lo + 1)%Z > w lo /\
      binary_max pow klo nksub nk nz ydepK eta beta K P V0
      = Some (if Rgt_dec (w (lo + 1)%Z) (w (lo + 2)%Z)
              then (w (lo + 1)%Z, IZR (klo + lo + 1))
              else (w (lo + 2)%Z, IZR (klo + (lo + 2))))) \/
     (~ w (lo + 2)%Z > w (lo + 1)%Z /\
      binary_max pow klo nksub nk nz ydepK eta beta K P V0
      = Some (if Rgt_dec (w lo) (w (lo + 1)%Z)
              then (w lo, IZR (klo + lo))
              else (w (lo + 1)%Z, IZR (klo + lo + 1))))).
Proof.
  intros Hstep Hn HInv. unfold binary_max, binary_max_fuel.
  destruct (Z.gtb_spec nksub 3) as [_|Hle]; [|lia].
  destruct (binary_max_loop_post Inv Hstep (Z.to_nat nksub) 0 (nksub - 1)
              0 0) as (lo & w1' & w2' & -> & Hl & Hh & HI & Hlast);
    try lia; try assumption.
  exists lo. repeat split; try lia; try assumption.
  destruct Hlast as [(-> & Heq & _)|[(Hgt & -> & ->)|(Hngt & -> & ->)]];
    [lia | left | right]; fold w.
  - split; [assumption|].
    destruct (Rgt_dec (w (lo + 1)%Z) (w lo)) as [_|H]; [|contradiction].
    destruct (Rgt_dec (w (lo + 1)%Z) (w (lo + 2)%Z)); reflexivity.
  - split; [assumption|].
    destruct (Rgt_dec (w (lo + 2)%Z) (w (lo + 1)%Z)) as [H|_];
      [contradiction|].
    destruct (Rgt_dec (w lo) (w (lo + 1)%Z)); reflexivity.
Qed.

(** Whatever the bracket, [binary_max] returns, and the value written
    is the objective at the index written. *)
Lemma binary_max_value (nksub : Z) :
  exists g : Z,
    binary_max pow klo nksub nk nz ydepK eta beta K P V0
    = Some (w g, IZR (klo + g)).
Proof.
  assert (Hshape : forall (a b : Z),
             b = (klo + a)%Z ->
             exists g : Z, Some (w a, IZR b) = Some (w g, IZR (klo + g))).
  { intros a b ->. now exists a. }
  destruct (Z_lt_ge_dec 3 nksub) as [Hn|Hn].
  - destruct (binary_max_cases (fun _ _ => True) nksub) as
      (lo & _ & _ & _ & [[_ ->]|[_ ->]]); auto.
    + destruct (Rgt_dec (w (lo + 1)%Z) (w (lo + 2)%Z));
        apply Hshape; lia.
    + destruct (Rgt_dec (w lo) (w (lo + 1)%Z)); apply Hshape; lia.
  - unfold binary_max, binary_max_fuel. fold w.
    destruct (Z.gtb_spec nksub 3) as [Hgt|_]; [lia|].
    destruct (Z.eqb_spec nksub 3) as [->|Hne].
    + simpl.
      destruct (Rgt_dec (w 1%Z) (w 0%Z));
        destruct (Rgt_dec (w 2%Z) _); apply Hshape; lia.
    + destruct (Rgt_dec (w (nksub - 1)%Z) (w 0%Z)); apply Hshape; lia.
Qed.

(** On a single-peaked objective [binary_max] returns a maximiser over
    the whole bracket, and its value. *)
Lemma binary_max_post (nksub : Z) :
  (1 <= nksub)%Z -> single_peaked nksub w ->
  exists g : Z,
    binary_max pow klo nksub nk nz ydepK eta beta K P V0
    = Some (w g, IZR (klo + g)) /\
    (0 <= g < nksub)%Z /\
    forall k : Z, (0 <= k < nksub)%Z -> w k <= w g.
Proof.
  intros Hn Hpeak.
  assert (Hshape : forall (a b : Z) (r : option (REAL * REAL)),
             r = Some (w a, IZR b) ->
             b = (klo + a)%Z -> (0 <= a < nksub)%Z ->
             (forall k : Z, (0 <= k < nksub)%Z -> w k <= w a) ->
             exists g : Z,
               r = Some (w g, IZR (klo + g)) /\ (0 <= g < nksub)%Z /\
               forall k : Z, (0 <= k < nksub)%Z -> w k <= w g).
  { intros a b r -> -> Ha Hmax. now exists a. }
  destruct (Z_lt_ge_dec 3 nksub) as [Hgt|Hle].
  - pose (Inv := fun lo hi : Z =>
      (hi < nksub)%Z /\
      (forall i : Z, (0 <= i < lo)%Z -> w i < w lo) /\
      (forall i : Z, (hi < i < nksub)%Z -> w i < w hi)).
    destruct (binary_max_cases Inv nksub) as
      (lo & Hlo & Hhi & (_ & Hleft & Hright) & Hres); try assumption.
    { intros lo hi Hlo Hd (Hhi & Hleft & Hright).
      pose proof (midpoint_nonneg lo hi Hlo Hd) as [Hm1 Hm2].
      set (m := ((lo + hi) ÷ 2)%Z) in *. clearbody m.
      destruct (Hpeak m ltac:(lia) ltac:(lia)) as [Hup Hdown].
      split; intros Hcmp.
      - repeat split; [lia | | assumption].
        intros i Hi. apply Hup; [lra | lia].
      - repeat split; [lia | assumption |].
        intros i Hi. apply Hdown; [lra | lia]. }
    { repeat split; [lia | intros; lia | intros; lia]. }
    assert (Hsplit : forall k : Z, (0 <= k < nksub)%Z ->
              (k < lo \/ k = lo \/ k = lo + 1 \/ k = lo + 2 \/ lo + 2 < k)%Z)
      by (intros; lia).
    destruct Hres as [[Hcmp ->]|[Hcmp ->]].
    + destruct (Rgt_dec (w (lo + 1)%Z) (w (lo + 2)%Z)) as [H|H];
        (eapply Hshape; [reflexivity | lia | lia |]); intros k Hk;
        destruct (Hsplit k Hk) as [Hc|[->|[->|[->|Hc]]]];
        try lra;
        try (specialize (Hleft k ltac:(lia)); lra);
        try (specialize (Hright k ltac:(lia)); lra).
    + destruct (Rgt_dec (w lo) (w (lo + 1)%Z)) as [H|H];
        (eapply Hshape; [reflexivity | lia | lia |]); intros k Hk;
        destruct (Hsplit k Hk) as [Hc|[->|[->|[->|Hc]]]];
        try lra;
        try (specialize (Hleft k ltac:(lia)); lra);
        try (specialize (Hright k ltac:(lia)); lra).
  - unfold binary_max, binary_max_fuel. fold w.
    destruct (Z.gtb_spec nksub 3) as [Hgt|_]; [lia|].
    destruct (Z.eqb_spec nksub 3) as [->|Hne].
    + simpl.
      destruct (Rgt_dec (w 1%Z) (w 0%Z));
        destruct (Rgt_dec (w 2%Z) _);
        (eapply Hshape; [reflexivity | lia | lia |]); intros k Hk;
        assert (k = 0 \/ k = 1 \/ k = 2)%Z as [-> | [-> | ->]] by lia; lra.
    + destruct (Rgt_dec (w (nksub - 1)%Z) (w 0%Z));
        (eapply Hshape; [reflexivity | lia | lia |]); intros k Hk;
        assert (Hk' : (k = 0 \/ k = nksub - 1)%Z) by lia;
        destruct Hk' as [Hk0 | Hk0]; rewrite Hk0; lra.
Qed.

End Bisection.

(** ** [vfStep] *)

(** The cell [ix + jx*nk] that [vfStep] writes is the cell [hx]. *)
Lemma flat_index (hx nk : Z) :
  nk <> 0%Z ->
  (Z.rem hx nk + (hx - Z.rem hx nk) ÷ nk * nk)%Z = hx.
Proof.
  intros Hnk.
  pose proof (Z.quot_rem' hx nk) as Hq.
  replace (hx - Z.rem hx nk)%Z with (hx ÷ nk * nk)%Z by lia.
  rewrite Z.quot_mul by assumption. lia.
Qed.

(** The state [(k, j)] is recovered from its flat index. *)
Lemma state_of_flat_index (k j nk : Z) :
  (0 <= k < nk)%Z -> (0 <= j)%Z ->
  Z.rem (k + j * nk) nk = k /\ ((k + j * nk - k) ÷ nk)%Z = j.
Proof.
  intros Hk Hj. split.
  - rewrite Z.rem_mod_nonneg by nia.
    rewrite Z.mod_add by lia. apply Z.mod_small. lia.
  - replace (k + j * nk - k)%Z with (j * nk)%Z by lia.
    apply Z.quot_mul. lia.
Qed.

(** The objective that the maximisers see through the pointers [vfStep]
    passes is the Bellman objective of the state. *)
Lemma objective_bellman (pow : REAL -> REAL -> REAL) (nk nz : Z)
  (ydepK eta beta : REAL) (K P V0 : array) (j l : Z) :
  objective pow 0 nk nz ydepK eta beta K (ptr_add P j) (ptr_add V0 0) l
  = bellman pow nk nz eta beta K P V0 ydepK j l.
Proof. reflexivity. Qed.

Section Step.

Variable pow : REAL -> REAL -> REAL.
Variables nk nz : Z.
Variables eta beta alpha delta : REAL.
Variables K Zg P V0 : array.
Variable hx : Z.
Hypothesis Hnk : (1 <= nk)%Z.

Let jx : Z := ((hx - Z.rem hx nk) ÷ nk)%Z.
Let ydepK : REAL := ydepK_at pow nk alpha delta K Zg hx.

(** The grid-search pass. *)
Lemma vfStep_grid (V G : array) :
  exists khi : Z,
    upper_index ydepK nk K = Some khi /\
    vfStep pow nk nz eta beta alpha delta "g" false K Zg P V0 V G hx
    = Some (store V hx
              (fst (grid_max pow 0 (khi - 0 + 1) nk nz ydepK eta beta K
                      (ptr_add P jx) (ptr_add V0 0))),
            store G hx
              (snd (grid_max pow 0 (khi - 0 + 1) nk nz ydepK eta beta K
                      (ptr_add P jx) (ptr_add V0 0)))).
Proof.
  destruct (upper_index_total ydepK nk K Hnk) as [khi Hkhi].
  exists khi. split; [assumption|].
  unfold vfStep. fold (ydepK_at pow nk alpha delta K Zg hx). fold ydepK.
  rewrite Hkhi, flat_index by lia. simpl Ascii.eqb. cbv iota.
  fold jx. now destruct (grid_max _ _ _ _ _ _ _ _ _ _ _).
Qed.

(** The bisection pass. *)
Lemma vfStep_binary (V G : array) :
  exists (khi : Z) (v g : REAL),
    upper_index ydepK nk K = Some khi /\
    binary_max pow 0 (khi - 0 + 1) nk nz ydepK eta beta K
      (ptr_add P jx) (ptr_add V0 0) = Some (v, g) /\
    vfStep pow nk nz eta beta alpha delta "b" false K Zg P V0 V G hx
    = Some (store V hx v, store G hx g).
Proof.
  destruct (upper_index_total ydepK nk K Hnk) as [khi Hkhi].
  destruct (binary_max_value pow 0 nk nz ydepK eta beta K
              (ptr_add P jx) (ptr_add V0 0) (khi - 0 + 1)) as [g Hg].
  exists khi. do 2 eexists. split; [assumption|]. split; [exact Hg|].
  unfold vfStep. fold (ydepK_at pow nk alpha delta K Zg hx). fold ydepK.
  rewrite Hkhi, flat_index by lia. simpl Ascii.eqb. cbv iota.
  fold jx. now rewrite Hg.
Qed.

(** A pass with another [maxtype] writes nothing. *)
Lemma vfStep_other (maxtype : ascii) (V G : array) :
  maxtype <> "g"%char -> maxtype <> "b"%char ->
  vfStep pow nk nz eta beta alpha delta maxtype false K Zg P V0 V G hx
  = Some (V, G).
Proof.
  intros Hg Hb.
  destruct (upper_index_total ydepK nk K Hnk) as [khi Hkhi].
  unfold vfStep. fold (ydepK_at pow nk alpha delta K Zg hx). fold ydepK.
  rewrite Hkhi.
  destruct (Ascii.eqb_spec maxtype "g"); [contradiction|].
  destruct (Ascii.eqb_spec maxtype "b"); [contradiction|]. reflexivity.
Qed.

(** The policy-fixed pass. *)
Lemma vfStep_howard (maxtype : ascii) (V G : array) :
  vfStep pow nk nz eta beta alpha delta maxtype true K Zg P V0 V G hx
  = Some (store V hx
            (bellman pow nk nz eta beta K P V0 ydepK jx
               (int_of_real (G hx))),
          G).
Proof.
  unfold vfStep. fold (ydepK_at pow nk alpha delta K Zg hx). fold ydepK.
  rewrite flat_index by lia. reflexivity.
Qed.

End Step.

(** ** The cells of [P] that a pass reads *)

(** The maximisers depend on [P] and [V0] through the objective alone. *)
Lemma grid_max_ext (pow : REAL -> REAL -> REAL) (klo nksub nk nz : Z)
  (ydepK eta beta : REAL) (K P Q V0 V0' : array) :
  (forall l : Z,
      objective pow klo nk nz ydepK eta beta K P V0 l
      = objective pow klo nk nz ydepK eta beta K Q V0' l) ->
  grid_max pow klo nksub nk nz ydepK eta beta K P V0
  = grid_max pow klo nksub nk nz ydepK eta beta K Q V0'.
Proof.
  intros Hobj. unfold grid_max. rewrite (Hobj 0%Z).
  rewrite (for_loop_ext 1 nksub _
             (fun l '(wmax, windmax) =>
                let w := objective pow klo nk nz ydepK eta beta K Q V0' l in
                if Rgt_dec w wmax then (w, l) else (wmax, windmax)));
    [reflexivity|].
  intros l [wmax windmax] Hl. cbv zeta. now rewrite Hobj.
Qed.

Lemma binary_max_loop_ext (pow : REAL -> REAL -> REAL) (klo nk nz : Z)
  (ydepK eta beta : REAL) (K P Q V0 V0' : array) :
  (forall l : Z,
      objective pow klo nk nz ydepK eta beta K P V0 l
      = objective pow klo nk nz ydepK eta beta K Q V0' l) ->
  forall (fuel : nat) (kslo kshi : Z) (w1 w2 : REAL),
    binary_max_loop pow fuel klo nk nz ydepK eta beta K P V0 kslo kshi w1 w2
    = binary_max_loop pow fuel klo nk nz ydepK eta beta K Q V0' kslo kshi
        w1 w2.
Proof.
  intros Hobj. induction fuel as [|fuel IH]; intros kslo kshi w1 w2.
  - reflexivity.
  - simpl. destruct (kshi - kslo >? 2)%Z; [|reflexivity].
    rewrite !Hobj.
    destruct (Rgt_dec _ _); apply IH.
Qed.

Lemma binary_max_ext (pow : REAL -> REAL -> REAL) (klo nksub nk nz : Z)
  (ydepK eta beta : REAL) (K P Q V0 V0' : array) :
  (forall l : Z,
      objective pow klo nk nz ydepK eta beta K P V0 l
      = objective pow klo nk nz ydepK eta beta K Q V0' l) ->
  binary_max pow klo nksub nk nz ydepK eta beta K P V0
  = binary_max pow klo nksub nk nz ydepK eta beta K Q V0'.
Proof.
  intros Hobj. unfold binary_max, binary_max_fuel.
  rewrite (binary_max_loop_ext pow klo nk nz ydepK eta beta K P Q V0 V0'
             Hobj).
  destruct (nksub >? 3)%Z; [|now rewrite !Hobj].
  destruct (binary_max_loop _ _ _ _ _ _ _ _ _ _ _ _ _ _ _)
    as [[[[kslo kshi] w1] w2]|]; [|reflexivity].
  now rewrite !Hobj.
Qed.

(** The Bellman objective of a state with productivity index [j] depends
    on [P] through the cells [j + z' * nz] alone. *)
Lemma bellman_ext (pow : REAL -> REAL -> REAL) (nk nz : Z)
  (eta beta : REAL) (K P Q V0 : array) (ydepK : REAL) (j k' : Z) :
  (forall z' : Z, (0 <= z' < nz)%Z ->
     Q (j + z' * nz)%Z = P (j + z' * nz)%Z) ->
  bellman pow nk nz eta beta K Q V0 ydepK j k'
  = bellman pow nk nz eta beta K P V0 ydepK j k'.
Proof.
  intros Hcells. unfold bellman. f_equal. f_equal.
  apply for_loop_ext. intros z' t Hz'. now rewrite Hcells.
Qed.

(** Every pass of [vfStep] depends on [P] through these cells alone. *)
Lemma vfStep_reads_column_major (pow : REAL -> REAL -> REAL)
  (nk nz : Z) (eta beta alpha delta : REAL) (maxtype : ascii)
  (howard : bool) (K Zg V0 V G : array) (hx : Z) :
  (1 <= nk)%Z ->
  reads_entries_at column_major pow nk nz eta beta alpha delta maxtype
    howard K Zg V0 V G hx.
Proof.
  intros Hnk. unfold reads_entries_at. cbv zeta.
  set (j := ((hx - Z.rem hx nk) ÷ nk)%Z). intros P Q Hcells.
  unfold column_major in Hcells.
  assert (Hobj : forall l : Z,
            objective pow 0 nk nz (ydepK_at pow nk alpha delta K Zg hx)
              eta beta K (ptr_add P j) (ptr_add V0 0) l
            = objective pow 0 nk nz (ydepK_at pow nk alpha delta K Zg hx)
                eta beta K (ptr_add Q j) (ptr_add V0 0) l).
  { intros l. rewrite !objective_bellman. symmetry.
    now apply bellman_ext. }
  destruct howard.
  - do 4 eexists.
    split; [now apply vfStep_howard|]. split; [now apply vfStep_howard|].
    rewrite !store_same. split; [|reflexivity].
    symmetry. now apply bellman_ext.
  - destruct (Ascii.eqb_spec maxtype "g") as [->|Hg].
    + destruct (vfStep_grid pow nk nz eta beta alpha delta K Zg P V0 hx
                  Hnk V G) as (khi & Hkhi & HP).
      destruct (vfStep_grid pow nk nz eta beta alpha delta K Zg Q V0 hx
                  Hnk V G) as (khi' & Hkhi' & HQ).
      rewrite Hkhi in Hkhi'. injection Hkhi' as <-.
      do 4 eexists. split; [exact HP|]. split; [exact HQ|].
      rewrite !store_same. fold j.
      now rewrite (grid_max_ext pow 0 (khi - 0 + 1) nk nz _ eta beta K
                     (ptr_add P j) (ptr_add Q j) (ptr_add V0 0)
                     (ptr_add V0 0) Hobj).
    + destruct (Ascii.eqb_spec maxtype "b") as [->|Hb].
      * destruct (vfStep_binary pow nk nz eta beta alpha delta K Zg P V0
                    hx Hnk V G) as (khi & v & g & Hkhi & Hmax & HP).
        destruct (vfStep_binary pow nk nz eta beta alpha delta K Zg Q V0
                    hx Hnk V G) as (khi' & v' & g' & Hkhi' & Hmax' & HQ).
        rewrite Hkhi in Hkhi'. injection Hkhi' as <-.
        fold j in Hmax, Hmax'.
        rewrite (binary_max_ext pow 0 (khi - 0 + 1) nk nz _ eta beta K
                   (ptr_add P j) (ptr_add Q j) (ptr_add V0 0)
                   (ptr_add V0 0) Hobj) in Hmax.
        rewrite Hmax in Hmax'. injection Hmax' as <- <-.
        do 4 eexists. split; [exact HP|]. split; [exact HQ|].
        now rewrite !store_same.
      * do 4 eexists.
        split; [now apply vfStep_other|]. split; [now apply vfStep_other|].
        split; reflexivity.
Qed.

(** ** Sums computed by accumulation loops *)

Lemma sum_loop_linear (f g : Z -> REAL) (a b : REAL) (n : Z) :
  a * for_loop 0 n (fun m s => s + f m) 0
  + b * for_loop 0 n (fun m s => s + g m) 0
  = for_loop 0 n (fun m s => s + (a * f m + b * g m)) 0.
Proof.
  destruct (Z_le_gt_dec 0 n) as [Hn|Hn].
  - apply (for_loop_inv
             (fun i s => a * for_loop 0 i (fun m s => s + f m) 0
                         + b * for_loop 0 i (fun m s => s + g m) 0 = s));
      [assumption | |].
    + rewrite !for_loop_empty by lia. lra.
    + intros i t Hi <-. rewrite !for_loop_snoc by lia. lra.
  - rewrite !for_loop_empty by lia. lra.
Qed.

Lemma sum_loop_scal (f : Z -> REAL) (a : REAL) (n : Z) :
  a * for_loop 0 n (fun m s => s + f m) 0
  = for_loop 0 n (fun m s => s + a * f m) 0.
Proof.
  destruct (Z_le_gt_dec 0 n) as [Hn|Hn].
  - apply (for_loop_inv
             (fun i s => a * for_loop 0 i (fun m s => s + f m) 0 = s));
      [assumption | |].
    + rewrite for_loop_empty by lia. lra.
    + intros i t Hi <-. rewrite for_loop_snoc by lia. lra.
  - rewrite !for_loop_empty by lia. lra.
Qed.

Lemma sum_loop_nonpos (h : Z -> REAL) (n : Z) :
  (forall m : Z, (0 <= m < n)%Z -> h m <= 0) ->
  for_loop 0 n (fun m s => s + h m) 0 <= 0.
Proof.
  intros Hh. destruct (Z_le_gt_dec 0 n) as [Hn|Hn].
  - apply (for_loop_inv (fun (_ : Z) (s : REAL) => s <= 0));
      [assumption | lra |].
    intros i t Hi Ht. specialize (Hh i Hi). lra.
  - rewrite for_loop_empty by lia. lra.
Qed.

Lemma sum_loop_neg (h : Z -> REAL) (n : Z) :
  (forall m : Z, (0 <= m < n)%Z -> h m <= 0) ->
  (exists m : Z, (0 <= m < n)%Z /\ h m < 0) ->
  for_loop 0 n (fun m s => s + h m) 0 < 0.
Proof.
  intros Hh (m0 & Hm0 & Hneg).
  assert (H : for_loop 0 n (fun m s => s + h m) 0 <= 0 /\
              ((m0 < n)%Z -> for_loop 0 n (fun m s => s + h m) 0 < 0)).
  { apply (for_loop_inv
             (fun (i : Z) (s : REAL) => s <= 0 /\ ((m0 < i)%Z -> s < 0)));
      [lia | split; [lra | lia] |].
    intros i t Hi [Ht Hstrict]. specialize (Hh i Hi). split; [lra|].
    intros Hlt. destruct (Z.eq_dec m0 i) as [->|Hne]; [lra|].
    specialize (Hstrict ltac:(lia)). lra. }
  apply H. lia.
Qed.

(** A distribution gives positive weight to some index. *)
Lemma distribution_positive (nz : Z) (p : array) :
  distribution nz p -> exists m : Z, (0 <= m < nz)%Z /\ 0 < p m.
Proof.
  intros [Hpos Hsum].
  destruct (Z_le_gt_dec 0 nz) as [Hn|Hn];
    [|rewrite for_loop_empty in Hsum by lia; lra].
  assert (H : 0 < for_loop 0 nz (fun m s => s + p m) 0 ->
              exists m : Z, (0 <= m < nz)%Z /\ 0 < p m); [|apply H; lra].
  apply (for_loop_inv
           (fun (i : Z) (s : REAL) =>
              0 < s -> exists m : Z, (0 <= m < i)%Z /\ 0 < p m));
    [assumption | lra | ].
  intros i t Hi Ht Hs.
  destruct (Rlt_dec 0 (p i)) as [Hp|Hp].
  - exists i. split; [lia | assumption].
  - destruct Ht as (m & Hm & Hpm); [specialize (Hpos i Hi); lra|].
    exists m. split; [lia | assumption].
Qed.

(** ** Concavity and single-peakedness *)

Lemma strictly_concave_single_peaked (n : Z) (K f : array) :
  increasing n K -> strictly_concave n K f -> single_peaked n f.
Proof.
  intros Hinc Hsc.
  assert (HdK : forall l : Z, (0 <= l)%Z -> (l + 1 < n)%Z ->
                  0 < K (l + 1)%Z - K l).
  { intros l Hl Hl'. pose proof (Hinc l (l + 1)%Z ltac:(lia) Hl'). lra. }
  assert (Hleft : forall m : Z, (0 < m)%Z -> (m + 1 < n)%Z ->
                    f m < f (m + 1)%Z -> f (m - 1)%Z < f m).
  { intros m Hm Hm' Hup.
    pose proof (Hsc m Hm Hm') as Hc.
    pose proof (HdK m ltac:(lia) Hm') as Hb.
    pose proof (HdK (m - 1)%Z ltac:(lia) ltac:(lia)) as Ha.
    replace (m - 1 + 1)%Z with m in Ha by lia. nra. }
  assert (Hright : forall m : Z, (0 <= m)%Z -> (m + 2 < n)%Z ->
                     f (m + 1)%Z <= f m -> f (m + 2)%Z < f (m + 1)%Z).
  { intros m Hm Hm' Hdown.
    pose proof (Hsc (m + 1)%Z ltac:(lia) ltac:(lia)) as Hc.
    pose proof (HdK m Hm ltac:(lia)) as Ha.
    pose proof (HdK (m + 1)%Z ltac:(lia) ltac:(lia)) as Hb.
    replace (m + 1 + 1)%Z with (m + 2)%Z in * by lia.
    replace (m + 1 - 1)%Z with m in Hc by lia. nra. }
  assert (Hrise : forall (d : nat) (m : Z),
            (0 <= m)%Z -> (m + 1 < n)%Z -> f m < f (m + 1)%Z ->
            forall i : Z, (0 <= i < m)%Z -> (m - i <= Z.of_nat d)%Z ->
              f i < f m).
  { induction d as [|d IH]; intros m Hm Hm' Hup i Hi Hd; [lia|].
    pose proof (Hleft m ltac:(lia) Hm' Hup) as Hstep.
    destruct (Z.eq_dec i (m - 1)) as [->|Hne]; [assumption|].
    apply Rlt_trans with (f (m - 1)%Z); [|assumption].
    apply IH; try lia. now replace (m - 1 + 1)%Z with m by lia. }
  assert (Hfall : forall (d : nat) (m : Z),
            (0 <= m)%Z -> (m + 1 < n)%Z -> f (m + 1)%Z <= f m ->
            forall i : Z, (m + 1 < i < n)%Z -> (i - m <= Z.of_nat d)%Z ->
              f i < f (m + 1)%Z).
  { induction d as [|d IH]; intros m Hm Hm' Hdown i Hi Hd; [lia|].
    pose proof (Hright m Hm ltac:(lia) Hdown) as Hstep.
    destruct (Z.eq_dec i (m + 2)) as [->|Hne]; [assumption|].
    apply Rlt_trans with (f (m + 2)%Z); [|assumption].
    replace (m + 2)%Z with (m + 1 + 1)%Z in * by lia.
    apply IH; try lia. lra. }
  intros m Hm Hm'. split.
  - intros Hup i Hi. apply (Hrise (Z.to_nat (m - i)) m); auto; lia.
  - intros Hdown i Hi. apply (Hfall (Z.to_nat (i - m)) m); auto; lia.
Qed.

(** ** Agreement of the two maximisers under concavity *)

Section Agreement.

Variable pow : REAL -> REAL -> REAL.
Variables klo nksub nk nz : Z.
Variables ydepK eta beta : REAL.
Variables K P V0 : array.

Let w : Z -> REAL := objective pow klo nk nz ydepK eta beta K P V0.

Hypothesis HK : increasing nksub (ptr_add K klo).
Hypothesis Hbeta : 0 < beta.
Hypothesis HP : distribution nz (fun m => P (m * nz)%Z).
Hypothesis HU :
  concave nksub (ptr_add K klo)
    (fun l => pow (ydepK - K (klo + l)%Z) (1 - eta) / (1 - eta)).
Hypothesis HV :
  forall m : Z, (0 <= m < nz)%Z ->
    strictly_concave nksub (ptr_add K klo) (fun l => V0 (l + m * nk)%Z).

Lemma expect_second_difference (a b : REAL) (l : Z) :
  a * expect nz nk P V0 (l + 1) - (a + b) * expect nz nk P V0 l
  + b * expect nz nk P V0 (l - 1)
  = for_loop 0 nz
      (fun m s =>
         s + P (m * nz)%Z
             * (a * V0 (l + 1 + m * nk)%Z - (a + b) * V0 (l + m * nk)%Z
                + b * V0 (l - 1 + m * nk)%Z)) 0.
Proof.
  unfold expect. destruct (Z_le_gt_dec 0 nz) as [Hn|Hn].
  - apply (for_loop_inv
      (fun i s =>
         a * for_loop 0 i
               (fun m s => s + P (m * nz)%Z * V0 (l + 1 + m * nk)%Z) 0
         - (a + b) * for_loop 0 i
               (fun m s => s + P (m * nz)%Z * V0 (l + m * nk)%Z) 0
         + b * for_loop 0 i
               (fun m s => s + P (m * nz)%Z * V0 (l - 1 + m * nk)%Z) 0
         = s)); [assumption | |].
    + rewrite !for_loop_empty by lia. lra.
    + intros i t Hi <-. rewrite !for_loop_snoc by lia. lra.
  - rewrite !for_loop_empty by lia. lra.
Qed.

(** The objective inherits strict concavity in capital from the columns
    of [V0]. *)
Lemma objective_strictly_concave :
  strictly_concave nksub (ptr_add K klo) w.
Proof.
  intros l Hl Hl'.
  pose proof (HK (l - 1)%Z l ltac:(lia) ltac:(lia)) as Ha.
  pose proof (HK l (l + 1)%Z ltac:(lia) ltac:(lia)) as Hb.
  pose proof (HU l Hl Hl') as Hu. cbv beta in Hu.
  unfold ptr_add in *.
  set (a := K (klo + l)%Z - K (klo + (l - 1))%Z) in *.
  set (b := K (klo + (l + 1))%Z - K (klo + l)%Z) in *.
  assert (HE : a * expect nz nk P V0 (l + 1)
               - (a + b) * expect nz nk P V0 l
               + b * expect nz nk P V0 (l - 1) < 0).
  { rewrite expect_second_difference.
    destruct HP as [Hpos Hsum].
    assert (Hterm : forall m : Z, (0 <= m < nz)%Z ->
              a * V0 (l + 1 + m * nk)%Z - (a + b) * V0 (l + m * nk)%Z
              + b * V0 (l - 1 + m * nk)%Z < 0).
    { intros m Hm. pose proof (HV m Hm l Hl Hl') as Hc.
      cbv beta in Hc. unfold ptr_add in Hc. fold a b in Hc. lra. }
    apply sum_loop_neg.
    - intros m Hm. specialize (Hpos m Hm). specialize (Hterm m Hm).
      cbv beta in Hpos. nra.
    - destruct (distribution_positive _ _ HP) as (m & Hm & Hpm).
      exists m. split; [assumption|]. specialize (Hterm m Hm).
      cbv beta in Hpm. nra. }
  unfold w, objective.
  set (E1 := expect nz nk P V0 (l + 1)) in *.
  set (E0 := expect nz nk P V0 l) in *.
  set (E2 := expect nz nk P V0 (l - 1)) in *.
  nra.
Qed.

Lemma objective_single_peaked : single_peaked nksub w.
Proof.
  apply strictly_concave_single_peaked with (K := ptr_add K klo);
    [exact HK | exact objective_strictly_concave].
Qed.

(** Both maximisers write the maximum of the objective over the
    bracket; bisection writes an index that attains it, the same index
    as grid search when no other candidate attains the maximum. *)
Lemma maximisers_agree_on_value :
  (1 <= nksub)%Z ->
  exists (gg gb : Z),
    grid_max pow klo nksub nk nz ydepK eta beta K P V0
    = (w gg, IZR (klo + gg)) /\
    binary_max pow klo nksub nk nz ydepK eta beta K P V0
    = Some (w gb, IZR (klo + gb)) /\
    (0 <= gg < nksub)%Z /\ (0 <= gb < nksub)%Z /\
    w gb = w gg /\
    (forall k : Z, (0 <= k < nksub)%Z -> w k <= w gg) /\
    ((forall k : Z, (0 <= k < nksub)%Z -> k <> gg -> w k < w gg) ->
     gb = gg).
Proof.
  intros Hn.
  destruct (grid_max_post pow klo nk nz ydepK eta beta K P V0 nksub Hn)
    as (gg & Hgg & Hrg & Hmaxg & _).
  destruct (binary_max_post pow klo nk nz ydepK eta beta K P V0 nksub Hn
              objective_single_peaked) as (gb & Hgb & Hrb & Hmaxb).
  fold w in Hgg, Hgb, Hmaxg, Hmaxb.
  exists gg, gb. repeat split; try assumption; try lia.
  - apply Rle_antisym; [apply Hmaxg | apply Hmaxb]; assumption.
  - intros Huniq. destruct (Z.eq_dec gb gg) as [Heq|Hne]; [assumption|].
    specialize (Huniq gb Hrb Hne). specialize (Hmaxb gg Hrg). lra.
Qed.

End Agreement.

(** ** Concavity of the CRRA utility *)

Lemma Rpower_antitone (x y e : R) :
  e < 0 -> 0 < x <= y -> Rpower y e <= Rpower x e.
Proof.
  intros He Hxy.
  assert (Hinv : Rpower x (- e) <= Rpower y (- e))
    by (apply Rle_Rpower_l; lra).
  rewrite !Rpower_Ropp in Hinv.
  assert (Hx : 0 < Rpower x e) by apply exp_pos.
  assert (Hy : 0 < Rpower y e) by apply exp_pos.
  destruct (Rle_or_lt (Rpower y e) (Rpower x e)) as [Hle|Hlt];
    [assumption|].
  apply Rinv_lt_contravar in Hlt; [lra | now apply Rmult_lt_0_compat].
Qed.

(** The marginal utility of [u(c) = c^(1-eta)/(1-eta)] is [c^(-eta)]. *)
Lemma crra_derivative (eta c : R) :
  eta <> 1 -> 0 < c ->
  derivable_pt_lim (fun x => Rpower x (1 - eta) / (1 - eta)) c
    (Rpower c (- eta)).
Proof.
  intros Heta Hc.
  replace (Rpower c (- eta))
    with ((1 - eta) * Rpower c (1 - eta - 1) / (1 - eta)).
  - apply derivable_pt_lim_div_scal. now apply derivable_pt_lim_power.
  - replace (1 - eta - 1) with (- eta) by lra. field. lra.
Qed.

(** For [eta >= 0] the slopes of [u] decrease. *)
Lemma crra_slopes (eta a b c : R) :
  0 <= eta -> eta <> 1 -> 0 < a < b -> b < c ->
  let u := fun x => Rpower x (1 - eta) / (1 - eta) in
  (u c - u b) * (b - a) <= (u b - u a) * (c - b).
Proof.
  intros Heta Hne Hab Hbc u.
  destruct (MVT_cor2 u (fun x => Rpower x (- eta)) a b) as (x1 & H1 & Hx1);
    [lra | intros x Hx; apply crra_derivative; lra |].
  destruct (MVT_cor2 u (fun x => Rpower x (- eta)) b c) as (x2 & H2 & Hx2);
    [lra | intros x Hx; apply crra_derivative; lra |].
  assert (Hslope : Rpower x2 (- eta) <= Rpower x1 (- eta)).
  { destruct (Req_dec_T eta 0) as [->|Hpos].
    - rewrite Ropp_0, !Rpower_O by lra. lra.
    - apply Rpower_antitone; lra. }
  rewrite H1, H2.
  assert (0 < (b - a) * (c - b)) by nra. nra.
Qed.

(** So the utility term of the objective is concave in capital over a
    bracket on which the grid increases and consumption is positive. *)
Lemma crra_concave_on_bracket (pow : REAL -> REAL -> REAL)
  (klo nksub : Z) (ydepK eta : REAL) (K : array) :
  (forall x y : REAL, 0 < x -> pow x y = Rpower x y) ->
  0 <= eta -> eta <> 1 ->
  increasing nksub (ptr_add K klo) ->
  (forall l : Z, (0 <= l < nksub)%Z -> K (klo + l)%Z < ydepK) ->
  concave nksub (ptr_add K klo)
    (fun l => pow (ydepK - K (klo + l)%Z) (1 - eta) / (1 - eta)).
Proof.
  intros Hpow Heta Hne HK Hpos l Hl Hl'. cbv beta. unfold ptr_add.
  pose proof (HK (l - 1)%Z l ltac:(lia) ltac:(lia)) as Ha.
  pose proof (HK l (l + 1)%Z ltac:(lia) ltac:(lia)) as Hb.
  unfold ptr_add in Ha, Hb.
  pose proof (Hpos (l + 1)%Z ltac:(lia)) as Hc.
  rewrite !Hpow by lra.
  pose proof (crra_slopes eta (ydepK - K (klo + (l + 1))%Z)
                (ydepK - K (klo + l)%Z) (ydepK - K (klo + (l - 1))%Z)
                Heta Hne ltac:(lra) ltac:(lra)) as Hs.
  cbv zeta beta in Hs.
  replace (ydepK - K (klo + l)%Z - (ydepK - K (klo + (l + 1))%Z))
    with (K (klo + (l + 1))%Z - K (klo + l)%Z) in Hs by lra.
  replace (ydepK - K (klo + (l - 1))%Z - (ydepK - K (klo + l)%Z))
    with (K (klo + l)%Z - K (klo + (l - 1))%Z) in Hs by lra.
  lra.
Qed.

(** With the CRRA utility of a risk aversion [eta >= 0], on a bracket with
    positive consumption, strict concavity of [V0] in capital is all the
    maximisers need. *)
Lemma maximisers_agree_for_crra (pow : REAL -> REAL -> REAL)
  (klo nksub nk nz : Z) (ydepK eta beta : REAL) (K P V0 : array) :
  (forall x y : REAL, 0 < x -> pow x y = Rpower x y) ->
  (1 <= nksub)%Z -> 0 <= eta -> eta <> 1 -> 0 < beta ->
  increasing nksub (ptr_add K klo) ->
  (forall l : Z, (0 <= l < nksub)%Z -> K (klo + l)%Z < ydepK) ->
  distribution nz (fun m => P (m * nz)%Z) ->
  (forall m : Z, (0 <= m < nz)%Z ->
     strictly_concave nksub (ptr_add K klo) (fun l => V0 (l + m * nk)%Z)) ->
  let w := objective pow klo nk nz ydepK eta beta K P V0 in
  exists gg gb : Z,
    grid_max pow klo nksub nk nz ydepK eta beta K P V0
    = (w gg, IZR (klo + gg)) /\
    binary_max pow klo nksub nk nz ydepK eta beta K P V0
    = Some (w gb, IZR (klo + gb)) /\
    (0 <= gg < nksub)%Z /\ (0 <= gb < nksub)%Z /\
    w gb = w gg /\
    (forall k : Z, (0 <= k < nksub)%Z -> w k <= w gg) /\
    ((forall k : Z, (0 <= k < nksub)%Z -> k <> gg -> w k < w gg) ->
     gb = gg).
Proof.
  intros Hpow Hn Heta Hne Hbeta HK Hpos HP HV w.
  apply maximisers_agree_on_value; try assumption.
  now apply crra_concave_on_bracket.
Qed.

(** ** The transition matrix of [transMat] *)

Section TransMat.

Variable pow : REAL -> REAL -> REAL.
Variables erf log : REAL -> REAL.
Variable nz : Z.
Variables mu sigma rho : REAL.
Variables Zg P : array.
Variable ix : Z.
Hypothesis Hnz : (2 <= nz)%Z.

Let q : Z -> REAL := tauchen pow erf log nz mu sigma rho Zg ix.
Let P' : array := transMat pow erf log nz mu sigma rho Zg P ix.
Let last : Z := (ix + nz * (nz - 1))%Z.

(** One application of the functor: the columns before the last hold
    the normal-CDF masses, the last column holds one minus their sum,
    and no cell outside row [ix] changes. *)
Lemma transMat_post :
  (forall jx : Z, (0 <= jx < nz - 1)%Z -> P' (ix + jx * nz)%Z = q jx) /\
  P' last = 1 - for_loop 0 (nz - 1) (fun jx s => s + q jx) 0 /\
  (forall c : Z,
      (forall jx : Z, (0 <= jx < nz)%Z -> c <> (ix + jx * nz)%Z) ->
      P' c = P c).
Proof.
  pose (Inv := fun (j : Z) (A : array) =>
    (forall jx : Z, (0 <= jx < j)%Z -> A (ix + jx * nz)%Z = q jx) /\
    A last = 1 - for_loop 0 j (fun jx s => s + q jx) 0 /\
    (forall c : Z,
        (forall jx : Z, (0 <= jx < nz)%Z -> c <> (ix + jx * nz)%Z) ->
        A c = P c)).
  assert (Hlast : forall jx : Z, (0 <= jx < nz - 1)%Z ->
                    (ix + jx * nz)%Z <> last) by (unfold last; nia).
  assert (Hcell : last = (ix + (nz - 1) * nz)%Z) by (unfold last; lia).
  assert (HInv : Inv (nz - 1)%Z P'); [|exact HInv].
  unfold P', transMat. apply for_loop_inv; [lia | |].
  - repeat split.
    + intros jx Hjx. assert (jx = 0%Z) as -> by lia.
      rewrite store_other by (apply Hlast; lia).
      replace (ix + 0 * nz)%Z with ix by lia. rewrite store_same.
      unfold q, tauchen. simpl. reflexivity.
    + fold last. rewrite store_same, store_same.
      unfold for_loop, q, tauchen. simpl. lra.
    + intros c Hc. rewrite !store_other; [reflexivity | |].
      * specialize (Hc 0%Z ltac:(lia)). lia.
      * specialize (Hc (nz - 1)%Z ltac:(lia)). lia.
  - intros j A Hj (Hcols & Hsum & Hframe). fold last. repeat split.
    + intros jx Hjx. rewrite store_other by (apply Hlast; lia).
      destruct (Z.eq_dec jx j) as [->|Hne].
      * rewrite store_same. unfold q, tauchen.
        destruct (Z.eqb_spec j 0) as [H0|_]; [lia | reflexivity].
      * rewrite store_other by nia. apply Hcols. lia.
    + rewrite store_same, store_same.
      rewrite store_other by (apply not_eq_sym, Hlast; lia).
      rewrite Hsum, for_loop_snoc by lia.
      unfold q at 3, tauchen.
      destruct (Z.eqb_spec j 0) as [H0|_]; [lia | lra].
    + intros c Hc. rewrite !store_other; [now apply Hframe | |].
      * specialize (Hc j ltac:(lia)). lia.
      * specialize (Hc (nz - 1)%Z ltac:(lia)). lia.
Qed.

(** The row that [transMat] fills sums to one. *)
Lemma transMat_row_sum : row_sum nz P' ix = 1.
Proof.
  destruct transMat_post as (Hcols & Hsum & _).
  unfold row_sum. replace nz with (nz - 1 + 1)%Z at 1 by lia.
  rewrite for_loop_snoc by lia.
  rewrite (for_loop_ext 0 (nz - 1) _ (fun jx s => s + q jx))
    by (intros i t Hi; now rewrite Hcols).
  replace (ix + (nz - 1) * nz)%Z with last by (unfold last; lia).
  rewrite Hsum. lra.
Qed.

(** The rows of the other origin indices keep their sums. *)
Lemma transMat_other_row (i : Z) :
  (0 <= ix < nz)%Z -> (0 <= i < nz)%Z -> i <> ix ->
  row_sum nz P' i = row_sum nz P i.
Proof.
  intros Hix Hi Hne.
  destruct transMat_post as (_ & _ & Hframe).
  unfold row_sum. apply for_loop_ext. intros j t Hj.
  rewrite Hframe; [reflexivity|].
  intros jx Hjx Heq.
  assert (Hmod : ((i + j * nz) mod nz = (ix + jx * nz) mod nz)%Z)
    by now rewrite Heq.
  rewrite !Z.mod_add, !Z.mod_small in Hmod by lia. contradiction.
Qed.

(** The last column as the functor computes it: one minus the first
    column, less the other columns one after the other. *)
Lemma transMat_last_column :
  P' last = for_loop 1 (nz - 1) (fun jx s => s - q jx) (1 - q 0%Z).
Proof.
  assert (Hlast : forall jx : Z, (0 <= jx < nz - 1)%Z ->
                    (ix + jx * nz)%Z <> last) by (unfold last; nia).
  unfold P', transMat.
  apply (for_loop_inv
           (fun (j : Z) (A : array) =>
              A last = for_loop 1 j (fun jx s => s - q jx) (1 - q 0%Z)));
    [lia | |].
  - fold last. rewrite for_loop_empty by lia.
    rewrite !store_same. unfold q, tauchen. simpl. reflexivity.
  - intros j A Hj HA. fold last.
    rewrite store_same, store_same.
    rewrite store_other by (apply not_eq_sym, Hlast; lia).
    rewrite HA, for_loop_snoc by lia. f_equal.
    unfold q, tauchen.
    destruct (Z.eqb_spec j 0) as [H0|_]; [lia | reflexivity].
Qed.

End TransMat.

(** The row that [transMat] fills holds the transition probabilities,
    whatever the buffer held before. *)
Lemma transMat_row (pow : REAL -> REAL -> REAL) (erf log : REAL -> REAL)
  (nz : Z) (mu sigma rho : REAL) (Zg P : array) (ix j : Z) :
  (2 <= nz)%Z -> (0 <= j < nz)%Z ->
  transMat pow erf log nz mu sigma rho Zg P ix (ix + j * nz)%Z
  = transition_prob pow erf log nz mu sigma rho Zg ix j.
Proof.
  intros Hnz Hj.
  destruct (transMat_post pow erf log nz mu sigma rho Zg P ix Hnz)
    as (Hcols & _ & _).
  unfold transition_prob.
  destruct (Z.ltb_spec j (nz - 1)) as [Hlt|Hge].
  - apply Hcols. lia.
  - assert (j = (nz - 1)%Z) as -> by lia.
    replace (ix + (nz - 1) * nz)%Z with (ix + nz * (nz - 1))%Z by lia.
    now apply transMat_last_column.
Qed.

(** The cells of the other rows are not written. *)
Lemma transMat_other_cells (pow : REAL -> REAL -> REAL)
  (erf log : REAL -> REAL) (nz : Z) (mu sigma rho : REAL) (Zg P : array)
  (ix i j : Z) :
  (2 <= nz)%Z -> (0 <= ix < nz)%Z -> (0 <= i < nz)%Z -> i <> ix ->
  transMat pow erf log nz mu sigma rho Zg P ix (i + j * nz)%Z
  = P (i + j * nz)%Z.
Proof.
  intros Hnz Hix Hi Hne.
  destruct (transMat_post pow erf log nz mu sigma rho Zg P ix Hnz)
    as (_ & _ & Hframe).
  apply Hframe. intros jx Hjx Heq.
  assert (Hmod : ((i + j * nz) mod nz = (ix + jx * nz) mod nz)%Z)
    by now rewrite Heq.
  rewrite !Z.mod_add, !Z.mod_small in Hmod by lia. contradiction.
Qed.

(** ** The transition matrix of [ar1] *)

(** [ar1] writes the first column of row [ix] at [P[ix*nz]] (not at
    [P[ix]], where [transMat] writes it): for [nz >= 2] the cell [P[1]],
    the first column of row 1, is never written. *)
Lemma ar1_skips_cell_one (pow : REAL -> REAL -> REAL)
  (erf log exp sqrt : REAL -> REAL) (nz : Z) (mu rho sigma lambda : REAL)
  (Zg P : array) :
  (2 <= nz)%Z ->
  snd (ar1 pow erf log exp sqrt nz mu rho sigma lambda Zg P) 1%Z = P 1%Z.
Proof.
  intros Hnz. unfold ar1. cbv zeta. simpl snd.
  apply (for_loop_inv (fun (_ : Z) (A : array) => A 1%Z = P 1%Z));
    [lia | reflexivity |].
  intros ix A Hix HA.
  assert (Hfirst : 1%Z <> (ix * nz)%Z) by (destruct (Z.eq_dec ix 0); nia).
  assert (Hlast : 1%Z <> (ix + nz * (nz - 1))%Z) by nia.
  apply (for_loop_inv (fun (_ : Z) (B : array) => B 1%Z = P 1%Z)); [lia | |].
  - now rewrite !store_other.
  - intros jx B Hjx HB.
    assert (Hmid : 1%Z <> (ix + nz * jx)%Z) by nia.
    now rewrite !store_other.
Qed.

(** ** The capital grid of [kGrid] *)

Section CapitalGrid.

Variable pow : REAL -> REAL -> REAL.
Hypothesis pow_positive_base :
  forall x y : REAL, 0 < x -> pow x y = Rpower x y.

Variables nk nz : Z.
Variables beta alpha delta : REAL.
Variable Zg : array.

Hypothesis Hnk : (2 <= nk)%Z.
Hypothesis Hnz : (1 <= nz)%Z.
Hypothesis Halpha : 0 < alpha < 1.
Hypothesis Hbeta : 0 < beta < 1.
Hypothesis Hdelta : 0 < 1 / beta - 1 + delta.
Hypothesis HZinc : increasing nz Zg.
Hypothesis HZpos : positive nz Zg.

Let Kf : array := kGrid pow nk nz beta alpha delta Zg.

Lemma base_positive (z : REAL) :
  0 < z -> 0 < (1 / (alpha * z)) * (1 / beta - 1 + delta).
Proof.
  intros Hz. apply Rmult_lt_0_compat; [|assumption].
  apply Rdiv_lt_0_compat; [lra | nra].
Qed.

Lemma kstar_positive (z : REAL) : 0 < kstar alpha beta delta z.
Proof. apply exp_pos. Qed.

Lemma kstar_monotone (z1 z2 : REAL) :
  0 < z1 <= z2 -> kstar alpha beta delta z1 <= kstar alpha beta delta z2.
Proof.
  intros Hz. unfold kstar. apply Rpower_antitone.
  - assert (H : alpha - 1 < 0) by lra.
    unfold Rdiv. rewrite Rmult_1_l. now apply Rinv_lt_0_compat.
  - split; [apply base_positive; lra|].
    apply Rmult_le_compat_r; [lra|].
    unfold Rdiv. rewrite !Rmult_1_l.
    apply Rinv_le_contravar; nra.
Qed.

Lemma grid_ends :
  Kf 0%Z = 0.95 * kstar alpha beta delta (Zg 0%Z) /\
  Kf (nk - 1)%Z = 1.05 * kstar alpha beta delta (Zg (nz - 1)%Z).
Proof.
  assert (H0 : 0 < Zg 0%Z) by (apply HZpos; lia).
  assert (H1 : 0 < Zg (nz - 1)%Z) by (apply HZpos; lia).
  assert (Hn : IZR (nk - 1) <> 0) by (apply not_0_IZR; lia).
  unfold Kf, kGrid, kstar.
  rewrite !pow_positive_base by (apply base_positive; assumption).
  split; [simpl; lra | field; assumption].
Qed.

Lemma grid_step_positive : 0 < (Kf (nk - 1)%Z - Kf 0%Z) / IZR (nk - 1).
Proof.
  destruct grid_ends as [-> ->].
  assert (H0 : 0 < Zg 0%Z) by (apply HZpos; lia).
  assert (Hle : Zg 0%Z <= Zg (nz - 1)%Z).
  { destruct (Z.eq_dec nz 1) as [->|Hne]; [simpl; lra|].
    left. apply HZinc; lia. }
  pose proof (kstar_monotone _ _ (conj H0 Hle)) as Hmono.
  pose proof (kstar_positive (Zg 0%Z)) as Hpos.
  apply Rdiv_lt_0_compat; [lra | apply IZR_lt; lia].
Qed.

Lemma grid_affine (i : Z) :
  Kf i = Kf 0%Z + (Kf (nk - 1)%Z - Kf 0%Z) / IZR (nk - 1) * IZR i.
Proof.
  assert (Hn : IZR (nk - 1) <> 0) by (apply not_0_IZR; lia).
  unfold Kf, kGrid. simpl. field. assumption.
Qed.

Lemma grid_increasing : increasing nk Kf.
Proof.
  intros i j Hij Hj. rewrite (grid_affine i), (grid_affine j).
  pose proof grid_step_positive as Hstep.
  assert (Hlt : IZR i < IZR j) by (apply IZR_lt; lia). nra.
Qed.

Lemma grid_positive : positive nk Kf.
Proof.
  intros i Hi. rewrite (grid_affine i).
  pose proof grid_step_positive as Hstep.
  destruct grid_ends as [H0 _].
  pose proof (kstar_positive (Zg 0%Z)) as Hk0.
  assert (Hge : 0 <= IZR i) by (apply IZR_le; lia). nra.
Qed.

End CapitalGrid.

(** ** The bracket on the grid of [kGrid] *)

Lemma Rpower_small_base (x a b : R) :
  0 < x < 1 -> a <= b -> Rpower x b <= Rpower x a.
Proof.
  intros Hx Hab. unfold Rpower.
  assert (Hln : ln x < 0) by (rewrite <- ln_1; apply ln_increasing; lra).
  destruct (Req_dec_T a b) as [->|Hne]; [lra|].
  left. apply exp_increasing. nra.
Qed.

Section GridFeasible.

Variable pow : REAL -> REAL -> REAL.
Hypothesis pow_positive_base :
  forall x y : REAL, 0 < x -> pow x y = Rpower x y.

Variables nk nz : Z.
Variables beta alpha delta : REAL.
Variables Zg K : array.

Hypothesis Hnk : (2 <= nk)%Z.
Hypothesis Hnz : (1 <= nz)%Z.
Hypothesis Halpha : 0 < alpha < 1.
Hypothesis Hbeta : 0 < beta < 1.
Hypothesis Hdelta : 0 <= delta <= 1.
Hypothesis HZinc : increasing nz Zg.
Hypothesis HZpos : positive nz Zg.
Hypothesis HK :
  forall i : Z, (0 <= i < nk)%Z -> K i = kGrid pow nk nz beta alpha delta Zg i.

Lemma inverse_discount_above_one : 1 < 1 / beta.
Proof.
  unfold Rdiv. rewrite Rmult_1_l. rewrite <- Rinv_1 at 1.
  apply Rinv_lt_contravar; lra.
Qed.

Lemma steady_state_base_positive : 0 < 1 / beta - 1 + delta.
Proof. pose proof inverse_discount_above_one. lra. Qed.

Lemma built_grid_increasing : increasing nk K.
Proof.
  intros i j Hij Hj. rewrite !HK by lia.
  apply (grid_increasing pow pow_positive_base nk nz beta alpha delta Zg);
    try assumption; try lia.
  exact steady_state_base_positive.
Qed.

Lemma built_grid_positive : positive nk K.
Proof.
  intros i Hi. rewrite HK by lia.
  apply (grid_positive pow pow_positive_base nk nz beta alpha delta Zg);
    try assumption.
  exact steady_state_base_positive.
Qed.

(** At the first grid point production exceeds depreciation: the grid
    starts below the steady state of the lowest productivity. *)
Lemma production_covers_depreciation :
  delta * K 0%Z < Zg 0%Z * Rpower (K 0%Z) alpha.
Proof.
  pose proof steady_state_base_positive as Hc.
  pose proof inverse_discount_above_one as Hd.
  assert (Hz : 0 < Zg 0%Z) by (apply HZpos; lia).
  destruct (grid_ends pow pow_positive_base nk nz beta alpha delta Zg)
    as [H0 _]; try assumption.
  rewrite HK, H0 by lia. unfold kstar.
  set (b := 1 / (alpha * Zg 0%Z) * (1 / beta - 1 + delta)).
  set (e := 1 / (alpha - 1)).
  assert (Hb : 0 < b) by (apply base_positive; assumption).
  assert (Hks : 0 < Rpower b e) by apply exp_pos.
  rewrite <- Rpower_mult_distr by lra.
  rewrite Rpower_mult.
  replace (e * alpha) with (e + 1) by (unfold e; field; lra).
  rewrite Rpower_plus, Rpower_1 by assumption.
  assert (H95 : 0.95 <= Rpower 0.95 alpha).
  { rewrite <- (Rpower_1 0.95) at 1 by lra.
    apply Rpower_small_base; lra. }
  assert (Hzb : Zg 0%Z * b = (1 / beta - 1 + delta) / alpha)
    by (unfold b; field; lra).
  assert (Hca : 1 / beta - 1 + delta < (1 / beta - 1 + delta) / alpha).
  { apply Rmult_lt_reg_r with alpha; [lra|].
    unfold Rdiv. rewrite Rmult_assoc, Rinv_l by lra. nra. }
  replace (Zg 0%Z * (Rpower 0.95 alpha * (Rpower b e * b)))
    with (Rpower 0.95 alpha * Rpower b e * (Zg 0%Z * b)) by ring.
  rewrite Hzb.
  set (ca := (1 / beta - 1 + delta) / alpha) in *.
  assert (Hmul : 0.95 * Rpower b e * delta
                 < Rpower 0.95 alpha * Rpower b e * ca).
  { apply Rle_lt_trans with (Rpower 0.95 alpha * Rpower b e * delta).
    - apply Rmult_le_compat_r; [lra|]. apply Rmult_le_compat_r; lra.
    - apply Rmult_lt_compat_l; [|lra].
      apply Rmult_lt_0_compat; lra. }
  lra.
Qed.

(** On the grid that [kGrid] builds, the resources of every state exceed
    the first grid point: the bracket of [vfStep] is never empty. *)
Lemma resources_reach_grid (hx : Z) :
  (0 <= hx < nk * nz)%Z ->
  K 0%Z < ydepK_at pow nk alpha delta K Zg hx.
Proof.
  intros Hhx. unfold ydepK_at, resources.
  assert (Hix : (0 <= Z.rem hx nk < nk)%Z) by (apply Z.rem_bound_pos; lia).
  set (ix := Z.rem hx nk) in *.
  assert (Hjx : (0 <= (hx - ix) ÷ nk < nz)%Z).
  { pose proof (Z.quot_rem' hx nk) as Hq. fold ix in Hq.
    replace (hx - ix)%Z with (hx ÷ nk * nk)%Z by lia.
    rewrite Z.quot_mul by lia.
    rewrite Z.quot_div_nonneg by lia.
    split; [apply Z.div_pos; lia | apply Z.div_lt_upper_bound; lia]. }
  set (jx := ((hx - ix) ÷ nk)%Z) in *.
  pose proof (built_grid_positive 0%Z ltac:(lia)) as HK0.
  assert (HKle : K 0%Z <= K ix).
  { destruct (Z.eq_dec ix 0) as [->|Hne]; [lra|].
    left. apply built_grid_increasing; lia. }
  assert (HZle : Zg 0%Z <= Zg jx).
  { destruct (Z.eq_dec jx 0) as [->|Hne]; [lra|].
    left. apply HZinc; lia. }
  assert (Hz : 0 < Zg 0%Z) by (apply HZpos; lia).
  rewrite pow_positive_base by lra.
  assert (Hpow : Rpower (K 0%Z) alpha <= Rpower (K ix) alpha)
    by (apply Rle_Rpower_l; lra).
  assert (Hp0 : 0 < Rpower (K 0%Z) alpha) by apply exp_pos.
  pose proof production_covers_depreciation as Hprod.
  assert (Hmul : Zg 0%Z * Rpower (K 0%Z) alpha <= Zg jx * Rpower (K ix) alpha)
    by (apply Rmult_le_compat; lra).
  assert (Hdep : (1 - delta) * K 0%Z <= (1 - delta) * K ix)
    by (apply Rmult_le_compat_l; lra).
  lra.
Qed.

(** So, on that grid, the bracket of every state is in range and
    feasible. *)
Lemma bracket_feasible_on_built_grid (hx : Z) :
  (0 <= hx < nk * nz)%Z -> bracket_feasible pow nk alpha delta K Zg hx.
Proof.
  intros Hhx.
  pose proof (resources_reach_grid hx Hhx) as Hreach.
  destruct (upper_index_post (ydepK_at pow nk alpha delta K Zg hx) nk K)
    as (khi & Hkhi & Hrange & Hfeas);
    [lia | exact built_grid_increasing | lra |].
  exists khi. repeat split; try assumption; try lia.
  intros k' Hk'. specialize (Hfeas k' Hk'). lra.
Qed.

End GridFeasible.

(** ** Frame and order independence of [vfStep] *)

Lemma write_other (A : array) (i k : Z) (v : option REAL) :
  k <> i -> write A i v k = A k.
Proof. intros Hne. destruct v; [now apply store_other | reflexivity]. Qed.

Lemma write_commute (A : array) (i j : Z) (u v : option REAL) :
  i <> j ->
  forall k : Z, write (write A i u) j v k = write (write A j v) i u k.
Proof.
  intros Hne k. destruct u as [x|], v as [y|]; simpl; try reflexivity.
  unfold store.
  destruct (Z.eqb_spec k j), (Z.eqb_spec k i); try reflexivity. lia.
Qed.

Section Frame.

Variable pow : REAL -> REAL -> REAL.
Variables nk nz : Z.
Variables eta beta alpha delta : REAL.
Variable maxtype : ascii.
Variable howard : bool.
Variables K Zg P V0 : array.
Hypothesis Hnk : (1 <= nk)%Z.

(** What a pass writes at [hx]: a value for [V[hx]] that is computed
    from the read-only inputs and, on a policy-fixed pass, from [G[hx]];
    and, on a maximisation pass, a value for [G[hx]] computed from the
    read-only inputs alone. *)
Lemma vfStep_shape (hx : Z) :
  exists (fv : REAL -> option REAL) (og : option REAL),
    (howard = true -> og = None) /\
    (howard = false -> forall x y : REAL, fv x = fv y) /\
    (howard = true \/ maxtype = "g"%char \/ maxtype = "b"%char ->
     forall x : REAL, fv x <> None) /\
    (howard = false -> maxtype = "g"%char \/ maxtype = "b"%char ->
     og <> None) /\
    forall V G : array,
      vfStep pow nk nz eta beta alpha delta maxtype howard K Zg P V0 V G hx
      = Some (write V hx (fv (G hx)), write G hx og).
Proof.
  destruct howard.
  - exists (fun x =>
              Some (bellman pow nk nz eta beta K P V0
                      (ydepK_at pow nk alpha delta K Zg hx)
                      ((hx - Z.rem hx nk) ÷ nk) (int_of_real x))), None.
    repeat split; try discriminate.
    intros V G. rewrite vfStep_howard by assumption. reflexivity.
  - destruct (Ascii.eqb_spec maxtype "g") as [->|Hg].
    + destruct (vfStep_grid pow nk nz eta beta alpha delta K Zg P V0 hx
                  Hnk (fun _ => 0) (fun _ => 0)) as (khi & Hkhi & _).
      eexists (fun _ => Some _), (Some _).
      repeat split; try discriminate.
      intros V G.
      destruct (vfStep_grid pow nk nz eta beta alpha delta K Zg P V0 hx
                  Hnk V G) as (khi' & Hkhi' & ->).
      rewrite Hkhi in Hkhi'. injection Hkhi' as <-. reflexivity.
    + destruct (Ascii.eqb_spec maxtype "b") as [->|Hb].
      * destruct (vfStep_binary pow nk nz eta beta alpha delta K Zg P V0
                    hx Hnk (fun _ => 0) (fun _ => 0))
          as (khi & v & g & Hkhi & Hmax & _).
        exists (fun _ => Some v), (Some g).
        repeat split; try discriminate.
        intros V G.
        destruct (vfStep_binary pow nk nz eta beta alpha delta K Zg P V0
                    hx Hnk V G) as (khi' & v' & g' & Hkhi' & Hmax' & ->).
        rewrite Hkhi in Hkhi'. injection Hkhi' as <-.
        rewrite Hmax in Hmax'. now injection Hmax' as <- <-.
      * exists (fun _ => None), None.
        repeat split; try discriminate.
        -- intros [H|[H|H]]; [discriminate | contradiction | contradiction].
        -- intros _ [H|H]; contradiction.
        -- intros V G. now apply vfStep_other.
Qed.

End Frame.

(** ** Fuel *)

(** Once the loop of [binary_val] has returned, more fuel does not change
    its result. *)
Lemma binary_val_loop_more_fuel (x : REAL) (X : array) :
  forall (fuel fuel' : nat) (ilo ihi r : Z),
    (fuel <= fuel')%nat ->
    binary_val_loop fuel x X ilo ihi = Some r ->
    binary_val_loop fuel' x X ilo ihi = Some r.
Proof.
  induction fuel as [|fuel IH]; intros fuel' ilo ihi r Hle Hrun.
  - simpl in Hrun. destruct (Z.gtb_spec (ihi - ilo) 1) as [Hgt|Hngt];
      [discriminate|].
    destruct fuel'; simpl;
      destruct (Z.gtb_spec (ihi - ilo) 1); try lia; assumption.
  - destruct fuel' as [|fuel']; [lia|]. simpl in *.
    destruct (ihi - ilo >? 1)%Z; [|assumption].
    destruct (Req_dec_T (X ((ilo + ihi) ÷ 2)%Z) x); [assumption|].
    destruct (Rgt_dec (X ((ilo + ihi) ÷ 2)%Z) x); apply IH; auto; lia.
Qed.

Lemma binary_max_loop_more_fuel (pow : REAL -> REAL -> REAL)
  (klo nk nz : Z) (ydepK eta beta : REAL) (K P V0 : array) :
  forall (fuel fuel' : nat) (kslo kshi : Z) (w1 w2 : REAL)
         (r : Z * Z * REAL * REAL),
    (fuel <= fuel')%nat ->
    binary_max_loop pow fuel klo nk nz ydepK eta beta K P V0 kslo kshi w1 w2
    = Some r ->
    binary_max_loop pow fuel' klo nk nz ydepK eta beta K P V0 kslo kshi w1 w2
    = Some r.
Proof.
  induction fuel as [|fuel IH]; intros fuel' kslo kshi w1 w2 r Hle Hrun.
  - simpl in Hrun. destruct (Z.gtb_spec (kshi - kslo) 2) as [Hgt|Hngt];
      [discriminate|].
    destruct fuel'; simpl;
      destruct (Z.gtb_spec (kshi - kslo) 2); try lia; assumption.
  - destruct fuel' as [|fuel']; [lia|]. simpl in *.
    destruct (kshi - kslo >? 2)%Z; [|assumption].
    destruct (Rgt_dec _ _); apply IH; auto; lia.
Qed.

(** * The claims *)

Lemma libm_pow_positive_base (x y : R) :
  0 < x -> libm_pow x y = Rpower x y.
Proof.
  intros Hx. unfold libm_pow. now destruct (Rlt_dec 0 x).
Qed.

Ltac index_cases i :=
  destruct (Z.eq_dec i 0) as [->|];
  [|destruct (Z.eq_dec i 1) as [->|];
    [|destruct (Z.eq_dec i 2) as [->|];
      [|destruct (Z.eq_dec i 3) as [->|]; [|exfalso; lia]]]].

Ltac increasing_list :=
  let i := fresh "i" in
  let j := fresh "j" in
  intros i j ? ?; index_cases i; index_cases j; try lia;
  unfold ptr_add, of_list; simpl; lra.

(** ** C1: rows of the transition matrix *)

(** Claim C1, at the failing input [nz = 2], [rho = 0] and a
    zero-initialised buffer [P]: after [ar1] a row of [P] does not sum to
    one.  [ar1] leaves [P = [a, 0, a, 1 - a]], where [a] is the
    probability of the first column, the same for both rows when
    [rho = 0]: row 0 sums to [2a] and row 1 to [1 - a]. *)
Theorem ar1_rows_not_stochastic (pow : REAL -> REAL -> REAL)
  (erf log exp sqrt : REAL -> REAL) (mu sigma lambda : REAL) (Zg : array) :
  let P := snd (ar1 pow erf log exp sqrt 2 mu 0 sigma lambda Zg
                  (fun _ => 0)) in
  row_sum 2 P 0 <> 1 \/ row_sum 2 P 1 <> 1.
Proof.
  intros P. subst P. unfold row_sum, ar1, for_loop. simpl.
  unfold store. simpl. rewrite !Rmult_0_l.
  match goal with |- context [erf ?A] => set (a := erf A) end.
  destruct (Req_dec_T a 0) as [Ha|Ha]; [right | left]; lra.
Qed.

(** ** C2: the result of [binary_val] *)

(** Claim C2, at the failing input [X = [1, 2]], [n = 2], [x = 1]:
    [binary_val] returns index 1, and the first index whose entry is at
    least [x] is index 0. *)
Theorem binary_val_misses_first_point :
  binary_val 1 2 (of_list [1; 2]) = Some 1%Z /\
  first_at_least 1 2 (of_list [1; 2]) 0.
Proof.
  apply (binary_val_at_first_point 2 (of_list [1; 2])); [lia|].
  increasing_list.
Qed.

(** ** C10: termination of the two searches *)

(** Claim C10: [binary_val] returns for every [n >= 1] and [binary_max]
    for every [nksub >= 1], with the fuel they are run with and with any
    larger fuel; an iteration of the loop of [binary_val] continues on a
    bracket whose width [ihi - ilo] is positive and strictly smaller, and
    an iteration of the loop of [binary_max] on a bracket whose width
    [kshi - kslo] is strictly smaller. *)
Theorem search_loops_terminate (pow : REAL -> REAL -> REAL)
  (x : REAL) (n : Z) (X : array)
  (klo nksub nk nz : Z) (ydepK eta beta : REAL) (K P V0 : array) :
  (1 <= n)%Z -> (1 <= nksub)%Z ->
  (exists r : Z,
      binary_val x n X = Some r /\
      forall fuel : nat, (Z.to_nat n <= fuel)%nat ->
        binary_val_fuel fuel x n X = Some r) /\
  (exists vg : REAL * REAL,
      binary_max pow klo nksub nk nz ydepK eta beta K P V0 = Some vg /\
      forall fuel : nat, (Z.to_nat nksub <= fuel)%nat ->
        binary_max_fuel pow fuel klo nksub nk nz ydepK eta beta K P V0
        = Some vg) /\
  (forall (fuel : nat) (ilo ihi : Z),
      (1 < ihi - ilo)%Z ->
      let imid := ((ilo + ihi) ÷ 2)%Z in
      (0 < imid - ilo < ihi - ilo)%Z /\ (0 < ihi - imid < ihi - ilo)%Z /\
      binary_val_loop (S fuel) x X ilo ihi
      = if Req_dec_T (X imid) x then Some imid
        else if Rgt_dec (X imid) x then binary_val_loop fuel x X ilo imid
             else binary_val_loop fuel x X imid ihi) /\
  (forall (fuel : nat) (kslo kshi : Z) (w1 w2 : REAL),
      (0 <= kslo)%Z -> (2 < kshi - kslo)%Z ->
      let w := objective pow klo nk nz ydepK eta beta K P V0 in
      let ksmid1 := ((kslo + kshi) ÷ 2)%Z in
      let ksmid2 := (ksmid1 + 1)%Z in
      (2 <= kshi - ksmid1 < kshi - kslo)%Z /\
      (2 <= ksmid2 - kslo < kshi - kslo)%Z /\
      binary_max_loop pow (S fuel) klo nk nz ydepK eta beta K P V0
        kslo kshi w1 w2
      = if Rgt_dec (w ksmid2) (w ksmid1)
        then binary_max_loop pow fuel klo nk nz ydepK eta beta K P V0
               ksmid1 kshi (w ksmid1) (w ksmid2)
        else binary_max_loop pow fuel klo nk nz ydepK eta beta K P V0
               kslo ksmid2 (w ksmid1) (w ksmid2)).
Proof.
  intros Hn Hnksub. repeat split.
  - destruct (binary_val_post x n X Hn) as (r & Hr & _).
    exists r. split; [assumption|]. intros fuel Hfuel.
    unfold binary_val, binary_val_fuel in *.
    destruct (Rlt_dec x (X 0%Z)); [assumption|].
    destruct (Rgt_dec x (X (n - 1)%Z)); [assumption|].
    now apply binary_val_loop_more_fuel with (fuel := Z.to_nat n).
  - destruct (binary_max_value pow klo nk nz ydepK eta beta K P V0 nksub)
      as [g Hg].
    eexists. split; [exact Hg|]. intros fuel Hfuel.
    unfold binary_max, binary_max_fuel in *.
    destruct (nksub >? 3)%Z; [|assumption].
    destruct (binary_max_loop pow (Z.to_nat nksub) _ _ _ _ _ _ _ _ _ _ _ _ _)
      as [r|] eqn:Hrun; [|discriminate].
    now rewrite (binary_max_loop_more_fuel _ _ _ _ _ _ _ _ _ _ _ _ _ _ _ _ _
                   Hfuel Hrun).
  - pose proof (midpoint_inside ilo ihi ltac:(lia)). lia.
  - pose proof (midpoint_inside ilo ihi ltac:(lia)). lia.
  - pose proof (midpoint_inside ilo ihi ltac:(lia)). lia.
  - pose proof (midpoint_inside ilo ihi ltac:(lia)). lia.
  - simpl. destruct (Z.gtb_spec (ihi - ilo) 1); [reflexivity | lia].
  - pose proof (midpoint_nonneg kslo kshi ltac:(lia) ltac:(lia)). lia.
  - pose proof (midpoint_nonneg kslo kshi ltac:(lia) ltac:(lia)). lia.
  - pose proof (midpoint_nonneg kslo kshi ltac:(lia) ltac:(lia)). lia.
  - pose proof (midpoint_nonneg kslo kshi ltac:(lia) ltac:(lia)). lia.
  - simpl. destruct (Z.gtb_spec (kshi - kslo) 2); [reflexivity | lia].
Qed.

Lemma search_loops_terminate_witness :
  (exists r : Z,
      binary_val 2 3 (of_list [1; 2; 3]) = Some r /\
      forall fuel : nat, (Z.to_nat 3 <= fuel)%nat ->
        binary_val_fuel fuel 2 3 (of_list [1; 2; 3]) = Some r) /\
  (exists vg : REAL * REAL,
      binary_max libm_pow 0 5 5 1 6 2 (1 / 2) (of_list [1; 2; 3; 4; 5])
        (of_list [1]) (of_list [0; 4; 7; 9; 10]) = Some vg).
Proof.
  destruct (search_loops_terminate libm_pow 2 3 (of_list [1; 2; 3])
              0 5 5 1 6 2 (1 / 2) (of_list [1; 2; 3; 4; 5])
              (of_list [1]) (of_list [0; 4; 7; 9; 10]))
    as (Hval & (vg & Hmax & _) & _); [lia | lia |].
  split; [exact Hval | exists vg; exact Hmax].
Defined.


(** ** C7 and C3: the feasible bracket and the grid search *)

Lemma libm_pow_base_one (y : R) : libm_pow 1 y = 1.
Proof.
  rewrite libm_pow_positive_base by lra.
  unfold Rpower. now rewrite ln_1, Rmult_0_r, exp_0.
Qed.

(** A state below the grid: [K = [1, 2]], [Z = [1/10]], [alpha = 1/2] and
    [delta = 1] give [ydepK = 1/10 < K[0]] at the flat index 0. *)
Lemma ydepK_below_grid :
  ydepK_at libm_pow 2 (1 / 2) 1 (of_list [1; 2]) (of_list [1 / 10]) 0 = 1 / 10.
Proof.
  unfold ydepK_at, resources, of_list. simpl.
  rewrite libm_pow_base_one. lra.
Qed.

(** Claim C7 as stated fails at the state below the grid: [khi = -1]. *)
Lemma bracket_empty_below_grid :
  ~ bracket_feasible libm_pow 2 (1 / 2) 1 (of_list [1; 2]) (of_list [1 / 10]) 0.
Proof.
  intros (khi & Hkhi & Hrange & _).
  rewrite upper_index_empty in Hkhi.
  - injection Hkhi as <-. lia.
  - rewrite ydepK_below_grid. unfold of_list. simpl. lra.
Qed.

(** Claim C7, amended: at every state whose resources reach the first
    grid point, [K[0] <= ydepK], the upper bound [khi] that [vfStep]
    computes satisfies [0 <= khi <= nk - 1], and consumption
    [ydepK - K[k']] is non-negative for every [k'] in [[0, khi]]. *)
Theorem bracket_feasible_when_affordable (pow : REAL -> REAL -> REAL)
  (nk : Z) (alpha delta : REAL) (K Zg : array) (hx : Z) :
  (1 <= nk)%Z -> increasing nk K ->
  K 0%Z <= ydepK_at pow nk alpha delta K Zg hx ->
  bracket_feasible pow nk alpha delta K Zg hx.
Proof.
  intros Hnk Hinc Hfirst.
  destruct (upper_index_post _ nk K Hnk Hinc Hfirst)
    as (khi & Hkhi & Hrange & Hfeas).
  exists khi. repeat split; try assumption; try lia.
  intros k' Hk'. specialize (Hfeas k' Hk'). lra.
Qed.

(** A state above the grid: [K = [1, 2]], [Z = [2]], [alpha = 1/2] and
    [delta = 0] give [ydepK = 3] at the flat index 0. *)
Lemma ydepK_above_grid :
  ydepK_at libm_pow 2 (1 / 2) 0 (of_list [1; 2]) (of_list [2]) 0 = 3.
Proof.
  unfold ydepK_at, resources, of_list. simpl.
  rewrite libm_pow_base_one. lra.
Qed.

Lemma bracket_feasible_when_affordable_witness :
  bracket_feasible libm_pow 2 (1 / 2) 0 (of_list [1; 2]) (of_list [2]) 0.
Proof.
  apply bracket_feasible_when_affordable.
  - lia.
  - increasing_list.
  - rewrite ydepK_above_grid. unfold of_list. simpl. lra.
Defined.

(** Claim C3 as stated fails at the state below the grid: the bracket is
    empty, and the index written is not in it. *)
Lemma grid_search_not_optimal_below_grid :
  ~ grid_search_optimal libm_pow 2 1 2 (1 / 2) (1 / 2) 1
      (of_list [1; 2]) (of_list [1 / 10]) (of_list [1]) (of_list [0; 0])
      (fun _ => 0) (fun _ => 0) 0.
Proof.
  intros (khi & g & V' & G' & Hkhi & _ & _ & Hg & _).
  rewrite upper_index_empty in Hkhi.
  - injection Hkhi as <-. lia.
  - rewrite ydepK_below_grid. unfold of_list. simpl. lra.
Qed.

(** Claim C3, amended: at every state whose resources reach the first
    grid point, [K[0] <= ydepK], the grid-search pass of [vfStep] writes
    to [V[k,j]] the maximum of the Bellman objective over the bracket
    [[0, khi]], and to [G[k,j]] an index of the bracket that attains it. *)
Theorem grid_search_optimal_when_affordable (pow : REAL -> REAL -> REAL)
  (nk nz : Z) (eta beta alpha delta : REAL) (K Zg P V0 V G : array)
  (hx : Z) :
  (1 <= nk)%Z -> increasing nk K ->
  K 0%Z <= ydepK_at pow nk alpha delta K Zg hx ->
  grid_search_optimal pow nk nz eta beta alpha delta K Zg P V0 V G hx.
Proof.
  intros Hnk Hinc Hfirst. unfold grid_search_optimal.
  destruct (vfStep_grid pow nk nz eta beta alpha delta K Zg P V0 hx Hnk V G)
    as (khi & Hkhi & Hstep).
  destruct (upper_index_post _ nk K Hnk Hinc Hfirst)
    as (khi' & Hkhi' & Hrange & _).
  rewrite Hkhi in Hkhi'. injection Hkhi' as <-.
  destruct (grid_max_post pow 0 nk nz
              (ydepK_at pow nk alpha delta K Zg hx) eta beta K
              (ptr_add P ((hx - Z.rem hx nk) ÷ nk)) (ptr_add V0 0)
              (khi - 0 + 1)) as (g & Hg & Hgr & Hmax & _); [lia|].
  rewrite Hg in Hstep. simpl fst in Hstep. simpl snd in Hstep.
  exists khi, g. do 2 eexists.
  split; [exact Hkhi|]. split; [exact Hstep|].
  rewrite !store_same. rewrite objective_bellman.
  repeat split; try lia.
  intros k' Hk'. rewrite <- !objective_bellman. apply Hmax. lia.
Qed.

Lemma grid_search_optimal_when_affordable_witness :
  grid_search_optimal libm_pow 2 1 2 (1 / 2) (1 / 2) 0
    (of_list [1; 2]) (of_list [2]) (of_list [1]) (of_list [0; 0])
    (fun _ => 0) (fun _ => 0) 0.
Proof.
  apply grid_search_optimal_when_affordable.
  - lia.
  - increasing_list.
  - rewrite ydepK_above_grid. unfold of_list. simpl. lra.
Defined.

(** ** C5: the policy-fixed pass after a maximisation *)

(** Claim C5: when the policy-fixed branch of [vfStep] runs with the
    policy [G] that a maximisation pass (grid search or bisection) has just
    written from the same [V0], it writes to [V[k,j]] the value that the
    maximisation pass wrote there. *)
Theorem howard_reproduces_maximiser (pow : REAL -> REAL -> REAL)
  (nk nz : Z) (eta beta alpha delta : REAL) (maxtype : ascii)
  (K Zg P V0 V G Vh : array) (hx : Z) :
  (1 <= nk)%Z -> maxtype = "g"%char \/ maxtype = "b"%char ->
  exists V1 G1 V2 G2 : array,
    vfStep pow nk nz eta beta alpha delta maxtype false K Zg P V0 V G hx
    = Some (V1, G1) /\
    vfStep pow nk nz eta beta alpha delta maxtype true K Zg P V0 Vh G1 hx
    = Some (V2, G2) /\
    V2 hx = V1 hx.
Proof.
  intros Hnk Hmax.
  assert (Hsame : forall (v g : REAL) (l : Z),
            v = objective pow 0 nk nz (ydepK_at pow nk alpha delta K Zg hx)
                  eta beta K (ptr_add P ((hx - Z.rem hx nk) ÷ nk))
                  (ptr_add V0 0) l ->
            g = IZR (0 + l) ->
            store Vh hx
              (bellman pow nk nz eta beta K P V0
                 (ydepK_at pow nk alpha delta K Zg hx)
                 ((hx - Z.rem hx nk) ÷ nk)
                 (int_of_real (store G hx g hx))) hx
            = store V hx v hx).
  { intros v g l -> ->. rewrite !store_same.
    change (0 + l)%Z with l. now rewrite int_of_real_IZR. }
  destruct Hmax as [-> | ->].
  - destruct (vfStep_grid pow nk nz eta beta alpha delta K Zg P V0 hx Hnk
                V G) as (khi & _ & Hstep).
    destruct (grid_max_value pow 0 nk nz
                (ydepK_at pow nk alpha delta K Zg hx) eta beta K
                (ptr_add P ((hx - Z.rem hx nk) ÷ nk)) (ptr_add V0 0)
                (khi - 0 + 1)) as [l Hl].
    rewrite Hl in Hstep. simpl fst in Hstep. simpl snd in Hstep.
    do 4 eexists. split; [exact Hstep|].
    split; [apply vfStep_howard; assumption|].
    now apply Hsame with (l := l).
  - destruct (vfStep_binary pow nk nz eta beta alpha delta K Zg P V0 hx Hnk
                V G) as (khi & v & g & _ & Hbin & Hstep).
    destruct (binary_max_value pow 0 nk nz
                (ydepK_at pow nk alpha delta K Zg hx) eta beta K
                (ptr_add P ((hx - Z.rem hx nk) ÷ nk)) (ptr_add V0 0)
                (khi - 0 + 1)) as [l Hl].
    rewrite Hl in Hbin. injection Hbin as <- <-.
    do 4 eexists. split; [exact Hstep|].
    split; [apply vfStep_howard; assumption|].
    now apply Hsame with (l := l).
Qed.

Lemma howard_reproduces_maximiser_witness :
  exists V1 G1 V2 G2 : array,
    vfStep libm_pow 2 1 2 (1 / 2) (1 / 2) 0 "g" false
      (of_list [1; 2]) (of_list [2]) (of_list [1]) (of_list [0; 0])
      (fun _ => 0) (fun _ => 0) 0 = Some (V1, G1) /\
    vfStep libm_pow 2 1 2 (1 / 2) (1 / 2) 0 "g" true
      (of_list [1; 2]) (of_list [2]) (of_list [1]) (of_list [0; 0])
      (fun _ => 0) G1 0 = Some (V2, G2) /\
    V2 0%Z = V1 0%Z.
Proof.
  apply howard_reproduces_maximiser; [lia | now left].
Defined.

(** ** C9: frame and order independence of [vfStep] *)

(** Claim C9: a call of [vfStep] at the flat index [hx] returns, changes
    no cell of [V] and [G] other than [hx], and leaves [G] as it is on a
    policy-fixed pass; the values it writes are the same whatever the
    buffers [V] and [G] hold (on a policy-fixed pass, whatever they hold
    apart from [G[hx]]); and two calls, at [hx] and at [hx2], leave the
    same [V] and [G] in either order.  ([K], [Z], [P] and [V0] are
    arguments that [vfStep] only reads.) *)
Theorem vfStep_frame_and_order (pow : REAL -> REAL -> REAL)
  (nk nz : Z) (eta beta alpha delta : REAL) (maxtype : ascii)
  (howard : bool) (K Zg P V0 : array) (hx : Z) :
  (1 <= nk)%Z ->
  (forall V G : array,
      exists V' G' : array,
        vfStep pow nk nz eta beta alpha delta maxtype howard K Zg P V0
          V G hx = Some (V', G') /\
        (forall i : Z, i <> hx -> V' i = V i /\ G' i = G i) /\
        (howard = true -> forall i : Z, G' i = G i)) /\
  (forall V G V2 G2 V' G' V2' G2' : array,
      (howard = true -> G2 hx = G hx) ->
      howard = true \/ maxtype = "g"%char \/ maxtype = "b"%char ->
      vfStep pow nk nz eta beta alpha delta maxtype howard K Zg P V0
        V G hx = Some (V', G') ->
      vfStep pow nk nz eta beta alpha delta maxtype howard K Zg P V0
        V2 G2 hx = Some (V2', G2') ->
      V' hx = V2' hx /\ (howard = false -> G' hx = G2' hx)) /\
  (forall (hx2 : Z) (V G : array),
      exists Va Ga Vab Gab Vb Gb Vba Gba : array,
        vfStep pow nk nz eta beta alpha delta maxtype howard K Zg P V0
          V G hx = Some (Va, Ga) /\
        vfStep pow nk nz eta beta alpha delta maxtype howard K Zg P V0
          Va Ga hx2 = Some (Vab, Gab) /\
        vfStep pow nk nz eta beta alpha delta maxtype howard K Zg P V0
          V G hx2 = Some (Vb, Gb) /\
        vfStep pow nk nz eta beta alpha delta maxtype howard K Zg P V0
          Vb Gb hx = Some (Vba, Gba) /\
        forall i : Z, Vab i = Vba i /\ Gab i = Gba i).
Proof.
  intros Hnk.
  destruct (vfStep_shape pow nk nz eta beta alpha delta maxtype howard
              K Zg P V0 Hnk hx)
    as (fv & og & Hog & Hfv & Hwv & Hwg & Hstep).
  split; [|split].
  - intros V G. do 2 eexists. split; [apply Hstep|]. split.
    + intros i Hi. now rewrite !write_other.
    + intros Hh i. now rewrite (Hog Hh).
  - intros V G V2 G2 V' G' V2' G2' HG Hwrites Hrun Hrun2.
    rewrite Hstep in Hrun. rewrite Hstep in Hrun2.
    injection Hrun as <- <-. injection Hrun2 as <- <-. split.
    + assert (Heq : fv (G hx) = fv (G2 hx)).
      { destruct howard; [now rewrite HG by reflexivity | now apply Hfv]. }
      rewrite <- Heq. specialize (Hwv Hwrites (G hx)).
      destruct (fv (G hx)); [simpl; now rewrite !store_same | contradiction].
    + intros Hh. destruct Hwrites as [Hw|Hw]; [congruence|].
      specialize (Hwg Hh Hw).
      destruct og; [simpl; now rewrite !store_same | contradiction].
  - intros hx2 V G.
    destruct (vfStep_shape pow nk nz eta beta alpha delta maxtype howard
                K Zg P V0 Hnk hx2)
      as (fv2 & og2 & Hog2 & Hfv2 & _ & _ & Hstep2).
    do 8 eexists.
    split; [apply Hstep|]. split; [apply Hstep2|].
    split; [apply Hstep2|]. split; [apply Hstep|].
    destruct (Z.eq_dec hx hx2) as [<-|Hne].
    + assert (Hfun : forall V G : array,
                (write V hx (fv (G hx)), write G hx og)
                = (write V hx (fv2 (G hx)), write G hx og2)).
      { intros V1 G1. pose proof (Hstep V1 G1) as E1.
        rewrite Hstep2 in E1. now injection E1 as <- <-. }
      intros i.
      pose proof (Hfun (write V hx (fv (G hx))) (write G hx og)) as E1.
      pose proof (Hfun V G) as E2.
      injection E1 as E1v E1g. injection E2 as E2v E2g.
      rewrite <- E1v, <- E1g, <- E2v, <- E2g. now split.
    + assert (H1 : fv2 (write G hx og hx2) = fv2 (G hx2))
        by now rewrite write_other by lia.
      assert (H2 : fv (write G hx2 og2 hx) = fv (G hx))
        by now rewrite write_other by lia.
      rewrite H1, H2. intros i. split; now apply write_commute.
Qed.

Lemma vfStep_frame_and_order_witness :
  exists V' G' : array,
    vfStep libm_pow 2 1 2 (1 / 2) (1 / 2) 0 "g" false
      (of_list [1; 2]) (of_list [2]) (of_list [1]) (of_list [0; 0])
      (of_list [7; 8]) (of_list [0; 0]) 1 = Some (V', G') /\
    (forall i : Z,
        i <> 1%Z -> V' i = of_list [7; 8] i /\ G' i = of_list [0; 0] i) /\
    (false = true -> forall i : Z, G' i = of_list [0; 0] i).
Proof.
  destruct (vfStep_frame_and_order libm_pow 2 1 2 (1 / 2) (1 / 2) 0 "g"
              false (of_list [1; 2]) (of_list [2]) (of_list [1])
              (of_list [0; 0]) 1) as (Hframe & _); [lia|].
  apply Hframe.
Defined.

(** ** C8: the capital grid *)



(** ** C6: the layout of the transition matrix *)

(** Claim C6 as stated fails for [nz = 2] at the state with productivity
    index 0: the buffers [[0,0,0,0]] and [[0,0,1,0]] agree on the cells 0
    and 1 that a row-major layout gives to the entries [(0,0)] and
    [(0,1)], and the policy-fixed pass of [vfStep] writes different
    values from them; it reads the cells 0 and 2. *)
Lemma vfStep_not_row_major :
  ~ reads_entries_at row_major libm_pow 1 2 2 (1 / 2) (1 / 2) 0 "g" true
      (of_list [1]) (of_list [2; 2]) (of_list [1; 1])
      (fun _ => 0) (fun _ => 0) 0.
Proof.
  intros H.
  destruct (H (of_list [0; 0; 0; 0]) (of_list [0; 0; 1; 0]))
    as (V1 & G1 & V2 & G2 & E1 & E2 & EV & _).
  { intros z' Hz'. unfold row_major, of_list.
    assert (z' = 0 \/ z' = 1)%Z as [-> | ->] by lia; reflexivity. }
  rewrite vfStep_howard in E1, E2 by lia.
  injection E1 as <- _. injection E2 as <- _.
  rewrite !store_same in EV. revert EV.
  cbv beta. rewrite (int_of_real_IZR 0).
  unfold bellman, for_loop, of_list. simpl. lra.
Qed.

(** Claim C6, amended: the entry of the transition matrix for the move
    from [j] to [z'] is the cell [j + z' * nz] of [P] (the origin index
    runs fastest).  That is the cell where [transMat] stores the
    probability of the move; every pass of [vfStep] (grid search,
    bisection and the policy-fixed update) depends on [P] through these
    cells alone; and, run on the buffer that [transMat] filled for [j],
    it writes to [V[k,j]] the utility of the index [g] it settles on
    plus [beta] times the expectation of [V0[g, .]] under the
    probabilities of leaving [j]. *)
Theorem transition_entry_read_where_written (pow : REAL -> REAL -> REAL)
  (erf log : REAL -> REAL) (nz nk : Z)
  (mu sigma rho eta beta alpha delta : REAL) (maxtype : ascii)
  (howard : bool) (K Zg P V0 V G : array) (hx : Z) :
  (2 <= nz)%Z -> (1 <= nk)%Z ->
  howard = true \/ maxtype = "g"%char \/ maxtype = "b"%char ->
  let j := ((hx - Z.rem hx nk) ÷ nk)%Z in
  let ydepK := ydepK_at pow nk alpha delta K Zg hx in
  let P' := transMat pow erf log nz mu sigma rho Zg P j in
  let p := transition_prob pow erf log nz mu sigma rho Zg j in
  (forall z' : Z, (0 <= z' < nz)%Z -> P' (j + z' * nz)%Z = p z') /\
  reads_entries_at column_major pow nk nz eta beta alpha delta maxtype
    howard K Zg V0 V G hx /\
  exists (V1 G1 : array) (g : Z),
    vfStep pow nk nz eta beta alpha delta maxtype howard K Zg P' V0 V G hx
    = Some (V1, G1) /\
    (if howard then g = int_of_real (G hx) else G1 hx = IZR g) /\
    V1 hx
    = pow (ydepK - K g) (1 - eta) / (1 - eta)
      + beta * for_loop 0 nz
                 (fun z' s => s + p z' * V0 (g + z' * nk)%Z) 0.
Proof.
  intros Hnz Hnk Hpass j ydepK P' p.
  assert (Hcell : forall z' : Z, (0 <= z' < nz)%Z ->
                    P' (j + z' * nz)%Z = p z')
    by (intros z' Hz'; now apply transMat_row).
  assert (Hval : forall g : Z,
            bellman pow nk nz eta beta K P' V0 ydepK j g
            = pow (ydepK - K g) (1 - eta) / (1 - eta)
              + beta * for_loop 0 nz
                         (fun z' s => s + p z' * V0 (g + z' * nk)%Z) 0).
  { intros g. unfold bellman. f_equal. f_equal.
    apply for_loop_ext. intros z' t Hz'. now rewrite Hcell. }
  split; [exact Hcell|].
  split; [now apply vfStep_reads_column_major|].
  destruct howard.
  - exists (store V hx
              (bellman pow nk nz eta beta K P' V0 ydepK j
                 (int_of_real (G hx)))), G, (int_of_real (G hx)).
    split; [now apply vfStep_howard|]. split; [reflexivity|].
    now rewrite store_same.
  - destruct Hpass as [H|[-> | ->]]; [discriminate | |].
    + destruct (vfStep_grid pow nk nz eta beta alpha delta K Zg P' V0 hx
                  Hnk V G) as (khi & _ & Hstep).
      destruct (grid_max_value pow 0 nk nz ydepK eta beta K
                  (ptr_add P' j) (ptr_add V0 0) (khi - 0 + 1)) as [g Hg].
      fold j ydepK in Hstep. rewrite Hg in Hstep.
      simpl fst in Hstep. simpl snd in Hstep.
      do 2 eexists. exists g. split; [exact Hstep|].
      rewrite !store_same. split; [reflexivity|].
      now rewrite objective_bellman.
    + destruct (vfStep_binary pow nk nz eta beta alpha delta K Zg P' V0 hx
                  Hnk V G) as (khi & v & gr & _ & Hbin & Hstep).
      destruct (binary_max_value pow 0 nk nz ydepK eta beta K
                  (ptr_add P' j) (ptr_add V0 0) (khi - 0 + 1)) as [g Hg].
      fold j ydepK in Hbin. rewrite Hg in Hbin. injection Hbin as <- <-.
      do 2 eexists. exists g. split; [exact Hstep|].
      rewrite !store_same. split; [reflexivity|].
      now rewrite objective_bellman.
Qed.

Lemma transition_entry_read_where_written_witness :
  let j := ((1 - Z.rem 1 1) ÷ 1)%Z in
  let ydepK := ydepK_at libm_pow 1 (1 / 2) 0 (of_list [1]) (of_list [1; 2])
                 1 in
  let P' := transMat libm_pow (fun x => x) ln 2 0 1 0 (of_list [1; 2])
              (fun _ => 0) j in
  let p := transition_prob libm_pow (fun x => x) ln 2 0 1 0 (of_list [1; 2])
             j in
  (forall z' : Z, (0 <= z' < 2)%Z -> P' (j + z' * 2)%Z = p z') /\
  reads_entries_at column_major libm_pow 1 2 2 (1 / 2) (1 / 2) 0 "g" false
    (of_list [1]) (of_list [1; 2]) (of_list [0; 0]) (fun _ => 0)
    (fun _ => 0) 1 /\
  exists (V1 G1 : array) (g : Z),
    vfStep libm_pow 1 2 2 (1 / 2) (1 / 2) 0 "g" false (of_list [1])
      (of_list [1; 2]) P' (of_list [0; 0]) (fun _ => 0) (fun _ => 0) 1
    = Some (V1, G1) /\
    (if false then g = int_of_real ((fun _ : Z => 0) 1%Z)
     else G1 1%Z = IZR g) /\
    V1 1%Z
    = libm_pow (ydepK - of_list [1] g) (1 - 2) / (1 - 2)
      + 1 / 2 * for_loop 0 2
                  (fun z' s => s + p z' * of_list [0; 0] (g + z' * 1)%Z) 0.
Proof.
  apply (transition_entry_read_where_written libm_pow (fun x => x) ln 2 1
           0 1 0 2 (1 / 2) (1 / 2) 0 "g" false (of_list [1])
           (of_list [1; 2]) (fun _ => 0) (of_list [0; 0]) (fun _ => 0)
           (fun _ => 0) 1).
  - lia.
  - lia.
  - right. now left.
Defined.

(** ** C4: bisection against grid search *)

(** Four candidates whose last two tie for the maximum: grid search keeps
    the first of the two, bisection the second. *)
Lemma grid_max_four (pow : REAL -> REAL -> REAL) (klo nk nz : Z)
  (ydepK eta beta : REAL) (K P V0 : array) :
  let w := objective pow klo nk nz ydepK eta beta K P V0 in
  w 0%Z < w 1%Z -> w 1%Z < w 2%Z -> w 3%Z <= w 2%Z ->
  grid_max pow klo 4 nk nz ydepK eta beta K P V0 = (w 2%Z, IZR (klo + 2)).
Proof.
  intros w H01 H12 H32. unfold grid_max, for_loop. simpl. fold w.
  destruct (Rgt_dec (w 1%Z) (w 0%Z)) as [_|H]; [|lra].
  destruct (Rgt_dec (w 2%Z) (w 1%Z)) as [_|H]; [|lra].
  destruct (Rgt_dec (w 3%Z) (w 2%Z)) as [H|_]; [lra | reflexivity].
Qed.

Lemma binary_max_four (pow : REAL -> REAL -> REAL) (klo nk nz : Z)
  (ydepK eta beta : REAL) (K P V0 : array) :
  let w := objective pow klo nk nz ydepK eta beta K P V0 in
  w 1%Z < w 2%Z -> w 2%Z <= w 3%Z ->
  binary_max pow klo 4 nk nz ydepK eta beta K P V0
  = Some (w 3%Z, IZR (klo + 3)).
Proof.
  intros w H12 H23. unfold binary_max, binary_max_fuel. simpl.
  change (3 ÷ 2)%Z with 1%Z. fold w.
  destruct (Rgt_dec (w 2%Z) (w 1%Z)) as [_|H]; [|lra]. simpl.
  destruct (Rgt_dec (w 2%Z) (w 1%Z)) as [_|H]; [|lra].
  destruct (Rgt_dec (w 2%Z) (w 3%Z)) as [H|_]; [lra | reflexivity].
Qed.

Lemma libm_pow_minus_one (c : R) : 0 < c -> libm_pow c (1 - 2) = / c.
Proof.
  intros Hc. rewrite libm_pow_positive_base by assumption.
  replace (1 - 2) with (Ropp 1) by lra.
  now rewrite Rpower_Ropp, Rpower_1.
Qed.

(** The objective with [eta = 2], [beta = 1/2], [K = [1, 2, 3, 4]],
    [ydepK = 5], one productivity state and [V0 = [0, 3, 5, 6]]: its
    values are [-1/4, 7/6, 2, 2]. *)
Lemma tie_objective :
  let w := objective libm_pow 0 4 1 5 2 (1 / 2) (of_list [1; 2; 3; 4])
             (of_list [1]) (of_list [0; 3; 5; 6]) in
  w 0%Z = - (1 / 4) /\ w 1%Z = 7 / 6 /\ w 2%Z = 2 /\ w 3%Z = 2.
Proof.
  unfold objective, expect, for_loop, of_list. simpl.
  rewrite !libm_pow_minus_one by lra.
  repeat split; field.
Qed.

(** This input satisfies the concavity assumptions: [V0] is strictly
    concave in capital, and so is the objective. *)
Lemma tie_input_concave :
  let K := of_list [1; 2; 3; 4] in
  let P := of_list [1] in
  let V0 := of_list [0; 3; 5; 6] in
  increasing 4 (ptr_add K 0) /\
  distribution 1 (fun m => P (m * 1)%Z) /\
  concave 4 (ptr_add K 0)
    (fun l => libm_pow (5 - K (0 + l)%Z) (1 - 2) / (1 - 2)) /\
  (forall m : Z, (0 <= m < 1)%Z ->
     strictly_concave 4 (ptr_add K 0) (fun l => V0 (l + m * 4)%Z)).
Proof.
  intros K P V0. repeat split.
  - unfold K. increasing_list.
  - intros m Hm. assert (m = 0%Z) as -> by lia.
    unfold P, of_list. simpl. lra.
  - unfold for_loop, P, of_list. simpl. lra.
  - intros l Hl Hl'. unfold ptr_add, K, of_list.
    assert (l = 1 \/ l = 2)%Z as [-> | ->] by lia; simpl;
      rewrite !libm_pow_minus_one by lra; lra.
  - intros m Hm l Hl Hl'. assert (m = 0%Z) as -> by lia.
    unfold ptr_add, K, V0, of_list.
    assert (l = 1 \/ l = 2)%Z as [-> | ->] by lia; simpl; lra.
Qed.

Lemma objective_at_origin (pow : REAL -> REAL -> REAL) (klo nk nz : Z)
  (ydepK eta beta : REAL) (K P V0 : array) (l : Z) :
  objective pow klo nk nz ydepK eta beta K (ptr_add P 0) (ptr_add V0 0) l
  = objective pow klo nk nz ydepK eta beta K P V0 l.
Proof. reflexivity. Qed.

(** [vfStep] reaches this input at the state [(0, 0)] of the model with
    [Z = [4]], [alpha = 1/2] and [delta = 0], where [ydepK = 5] and the
    bracket is the whole grid: the grid-search pass and the bisection pass
    write the same value and different indices. *)
Lemma tie_state :
  let K := of_list [1; 2; 3; 4] in
  let Zg := of_list [4] in
  let P := of_list [1] in
  let V0 := of_list [0; 3; 5; 6] in
  exists Vg Gg Vb Gb : array,
    vfStep libm_pow 4 1 2 (1 / 2) (1 / 2) 0 "g" false K Zg P V0
      (fun _ => 0) (fun _ => 0) 0 = Some (Vg, Gg) /\
    vfStep libm_pow 4 1 2 (1 / 2) (1 / 2) 0 "b" false K Zg P V0
      (fun _ => 0) (fun _ => 0) 0 = Some (Vb, Gb) /\
    Vg 0%Z = 2 /\ Vb 0%Z = 2 /\ Gg 0%Z = 2 /\ Gb 0%Z = 3.
Proof.
  intros K Zg P V0.
  assert (Hy : ydepK_at libm_pow 4 (1 / 2) 0 K Zg 0 = 5).
  { unfold ydepK_at, resources, K, Zg, of_list. simpl.
    rewrite libm_pow_base_one. lra. }
  assert (Hkhi : upper_index 5 4 K = Some 3%Z).
  { assert (HK0 : K 0%Z = 1) by reflexivity.
    assert (HK3 : K 3%Z = 4) by reflexivity.
    unfold upper_index, binary_val, binary_val_fuel.
    change (4 - 1)%Z with 3%Z. rewrite HK0, HK3.
    destruct (Rlt_dec 5 1) as [H|_]; [lra|].
    destruct (Rgt_dec 5 4) as [_|H]; [|lra].
    rewrite HK3.
    destruct (Rgt_dec 4 5) as [H|_]; [lra | reflexivity]. }
  destruct tie_objective as (H0 & H1 & H2 & H3).
  fold K P V0 in H0, H1, H2, H3.
  unfold vfStep. fold (ydepK_at libm_pow 4 (1 / 2) 0 K Zg 0).
  rewrite Hy, Hkhi. simpl Ascii.eqb. cbv iota.
  change ((0 - Z.rem 0 4) ÷ 4)%Z with 0%Z.
  change (3 - 0 + 1)%Z with 4%Z.
  rewrite grid_max_four, binary_max_four;
    rewrite ?objective_at_origin; try lra.
  rewrite H2, H3.
  do 4 eexists. repeat split; rewrite store_same; simpl; lra.
Qed.

(** Claim C4 as stated fails on a tie: [V0] is strictly concave in
    capital, the two maximisers write the same value, but grid search
    writes the index 2 and bisection the index 3. *)
Lemma bisection_breaks_tie_upward :
  let K := of_list [1; 2; 3; 4] in
  let P := of_list [1] in
  let V0 := of_list [0; 3; 5; 6] in
  (forall m : Z, (0 <= m < 1)%Z ->
     strictly_concave 4 (ptr_add K 0) (fun l => V0 (l + m * 4)%Z)) /\
  grid_max libm_pow 0 4 4 1 5 2 (1 / 2) K P V0 = (2, 2) /\
  binary_max libm_pow 0 4 4 1 5 2 (1 / 2) K P V0 = Some (2, 3) /\
  ~ maximisers_agree libm_pow 0 4 4 1 5 2 (1 / 2) K P V0.
Proof.
  intros K P V0.
  destruct tie_objective as (H0 & H1 & H2 & H3). fold K P V0 in H0, H1, H2, H3.
  assert (Hgrid : grid_max libm_pow 0 4 4 1 5 2 (1 / 2) K P V0 = (2, 2)).
  { rewrite grid_max_four; [now rewrite H2 | lra | lra | lra]. }
  assert (Hbin : binary_max libm_pow 0 4 4 1 5 2 (1 / 2) K P V0 = Some (2, 3)).
  { rewrite binary_max_four; [now rewrite H3 | lra | lra]. }
  split; [apply tie_input_concave|].
  split; [exact Hgrid|]. split; [exact Hbin|].
  unfold maximisers_agree. rewrite Hgrid, Hbin.
  intros Heq. injection Heq as Heq. lra.
Qed.

(** Claim C4, amended: for a grid that increases over the bracket, a
    discount factor [beta > 0], a probability distribution [P[j,.]], a
    utility term that is concave in capital over the bracket and a [V0]
    that is strictly concave in capital in every productivity column,
    over a bracket of any size [nksub >= 1], [binary_max] and [grid_max]
    write the same value, the maximum of the objective over the bracket;
    [binary_max] writes an index of the bracket that attains it, and the
    same index as [grid_max] whenever no other candidate attains the
    maximum. *)
Theorem maximisers_agree_up_to_ties (pow : REAL -> REAL -> REAL)
  (klo nksub nk nz : Z) (ydepK eta beta : REAL) (K P V0 : array) :
  (1 <= nksub)%Z ->
  increasing nksub (ptr_add K klo) ->
  0 < beta ->
  distribution nz (fun m => P (m * nz)%Z) ->
  concave nksub (ptr_add K klo)
    (fun l => pow (ydepK - K (klo + l)%Z) (1 - eta) / (1 - eta)) ->
  (forall m : Z, (0 <= m < nz)%Z ->
     strictly_concave nksub (ptr_add K klo) (fun l => V0 (l + m * nk)%Z)) ->
  let w := objective pow klo nk nz ydepK eta beta K P V0 in
  exists gg gb : Z,
    grid_max pow klo nksub nk nz ydepK eta beta K P V0
    = (w gg, IZR (klo + gg)) /\
    binary_max pow klo nksub nk nz ydepK eta beta K P V0
    = Some (w gb, IZR (klo + gb)) /\
    (0 <= gg < nksub)%Z /\ (0 <= gb < nksub)%Z /\
    w gb = w gg /\
    (forall k : Z, (0 <= k < nksub)%Z -> w k <= w gg) /\
    ((forall k : Z, (0 <= k < nksub)%Z -> k <> gg -> w k < w gg) ->
     gb = gg).
Proof.
  intros Hn HK Hbeta HP HU HV w.
  now apply maximisers_agree_on_value.
Qed.

Lemma maximisers_agree_up_to_ties_witness :
  let K := of_list [1; 2; 3; 4] in
  let P := of_list [1] in
  let V0 := of_list [0; 3; 5; 6] in
  let w := objective libm_pow 0 4 1 5 2 (1 / 2) K P V0 in
  exists gg gb : Z,
    grid_max libm_pow 0 4 4 1 5 2 (1 / 2) K P V0 = (w gg, IZR (0 + gg)) /\
    binary_max libm_pow 0 4 4 1 5 2 (1 / 2) K P V0
    = Some (w gb, IZR (0 + gb)) /\
    (0 <= gg < 4)%Z /\ (0 <= gb < 4)%Z /\
    w gb = w gg /\
    (forall k : Z, (0 <= k < 4)%Z -> w k <= w gg) /\
    ((forall k : Z, (0 <= k < 4)%Z -> k <> gg -> w k < w gg) -> gb = gg).
Proof.
  intros K P V0.
  destruct tie_input_concave as (HK & HP & HU & HV).
  apply (maximisers_agree_up_to_ties libm_pow 0 4 4 1 5 2 (1 / 2) K P V0);
    [lia | exact HK | lra | exact HP | exact HU | exact HV].
Defined.

(** * Further properties of the kernels *)

(** ** [binary_val] and the bracket *)

(** Property X1: for a grid of [n >= 1] points, sorted or not,
    [binary_val] returns an index of the grid, [0 <= r < n]; it returns
    0 for a value below [X[0]] and [n - 1] for a value above [X[n-1]]. *)
Theorem binary_val_in_range (x : REAL) (n : Z) (X : array) :
  (1 <= n)%Z ->
  exists r : Z,
    binary_val x n X = Some r /\ (0 <= r < n)%Z /\
    (x < X 0%Z -> r = 0%Z) /\
    (X 0%Z <= x -> X (n - 1)%Z < x -> r = (n - 1)%Z).
Proof.
  intros Hn.
  destruct (binary_val_post x n X Hn) as (r & Hr & Hrange & Hlo & Hhi & _).
  exists r. auto.
Qed.

Lemma binary_val_in_range_witness :
  exists r : Z,
    binary_val 5 3 (of_list [4; 1; 2]) = Some r /\ (0 <= r < 3)%Z /\
    (5 < of_list [4; 1; 2] 0%Z -> r = 0%Z) /\
    (of_list [4; 1; 2] 0%Z <= 5 -> of_list [4; 1; 2] (3 - 1)%Z < 5 ->
     r = (3 - 1)%Z).
Proof. apply binary_val_in_range. lia. Defined.

(** Property X2: on a strictly increasing grid, for every [x] with
    [X[0] < x <= X[n-1]], [binary_val] returns the first index whose
    entry is at least [x]. *)
Theorem binary_val_finds_first (x : REAL) (n : Z) (X : array) :
  (1 <= n)%Z -> increasing n X -> X 0%Z < x <= X (n - 1)%Z ->
  exists r : Z, binary_val x n X = Some r /\ first_at_least x n X r.
Proof. apply binary_val_interior. Qed.

Lemma binary_val_finds_first_witness :
  exists r : Z,
    binary_val (5 / 2) 4 (of_list [1; 2; 3; 4]) = Some r /\
    first_at_least (5 / 2) 4 (of_list [1; 2; 3; 4]) r.
Proof.
  apply binary_val_finds_first.
  - lia.
  - increasing_list.
  - unfold of_list. simpl. lra.
Defined.

(** Property X3: searching a strictly increasing grid for one of its own
    points [X[i]] returns [i], except for the first point of a grid of
    two or more points, where it returns 1. *)
Theorem binary_val_on_grid_point (n : Z) (X : array) (i : Z) :
  increasing n X -> (0 <= i < n)%Z ->
  binary_val (X i) n X
  = Some (if ((i =? 0) && (2 <=? n))%Z then 1%Z else i).
Proof.
  intros Hinc Hi.
  destruct (Z.eq_dec i 0) as [->|Hne].
  - destruct (Z.leb_spec 2 n) as [Hn|Hn]; simpl.
    + now apply binary_val_at_first_point.
    + destruct (binary_val_post (X 0%Z) n X ltac:(lia))
        as (r & -> & Hrange & _).
      f_equal. lia.
  - replace (i =? 0)%Z with false by (symmetry; now apply Z.eqb_neq).
    simpl.
    destruct (binary_val_interior (X i) n X) as (r & -> & Hr & Hle & Hlt);
      [lia | assumption | |].
    + split; [apply Hinc; lia|].
      destruct (Z.eq_dec i (n - 1)) as [->|Hlast]; [lra|].
      left. apply Hinc; lia.
    + f_equal.
      destruct (Z_lt_ge_dec i r) as [Hir|Hir].
      { specialize (Hlt i ltac:(lia)). lra. }
      destruct (Z.eq_dec r i) as [|Hri]; [assumption|].
      pose proof (Hinc r i ltac:(lia) ltac:(lia)). lra.
Qed.

Lemma binary_val_on_grid_point_witness :
  binary_val (of_list [1; 2; 3; 4] 2%Z) 4 (of_list [1; 2; 3; 4])
  = Some (if ((2 =? 0) && (2 <=? 4))%Z then 1%Z else 2%Z).
Proof.
  apply binary_val_on_grid_point; [increasing_list | lia].
Defined.

(** Property X4: on a strictly increasing grid of [nk >= 1] points the
    upper index [khi] that [vfStep] computes separates the affordable
    grid points from the others: [K[k'] <= ydepK] exactly for the indices
    [k' <= khi]; [khi = -1] when no grid point is affordable. *)
Theorem upper_index_largest_affordable (ydepK : REAL) (nk : Z) (K : array) :
  (1 <= nk)%Z -> increasing nk K ->
  exists khi : Z,
    upper_index ydepK nk K = Some khi /\
    (-1 <= khi <= nk - 1)%Z /\
    forall k' : Z, (0 <= k' < nk)%Z -> (K k' <= ydepK <-> (k' <= khi)%Z).
Proof.
  intros Hnk Hinc.
  assert (Hmono : forall i j, (0 <= i <= j)%Z -> (j < nk)%Z -> K i <= K j).
  { intros i j Hij Hj. destruct (Z.eq_dec i j) as [->|Hne]; [lra|].
    left. apply Hinc; lia. }
  destruct (Rlt_le_dec ydepK (K 0%Z)) as [Hlow|Hlow].
  - exists (-1)%Z. split; [now apply upper_index_empty|].
    split; [lia|]. intros k' Hk'. split; [|lia].
    intros Hle. pose proof (Hmono 0%Z k' ltac:(lia) ltac:(lia)). lra.
  - unfold upper_index.
    destruct (binary_val_post ydepK nk K Hnk)
      as (r & -> & Hrange & _ & Hhi & Hmid).
    destruct (Rle_or_lt ydepK (K (nk - 1)%Z)) as [Hin|Hout].
    + destruct (Hmid (conj Hlow Hin)) as [[-> ->]|(Hpos & Hle & Hprev)].
      * destruct (Rgt_dec (K 0%Z) ydepK) as [Hgt|_]; [lra|].
        exists 0%Z. split; [reflexivity|]. split; [lia|].
        intros k' Hk'. assert (k' = 0%Z) as -> by lia.
        split; [lia | intros _; assumption].
      * destruct (Rgt_dec (K r) ydepK) as [Hgt|Hngt].
        -- exists (r - 1)%Z. split; [reflexivity|]. split; [lia|].
           intros k' Hk'. split; intros Hk.
           ++ destruct (Z_le_gt_dec k' (r - 1)) as [|Hbig]; [assumption|].
              pose proof (Hmono r k' ltac:(lia) ltac:(lia)). lra.
           ++ apply Rle_trans with (K (r - 1)%Z).
              { apply Hmono; lia. }
              destruct Hprev as [H|[H|H]]; [lra | | lra].
              subst r. exact Hlow.
        -- exists r. split; [reflexivity|]. split; [lia|].
           intros k' Hk'. split; intros Hk.
           ++ destruct (Z_le_gt_dec k' r) as [|Hbig]; [assumption|].
              pose proof (Hinc r k' ltac:(lia) ltac:(lia)). lra.
           ++ apply Rle_trans with (K r); [apply Hmono; lia | lra].
    + rewrite (Hhi Hlow Hout).
      destruct (Rgt_dec (K (nk - 1)%Z) ydepK) as [Hgt|_]; [lra|].
      exists (nk - 1)%Z. split; [reflexivity|]. split; [lia|].
      intros k' Hk'. split; [lia|].
      intros _. apply Rle_trans with (K (nk - 1)%Z);
        [apply Hmono; lia | lra].
Qed.

Lemma upper_index_largest_affordable_witness :
  exists khi : Z,
    upper_index (5 / 2) 4 (of_list [1; 2; 3; 4]) = Some khi /\
    (-1 <= khi <= 4 - 1)%Z /\
    forall k' : Z, (0 <= k' < 4)%Z ->
      (of_list [1; 2; 3; 4] k' <= 5 / 2 <-> (k' <= khi)%Z).
Proof.
  apply upper_index_largest_affordable; [lia | increasing_list].
Defined.

(** ** The two maximisers *)

(** Whatever the objective, the index that [binary_max] writes lies in
    the bracket. *)
Lemma binary_max_member (pow : REAL -> REAL -> REAL) (klo nk nz : Z)
  (ydepK eta beta : REAL) (K P V0 : array) (nksub : Z) :
  (1 <= nksub)%Z ->
  exists g : Z,
    binary_max pow klo nksub nk nz ydepK eta beta K P V0
    = Some (objective pow klo nk nz ydepK eta beta K P V0 g,
            IZR (klo + g)) /\
    (0 <= g < nksub)%Z.
Proof.
  intros Hn. set (w := objective pow klo nk nz ydepK eta beta K P V0).
  assert (Hshape : forall (a b : Z),
             b = (klo + a)%Z -> (0 <= a < nksub)%Z ->
             exists g : Z,
               Some (w a, IZR b) = Some (w g, IZR (klo + g)) /\
               (0 <= g < nksub)%Z).
  { intros a b -> Ha. now exists a. }
  destruct (Z_lt_ge_dec 3 nksub) as [Hgt|Hle].
  - destruct (binary_max_cases pow klo nk nz ydepK eta beta K P V0
                (fun _ _ => True) nksub) as
      (lo & Hlo & Hhi & _ & [[_ ->]|[_ ->]]); auto; fold w.
    + destruct (Rgt_dec (w (lo + 1)%Z) (w (lo + 2)%Z));
        apply Hshape; lia.
    + destruct (Rgt_dec (w lo) (w (lo + 1)%Z)); apply Hshape; lia.
  - unfold binary_max, binary_max_fuel. fold w.
    destruct (Z.gtb_spec nksub 3) as [Hgt|_]; [lia|].
    destruct (Z.eqb_spec nksub 3) as [->|Hne].
    + simpl.
      destruct (Rgt_dec (w 1%Z) (w 0%Z));
        destruct (Rgt_dec (w 2%Z) _); apply Hshape; lia.
    + destruct (Rgt_dec (w (nksub - 1)%Z) (w 0%Z)); apply Hshape; lia.
Qed.

(** Property X5: over a bracket of [nksub >= 1] candidates [grid_max]
    writes the largest value of the objective and the smallest index of
    the bracket that attains it (offset by [klo]). *)
Theorem grid_max_first_maximiser (pow : REAL -> REAL -> REAL)
  (klo nksub nk nz : Z) (ydepK eta beta : REAL) (K P V0 : array) :
  (1 <= nksub)%Z ->
  let w := objective pow klo nk nz ydepK eta beta K P V0 in
  exists g : Z,
    grid_max pow klo nksub nk nz ydepK eta beta K P V0
    = (w g, IZR (klo + g)) /\
    (0 <= g < nksub)%Z /\
    (forall k : Z, (0 <= k < nksub)%Z -> w k <= w g) /\
    (forall k : Z, (0 <= k < g)%Z -> w k < w g).
Proof. intros Hn w. now apply grid_max_post. Qed.

Lemma grid_max_first_maximiser_witness :
  let w := objective libm_pow 0 4 1 5 2 (1 / 2) (of_list [1; 2; 3; 4])
             (of_list [1]) (of_list [0; 3; 5; 6]) in
  exists g : Z,
    grid_max libm_pow 0 4 4 1 5 2 (1 / 2) (of_list [1; 2; 3; 4])
      (of_list [1]) (of_list [0; 3; 5; 6])
    = (w g, IZR (0 + g)) /\
    (0 <= g < 4)%Z /\
    (forall k : Z, (0 <= k < 4)%Z -> w k <= w g) /\
    (forall k : Z, (0 <= k < g)%Z -> w k < w g).
Proof. apply grid_max_first_maximiser. lia. Defined.

(** Property X6: over a bracket of [nksub >= 1] candidates, and whatever
    the shape of the objective, [binary_max] returns; the index it writes
    lies in the bracket [[klo, klo + nksub - 1]] and the value it writes
    is the objective at that index. *)
Theorem binary_max_in_bracket (pow : REAL -> REAL -> REAL)
  (klo nksub nk nz : Z) (ydepK eta beta : REAL) (K P V0 : array) :
  (1 <= nksub)%Z ->
  exists g : Z,
    binary_max pow klo nksub nk nz ydepK eta beta K P V0
    = Some (objective pow klo nk nz ydepK eta beta K P V0 g,
            IZR (klo + g)) /\
    (0 <= g < nksub)%Z.
Proof. apply binary_max_member. Qed.

Lemma binary_max_in_bracket_witness :
  exists g : Z,
    binary_max libm_pow 0 4 4 1 5 2 (1 / 2) (of_list [1; 2; 3; 4])
      (of_list [1]) (of_list [0; 3; 5; 6])
    = Some (objective libm_pow 0 4 1 5 2 (1 / 2) (of_list [1; 2; 3; 4])
              (of_list [1]) (of_list [0; 3; 5; 6]) g,
            IZR (0 + g)) /\
    (0 <= g < 4)%Z.
Proof. apply binary_max_in_bracket. lia. Defined.

(** Property X7: over a bracket of one, two or three candidates
    [binary_max] compares them all, and writes the value and the index
    that [grid_max] writes, whatever the objective. *)
Theorem binary_max_small_bracket (pow : REAL -> REAL -> REAL)
  (klo nksub nk nz : Z) (ydepK eta beta : REAL) (K P V0 : array) :
  (1 <= nksub <= 3)%Z ->
  maximisers_agree pow klo nksub nk nz ydepK eta beta K P V0.
Proof.
  intros Hn. unfold maximisers_agree, binary_max, binary_max_fuel, grid_max.
  set (w := objective pow klo nk nz ydepK eta beta K P V0).
  assert (Hcases : (nksub = 1 \/ nksub = 2 \/ nksub = 3)%Z) by lia.
  destruct Hcases as [-> | [-> | ->]]; unfold for_loop; simpl.
  - destruct (Rgt_dec (w 0%Z) (w 0%Z)) as [H|_]; [lra | reflexivity].
  - destruct (Rgt_dec (w 1%Z) (w 0%Z)); reflexivity.
  - destruct (Rgt_dec (w 1%Z) (w 0%Z));
      destruct (Rgt_dec (w 2%Z) _);
      rewrite ?Z.add_0_r; reflexivity.
Qed.

Lemma binary_max_small_bracket_witness :
  maximisers_agree libm_pow 0 3 4 1 5 2 (1 / 2) (of_list [1; 2; 3; 4])
    (of_list [1]) (of_list [0; 3; 5; 6]).
Proof. apply binary_max_small_bracket. lia. Defined.

(** Property X8: when the objective is single-peaked over the bracket
    (it rises strictly up to its peak and falls strictly after it),
    [binary_max] writes its maximum over the whole bracket and an index
    that attains it. *)
Theorem binary_max_on_single_peaked (pow : REAL -> REAL -> REAL)
  (klo nksub nk nz : Z) (ydepK eta beta : REAL) (K P V0 : array) :
  (1 <= nksub)%Z ->
  single_peaked nksub (objective pow klo nk nz ydepK eta beta K P V0) ->
  let w := objective pow klo nk nz ydepK eta beta K P V0 in
  exists g : Z,
    binary_max pow klo nksub nk nz ydepK eta beta K P V0
    = Some (w g, IZR (klo + g)) /\
    (0 <= g < nksub)%Z /\
    forall k : Z, (0 <= k < nksub)%Z -> w k <= w g.
Proof. intros Hn Hpeak w. now apply binary_max_post. Qed.

Lemma binary_max_on_single_peaked_witness :
  let K := of_list [1; 2; 3; 4] in
  let P := of_list [1] in
  let V0 := of_list [0; 3; 5; 6] in
  let w := objective libm_pow 0 4 1 5 2 (1 / 2) K P V0 in
  exists g : Z,
    binary_max libm_pow 0 4 4 1 5 2 (1 / 2) K P V0
    = Some (w g, IZR (0 + g)) /\
    (0 <= g < 4)%Z /\
    forall k : Z, (0 <= k < 4)%Z -> w k <= w g.
Proof.
  intros K P V0.
  destruct tie_input_concave as (HK & HP & HU & HV).
  apply (binary_max_on_single_peaked libm_pow 0 4 4 1 5 2 (1 / 2) K P V0);
    [lia|].
  apply objective_single_peaked;
    [exact HK | lra | exact HP | exact HU | exact HV].
Defined.

(** ** [vfStep] at a state *)

(** Property X9: at the flat index [k + j * nk] of the state with capital
    index [k] and productivity index [j], the policy-fixed pass writes to
    [V[k + j*nk]] the Bellman objective of the stored policy index
    [(int) G[k + j*nk]], with the resources [Z[j] K[k]^alpha +
    (1 - delta) K[k]] of that state, and leaves [G] as it is. *)
Theorem vfStep_decodes_state (pow : REAL -> REAL -> REAL)
  (nk nz : Z) (eta beta alpha delta : REAL) (maxtype : ascii)
  (K Zg P V0 V G : array) (k j : Z) :
  (0 <= k < nk)%Z -> (0 <= j)%Z ->
  vfStep pow nk nz eta beta alpha delta maxtype true K Zg P V0 V G
    (k + j * nk)
  = Some (store V (k + j * nk)
            (bellman pow nk nz eta beta K P V0
               (resources pow alpha delta K Zg k j) j
               (int_of_real (G (k + j * nk)%Z))),
          G).
Proof.
  intros Hk Hj. rewrite vfStep_howard by lia. unfold ydepK_at.
  destruct (state_of_flat_index k j nk Hk Hj) as [Hrem Hquot].
  rewrite Hrem, Hquot. reflexivity.
Qed.

Lemma vfStep_decodes_state_witness :
  vfStep libm_pow 2 1 2 (1 / 2) (1 / 2) 0 "g" true
    (of_list [1; 2]) (of_list [2]) (of_list [1]) (of_list [0; 0])
    (fun _ => 0) (fun _ => 0) (1 + 0 * 2)
  = Some (store (fun _ => 0) (1 + 0 * 2)
            (bellman libm_pow 2 1 2 (1 / 2) (of_list [1; 2]) (of_list [1])
               (of_list [0; 0])
               (resources libm_pow (1 / 2) 0 (of_list [1; 2]) (of_list [2])
                  1 0)
               0 (int_of_real ((fun _ : Z => 0) (1 + 0 * 2)%Z))),
          fun _ => 0).
Proof. apply vfStep_decodes_state; lia. Defined.

(** Property X10: a maximisation pass whose [maxtype] is neither ['g']
    nor ['b'] returns without writing: [V] and [G] are unchanged, also at
    the state's own cell. *)
Theorem vfStep_unknown_maxtype_writes_nothing
  (pow : REAL -> REAL -> REAL) (nk nz : Z) (eta beta alpha delta : REAL)
  (maxtype : ascii) (K Zg P V0 V G : array) (hx : Z) :
  (1 <= nk)%Z -> maxtype <> "g"%char -> maxtype <> "b"%char ->
  vfStep pow nk nz eta beta alpha delta maxtype false K Zg P V0 V G hx
  = Some (V, G).
Proof. intros Hnk Hg Hb. now apply vfStep_other. Qed.

Lemma vfStep_unknown_maxtype_writes_nothing_witness :
  vfStep libm_pow 2 1 2 (1 / 2) (1 / 2) 0 "x" false
    (of_list [1; 2]) (of_list [2]) (of_list [1]) (of_list [0; 0])
    (of_list [7; 8]) (of_list [0; 1]) 0
  = Some (of_list [7; 8], of_list [0; 1]).
Proof.
  apply vfStep_unknown_maxtype_writes_nothing;
    [lia | discriminate | discriminate].
Defined.

(** Property X11: at a state whose resources are below the first grid
    point, [ydepK < K[0]], the grid-search pass does not search: it
    writes the policy index 0 and the objective of candidate 0, whose
    consumption [ydepK - K[0]] is negative. *)
Theorem vfStep_grid_below_grid (pow : REAL -> REAL -> REAL)
  (nk nz : Z) (eta beta alpha delta : REAL) (K Zg P V0 V G : array)
  (hx : Z) :
  (1 <= nk)%Z ->
  ydepK_at pow nk alpha delta K Zg hx < K 0%Z ->
  vfStep pow nk nz eta beta alpha delta "g" false K Zg P V0 V G hx
  = Some (store V hx
            (bellman pow nk nz eta beta K P V0
               (ydepK_at pow nk alpha delta K Zg hx)
               ((hx - Z.rem hx nk) ÷ nk) 0),
          store G hx 0).
Proof.
  intros Hnk Hlow.
  destruct (vfStep_grid pow nk nz eta beta alpha delta K Zg P V0 hx Hnk V G)
    as (khi & Hkhi & ->).
  rewrite (upper_index_empty _ nk K Hlow) in Hkhi. injection Hkhi as <-.
  unfold grid_max. rewrite for_loop_empty by lia.
  simpl fst. simpl snd. rewrite objective_bellman. reflexivity.
Qed.

Lemma vfStep_grid_below_grid_witness :
  vfStep libm_pow 2 1 2 (1 / 2) (1 / 2) 1 "g" false
    (of_list [1; 2]) (of_list [1 / 10]) (of_list [1]) (of_list [0; 0])
    (fun _ => 0) (fun _ => 0) 0
  = Some (store (fun _ => 0) 0
            (bellman libm_pow 2 1 2 (1 / 2) (of_list [1; 2]) (of_list [1])
               (of_list [0; 0])
               (ydepK_at libm_pow 2 (1 / 2) 1 (of_list [1; 2])
                  (of_list [1 / 10]) 0)
               ((0 - Z.rem 0 2) ÷ 2) 0),
          store (fun _ => 0) 0 0).
Proof.
  apply vfStep_grid_below_grid; [lia|].
  rewrite ydepK_below_grid. unfold of_list. simpl. lra.
Defined.

(** Property X12: at a state whose resources reach the first grid point,
    on a strictly increasing grid, the bisection pass writes a policy
    index that is in the grid and affordable, whatever the shape of the
    objective, together with the objective of that index; the index is
    recovered exactly by the conversion [(int) G[hx]] of the
    policy-fixed pass. *)
Theorem bisection_policy_affordable (pow : REAL -> REAL -> REAL)
  (nk nz : Z) (eta beta alpha delta : REAL) (K Zg P V0 V G : array)
  (hx : Z) :
  (1 <= nk)%Z -> increasing nk K ->
  K 0%Z <= ydepK_at pow nk alpha delta K Zg hx ->
  exists (V1 G1 : array) (g : Z),
    vfStep pow nk nz eta beta alpha delta "b" false K Zg P V0 V G hx
    = Some (V1, G1) /\
    G1 hx = IZR g /\ int_of_real (G1 hx) = g /\
    (0 <= g < nk)%Z /\
    K g <= ydepK_at pow nk alpha delta K Zg hx /\
    V1 hx = bellman pow nk nz eta beta K P V0
              (ydepK_at pow nk alpha delta K Zg hx)
              ((hx - Z.rem hx nk) ÷ nk) g.
Proof.
  intros Hnk Hinc Hfirst.
  destruct (vfStep_binary pow nk nz eta beta alpha delta K Zg P V0 hx Hnk
              V G) as (khi & v & gr & Hkhi & Hbin & Hstep).
  destruct (upper_index_post _ nk K Hnk Hinc Hfirst)
    as (khi' & Hkhi' & Hrange & Hfeas).
  rewrite Hkhi in Hkhi'. injection Hkhi' as <-.
  destruct (binary_max_member pow 0 nk nz
              (ydepK_at pow nk alpha delta K Zg hx) eta beta K
              (ptr_add P ((hx - Z.rem hx nk) ÷ nk)) (ptr_add V0 0)
              (khi - 0 + 1)) as (g & Hg & Hgr); [lia|].
  rewrite Hg in Hbin. injection Hbin as <- <-.
  exists (store V hx
            (objective pow 0 nk nz (ydepK_at pow nk alpha delta K Zg hx)
               eta beta K (ptr_add P ((hx - Z.rem hx nk) ÷ nk))
               (ptr_add V0 0) g)),
         (store G hx (IZR (0 + g))), g.
  split; [exact Hstep|]. rewrite !store_same.
  change (0 + g)%Z with g. rewrite int_of_real_IZR, objective_bellman.
  repeat split; try lia. apply Hfeas. lia.
Qed.

Lemma bisection_policy_affordable_witness :
  exists (V1 G1 : array) (g : Z),
    vfStep libm_pow 2 1 2 (1 / 2) (1 / 2) 0 "b" false
      (of_list [1; 2]) (of_list [2]) (of_list [1]) (of_list [0; 0])
      (fun _ => 0) (fun _ => 0) 0 = Some (V1, G1) /\
    G1 0%Z = IZR g /\ int_of_real (G1 0%Z) = g /\
    (0 <= g < 2)%Z /\
    of_list [1; 2] g
    <= ydepK_at libm_pow 2 (1 / 2) 0 (of_list [1; 2]) (of_list [2]) 0 /\
    V1 0%Z = bellman libm_pow 2 1 2 (1 / 2) (of_list [1; 2]) (of_list [1])
               (of_list [0; 0])
               (ydepK_at libm_pow 2 (1 / 2) 0 (of_list [1; 2])
                  (of_list [2]) 0)
               ((0 - Z.rem 0 2) ÷ 2) g.
Proof.
  apply bisection_policy_affordable.
  - lia.
  - increasing_list.
  - rewrite ydepK_above_grid. unfold of_list. simpl. lra.
Defined.

(** ** The Bellman step as an operator on [V0] *)

Lemma sum_loop_le (f g : Z -> REAL) (n : Z) :
  (forall m : Z, (0 <= m < n)%Z -> f m <= g m) ->
  for_loop 0 n (fun m s => s + f m) 0
  <= for_loop 0 n (fun m s => s + g m) 0.
Proof.
  intros H. destruct (Z_le_gt_dec 0 n) as [Hn|Hn].
  - apply (for_loop_inv
             (fun i s => for_loop 0 i (fun m s => s + f m) 0 <= s));
      [assumption | |].
    + rewrite for_loop_empty by lia. lra.
    + intros i t Hi Ht. rewrite for_loop_snoc by lia.
      specialize (H i Hi). lra.
  - rewrite !for_loop_empty by lia. lra.
Qed.

(** The upper index is at most the last index of the grid. *)
Lemma upper_index_range (ydepK : REAL) (nk : Z) (K : array) (khi : Z) :
  (1 <= nk)%Z -> upper_index ydepK nk K = Some khi ->
  (-1 <= khi <= nk - 1)%Z.
Proof.
  intros Hnk. unfold upper_index.
  destruct (binary_val_post ydepK nk K Hnk) as (r & -> & Hrange & _).
  intros H. injection H as <-.
  destruct (Rgt_dec (K r) ydepK); lia.
Qed.

(** Whatever the bracket, [grid_max] writes the first maximiser of the
    objective over the candidates it evaluates: the bracket, or
    candidate 0 alone when the bracket is empty. *)
Lemma grid_max_shape (pow : REAL -> REAL -> REAL) (klo nk nz : Z)
  (ydepK eta beta : REAL) (K P V0 : array) (nksub : Z) :
  let w := objective pow klo nk nz ydepK eta beta K P V0 in
  exists g : Z,
    grid_max pow klo nksub nk nz ydepK eta beta K P V0
    = (w g, IZR (klo + g)) /\
    (0 <= g < Z.max 1 nksub)%Z /\
    (forall k : Z, (0 <= k < Z.max 1 nksub)%Z -> w k <= w g) /\
    (forall k : Z, (0 <= k < g)%Z -> w k < w g).
Proof.
  intros w. destruct (Z_le_gt_dec 1 nksub) as [Hn|Hn].
  - destruct (grid_max_post pow klo nk nz ydepK eta beta K P V0 nksub Hn)
      as (g & Hg & Hr & Hmax & Hfirst).
    exists g. repeat split; try lia; try assumption.
    intros k Hk. apply Hmax. lia.
  - exists 0%Z. unfold grid_max. rewrite for_loop_empty by lia.
    repeat split; try lia.
    intros k Hk. assert (k = 0%Z) as -> by lia. lra.
Qed.

Section Operator.

Variable pow : REAL -> REAL -> REAL.
Variables nk nz : Z.
Variables eta beta : REAL.
Variables K P V0 V0' : array.
Variable ydepK : REAL.
Variable j : Z.

(** The expectation of a candidate moves with [V0] by at most the
    weighted shift. *)
Lemma expectation_le (k' : Z) (d : REAL) :
  (forall m : Z, (0 <= m < nz)%Z -> 0 <= P (j + m * nz)%Z) ->
  (forall m : Z, (0 <= m < nz)%Z ->
     V0' (k' + m * nk)%Z <= V0 (k' + m * nk)%Z + d) ->
  for_loop 0 nz (fun z' s => s + P (j + z' * nz)%Z * V0' (k' + z' * nk)%Z) 0
  <= for_loop 0 nz
       (fun z' s => s + P (j + z' * nz)%Z * V0 (k' + z' * nk)%Z) 0
     + d * row_sum nz P j.
Proof.
  intros HP HV. unfold row_sum.
  pose proof (sum_loop_linear
                (fun m => P (j + m * nz)%Z * V0 (k' + m * nk)%Z)
                (fun m => P (j + m * nz)%Z) 1 d nz) as E.
  cbv beta in E.
  pose proof (sum_loop_le
                (fun m => P (j + m * nz)%Z * V0' (k' + m * nk)%Z)
                (fun m => 1 * (P (j + m * nz)%Z * V0 (k' + m * nk)%Z)
                          + d * P (j + m * nz)%Z) nz) as L.
  cbv beta in L.
  assert (Hterm : forall m : Z, (0 <= m < nz)%Z ->
            P (j + m * nz)%Z * V0' (k' + m * nk)%Z
            <= 1 * (P (j + m * nz)%Z * V0 (k' + m * nk)%Z)
               + d * P (j + m * nz)%Z).
  { intros m Hm. specialize (HP m Hm). specialize (HV m Hm). nra. }
  specialize (L Hterm). lra.
Qed.

Lemma bellman_le (k' : Z) (d : REAL) :
  0 <= beta ->
  (forall m : Z, (0 <= m < nz)%Z -> 0 <= P (j + m * nz)%Z) ->
  (forall m : Z, (0 <= m < nz)%Z ->
     V0' (k' + m * nk)%Z <= V0 (k' + m * nk)%Z + d) ->
  bellman pow nk nz eta beta K P V0' ydepK j k'
  <= bellman pow nk nz eta beta K P V0 ydepK j k'
     + beta * (d * row_sum nz P j).
Proof.
  intros Hbeta HP HV. unfold bellman.
  pose proof (expectation_le k' d HP HV) as H. nra.
Qed.

End Operator.

(** The cells of [V0] that a candidate of the grid reads. *)
Lemma candidate_cell (nk nz l m : Z) :
  (0 <= l < nk)%Z -> (0 <= m < nz)%Z -> (0 <= l + m * nk < nk * nz)%Z.
Proof. intros Hl Hm. nia. Qed.

(** [grid_max] under a perturbation of the objective of at most [e]. *)
Lemma grid_max_le (pow : REAL -> REAL -> REAL) (klo nksub nk nz : Z)
  (ydepK eta beta : REAL) (K P V0 V0' : array) (e : REAL) :
  (forall l : Z, (0 <= l < Z.max 1 nksub)%Z ->
     objective pow klo nk nz ydepK eta beta K P V0' l
     <= objective pow klo nk nz ydepK eta beta K P V0 l + e) ->
  fst (grid_max pow klo nksub nk nz ydepK eta beta K P V0')
  <= fst (grid_max pow klo nksub nk nz ydepK eta beta K P V0) + e.
Proof.
  intros Hle.
  destruct (grid_max_shape pow klo nk nz ydepK eta beta K P V0 nksub)
    as (g & -> & Hg & Hmax & _).
  destruct (grid_max_shape pow klo nk nz ydepK eta beta K P V0' nksub)
    as (g' & -> & Hg' & _ & _).
  simpl fst. specialize (Hle g' Hg'). specialize (Hmax g' Hg'). lra.
Qed.

(** Two grid-search passes at the same state, from [V0] and from [V0'],
    search the same bracket. *)
Lemma vfStep_grid_pair (pow : REAL -> REAL -> REAL) (nk nz : Z)
  (eta beta alpha delta : REAL) (K Zg P V0 V0' V G : array) (hx : Z) :
  (1 <= nk)%Z ->
  let ydepK := ydepK_at pow nk alpha delta K Zg hx in
  let j := ((hx - Z.rem hx nk) ÷ nk)%Z in
  exists khi : Z,
    upper_index ydepK nk K = Some khi /\
    (-1 <= khi <= nk - 1)%Z /\
    vfStep pow nk nz eta beta alpha delta "g" false K Zg P V0 V G hx
    = Some (store V hx
              (fst (grid_max pow 0 (khi - 0 + 1) nk nz ydepK eta beta K
                      (ptr_add P j) (ptr_add V0 0))),
            store G hx
              (snd (grid_max pow 0 (khi - 0 + 1) nk nz ydepK eta beta K
                      (ptr_add P j) (ptr_add V0 0)))) /\
    vfStep pow nk nz eta beta alpha delta "g" false K Zg P V0' V G hx
    = Some (store V hx
              (fst (grid_max pow 0 (khi - 0 + 1) nk nz ydepK eta beta K
                      (ptr_add P j) (ptr_add V0' 0))),
            store G hx
              (snd (grid_max pow 0 (khi - 0 + 1) nk nz ydepK eta beta K
                      (ptr_add P j) (ptr_add V0' 0)))).
Proof.
  intros Hnk ydepK j.
  destruct (vfStep_grid pow nk nz eta beta alpha delta K Zg P V0 hx Hnk V G)
    as (khi & Hkhi & Hstep).
  destruct (vfStep_grid pow nk nz eta beta alpha delta K Zg P V0' hx Hnk V G)
    as (khi' & Hkhi' & Hstep').
  rewrite Hkhi in Hkhi'. injection Hkhi' as <-.
  exists khi. split; [exact Hkhi|].
  split; [exact (upper_index_range _ nk K khi Hnk Hkhi)|].
  split; assumption.
Qed.

Ltac one_state_weights :=
  let m := fresh "m" in
  let Hm := fresh "Hm" in
  intros m Hm; assert (m = 0%Z) as -> by lia;
  unfold of_list; simpl; lra.

(** Property X13: the grid-search pass is monotone in [V0].  With
    [beta >= 0] and non-negative transition weights out of the state's
    productivity, raising [V0] on the cells of the grid cannot lower the
    value written at the state. *)
Theorem bellman_grid_pass_monotone (pow : REAL -> REAL -> REAL)
  (nk nz : Z) (eta beta alpha delta : REAL) (K Zg P V0 V0' V G : array)
  (hx : Z) :
  (1 <= nk)%Z -> 0 <= beta ->
  (forall m : Z, (0 <= m < nz)%Z ->
     0 <= P ((hx - Z.rem hx nk) ÷ nk + m * nz)%Z) ->
  (forall i : Z, (0 <= i < nk * nz)%Z -> V0 i <= V0' i) ->
  exists V1 G1 V1' G1' : array,
    vfStep pow nk nz eta beta alpha delta "g" false K Zg P V0 V G hx
    = Some (V1, G1) /\
    vfStep pow nk nz eta beta alpha delta "g" false K Zg P V0' V G hx
    = Some (V1', G1') /\
    V1 hx <= V1' hx.
Proof.
  intros Hnk Hbeta HP HV.
  destruct (vfStep_grid_pair pow nk nz eta beta alpha delta K Zg P V0 V0'
              V G hx Hnk) as (khi & _ & Hrange & Hstep & Hstep').
  do 4 eexists. split; [exact Hstep|]. split; [exact Hstep'|].
  rewrite !store_same.
  pose proof (grid_max_le pow 0 (khi - 0 + 1) nk nz
                (ydepK_at pow nk alpha delta K Zg hx) eta beta K
                (ptr_add P ((hx - Z.rem hx nk) ÷ nk))
                (ptr_add V0' 0) (ptr_add V0 0) 0) as Hle.
  rewrite Rplus_0_r in Hle. apply Hle.
  intros l Hl. rewrite !objective_bellman.
  pose proof (bellman_le pow nk nz eta beta K P V0' V0
                (ydepK_at pow nk alpha delta K Zg hx)
                ((hx - Z.rem hx nk) ÷ nk) l 0 Hbeta HP) as Hb.
  rewrite Rmult_0_l, Rmult_0_r in Hb. apply Hb.
  intros m Hm. rewrite Rplus_0_r. apply HV, candidate_cell; lia.
Qed.

Lemma bellman_grid_pass_monotone_witness :
  exists V1 G1 V1' G1' : array,
    vfStep libm_pow 2 1 2 (1 / 2) (1 / 2) 0 "g" false
      (of_list [1; 2]) (of_list [2]) (of_list [1]) (of_list [0; 0])
      (fun _ => 0) (fun _ => 0) 0 = Some (V1, G1) /\
    vfStep libm_pow 2 1 2 (1 / 2) (1 / 2) 0 "g" false
      (of_list [1; 2]) (of_list [2]) (of_list [1]) (of_list [1; 3])
      (fun _ => 0) (fun _ => 0) 0 = Some (V1', G1') /\
    V1 0%Z <= V1' 0%Z.
Proof.
  apply bellman_grid_pass_monotone.
  - lia.
  - lra.
  - one_state_weights.
  - intros i Hi. index_cases i; try lia; unfold of_list; simpl; lra.
Defined.

(** Property X16: the policy-fixed pass is monotone in [V0].  For a
    stored policy index inside the grid, [beta >= 0] and non-negative
    transition weights out of the state's productivity, raising [V0] on
    the cells of the grid cannot lower the value written at the state. *)
Theorem howard_pass_monotone (pow : REAL -> REAL -> REAL)
  (nk nz : Z) (eta beta alpha delta : REAL) (maxtype : ascii)
  (K Zg P V0 V0' V G : array) (hx : Z) :
  (1 <= nk)%Z -> 0 <= beta ->
  (0 <= int_of_real (G hx) < nk)%Z ->
  (forall m : Z, (0 <= m < nz)%Z ->
     0 <= P ((hx - Z.rem hx nk) ÷ nk + m * nz)%Z) ->
  (forall i : Z, (0 <= i < nk * nz)%Z -> V0 i <= V0' i) ->
  exists V2 G2 V2' G2' : array,
    vfStep pow nk nz eta beta alpha delta maxtype true K Zg P V0 V G hx
    = Some (V2, G2) /\
    vfStep pow nk nz eta beta alpha delta maxtype true K Zg P V0' V G hx
    = Some (V2', G2') /\
    V2 hx <= V2' hx.
Proof.
  intros Hnk Hbeta Hg HP HV.
  do 4 eexists.
  split; [now apply vfStep_howard|]. split; [now apply vfStep_howard|].
  rewrite !store_same.
  pose proof (bellman_le pow nk nz eta beta K P V0' V0
                (ydepK_at pow nk alpha delta K Zg hx)
                ((hx - Z.rem hx nk) ÷ nk) (int_of_real (G hx)) 0
                Hbeta HP) as Hb.
  rewrite Rmult_0_l, Rmult_0_r, Rplus_0_r in Hb. apply Hb.
  intros m Hm. rewrite Rplus_0_r. apply HV, candidate_cell; lia.
Qed.

Lemma howard_pass_monotone_witness :
  exists V2 G2 V2' G2' : array,
    vfStep libm_pow 2 1 2 (1 / 2) (1 / 2) 0 "g" true
      (of_list [1; 2]) (of_list [2]) (of_list [1]) (of_list [0; 1])
      (fun _ => 0) (fun _ => IZR 1) 0 = Some (V2, G2) /\
    vfStep libm_pow 2 1 2 (1 / 2) (1 / 2) 0 "g" true
      (of_list [1; 2]) (of_list [2]) (of_list [1]) (of_list [1; 3])
      (fun _ => 0) (fun _ => IZR 1) 0 = Some (V2', G2') /\
    V2 0%Z <= V2' 0%Z.
Proof.
  apply howard_pass_monotone.
  - lia.
  - lra.
  - rewrite int_of_real_IZR. lia.
  - one_state_weights.
  - intros i Hi. index_cases i; try lia; unfold of_list; simpl; lra.
Defined.

(** ** The transition matrix *)

(** Property X17: for [nz >= 2], one application of [transMat] at the
    origin index [ix] writes the cells [ix + jx * nz] of row [ix] and no
    other cell, and what it writes there does not depend on what the
    buffer held before. *)
Theorem transMat_writes_only_its_row (pow : REAL -> REAL -> REAL)
  (erf log : REAL -> REAL) (nz : Z) (mu sigma rho : REAL) (Zg P : array)
  (ix : Z) :
  (2 <= nz)%Z ->
  (forall c : Z,
      (forall jx : Z, (0 <= jx < nz)%Z -> c <> (ix + jx * nz)%Z) ->
      transMat pow erf log nz mu sigma rho Zg P ix c = P c) /\
  (forall (Q : array) (j : Z), (0 <= j < nz)%Z ->
     transMat pow erf log nz mu sigma rho Zg P ix (ix + j * nz)%Z
     = transMat pow erf log nz mu sigma rho Zg Q ix (ix + j * nz)%Z).
Proof.
  intros Hnz. split.
  - now apply transMat_post.
  - intros Q j Hj. now rewrite !transMat_row.
Qed.

Lemma transMat_writes_only_its_row_witness :
  (forall c : Z,
      (forall jx : Z, (0 <= jx < 3)%Z -> c <> (1 + jx * 3)%Z) ->
      transMat libm_pow (fun x => x) ln 3 0 1 0 (of_list [1; 2; 4])
        (fun _ => 7) 1 c = (fun _ : Z => 7) c) /\
  (forall (Q : array) (j : Z), (0 <= j < 3)%Z ->
     transMat libm_pow (fun x => x) ln 3 0 1 0 (of_list [1; 2; 4])
       (fun _ => 7) 1 (1 + j * 3)%Z
     = transMat libm_pow (fun x => x) ln 3 0 1 0 (of_list [1; 2; 4])
         Q 1 (1 + j * 3)%Z).
Proof. apply transMat_writes_only_its_row. lia. Defined.

(** Property X18: the applications of [transMat] to different origin
    indices do not interfere.  After one application for every origin
    index of a list, in the order of the list, a row of the list holds
    what a single application to the initial buffer writes in it, and a
    row that is not in the list holds what it held before. *)
Theorem transMat_pass_rows_independent (pow : REAL -> REAL -> REAL)
  (erf log : REAL -> REAL) (nz : Z) (mu sigma rho : REAL) (Zg P : array)
  (l : list Z) (i j : Z) :
  (2 <= nz)%Z ->
  (forall ix : Z, In ix l -> (0 <= ix < nz)%Z) ->
  (0 <= i < nz)%Z -> (0 <= j < nz)%Z ->
  let P' :=
    fold_left (fun A ix => transMat pow erf log nz mu sigma rho Zg A ix)
      l P in
  (In i l ->
   P' (i + j * nz)%Z
   = transMat pow erf log nz mu sigma rho Zg P i (i + j * nz)%Z) /\
  (~ In i l -> P' (i + j * nz)%Z = P (i + j * nz)%Z).
Proof.
  intros Hnz Hl Hi Hj P'.
  assert (Hkeep : forall (l' : list Z) (A : array),
            (forall ix : Z, In ix l' -> (0 <= ix < nz)%Z) ->
            ~ In i l' ->
            fold_left
              (fun A ix => transMat pow erf log nz mu sigma rho Zg A ix)
              l' A (i + j * nz)%Z
            = A (i + j * nz)%Z).
  { induction l' as [|b l' IH']; intros A Hl' Hnot; [reflexivity|].
    simpl. rewrite IH'.
    - apply transMat_other_cells; try assumption.
      + apply Hl'. now left.
      + intros ->. apply Hnot. now left.
    - intros ix Hix. apply Hl'. now right.
    - intros Hin. apply Hnot. now right. }
  split; [|now apply Hkeep].
  unfold P'. clear P'. revert P.
  induction l as [|a l IH]; intros P Hin; [contradiction|].
  simpl.
  assert (Hl' : forall ix : Z, In ix l -> (0 <= ix < nz)%Z)
    by (intros ix Hix; apply Hl; now right).
  destruct (in_dec Z.eq_dec i l) as [Hil|Hnil].
  - rewrite (IH Hl' _ Hil). now rewrite !transMat_row.
  - destruct Hin as [->|Hil]; [|contradiction].
    now apply Hkeep.
Qed.

Lemma transMat_pass_rows_independent_witness :
  let P' :=
    fold_left
      (fun A ix => transMat libm_pow (fun x => x) ln 3 0 1 0
                     (of_list [1; 2; 4]) A ix)
      [1%Z; 0%Z] (fun _ => 7) in
  (In 1%Z [1%Z; 0%Z] ->
   P' (1 + 2 * 3)%Z
   = transMat libm_pow (fun x => x) ln 3 0 1 0 (of_list [1; 2; 4])
       (fun _ => 7) 1 (1 + 2 * 3)%Z) /\
  (~ In 1%Z [1%Z; 0%Z] -> P' (1 + 2 * 3)%Z = (fun _ : Z => 7) (1 + 2 * 3)%Z).
Proof.
  apply (transMat_pass_rows_independent libm_pow (fun x => x) ln 3 0 1 0
           (of_list [1; 2; 4]) (fun _ => 7) [1%Z; 0%Z] 1 2).
  - lia.
  - intros ix [<-|[<-|[]]]; lia.
  - lia.
  - lia.
Defined.

(** ** The entries of the transition matrix as probabilities *)

Section Masses.

Variable pow : REAL -> REAL -> REAL.
Variable log : REAL -> REAL.
Variable nz : Z.
Variables mu sigma rho : REAL.
Variable Zg : array.
Variable ix : Z.

Hypothesis Hnz : (2 <= nz)%Z.
Hypothesis Hsigma : 0 < sigma.
Hypothesis Hroot : 0 < pow 2 0.5.
Hypothesis Hends : log (Zg 0%Z) <= log (Zg (nz - 1)%Z).

Let zstep : REAL := (log (Zg (nz - 1)%Z) - log (Zg 0%Z)) / IZR (nz - 1).

(** The two arguments of [erf] for the column [j]: the lower edge of the
    interval around the grid point [j] is not above its upper edge. *)
Lemma lower_below_upper (j : Z) :
  ((log (Zg j) - mu - rho * log (Zg ix)) / sigma - 0.5 * zstep / sigma)
  / pow 2 0.5
  <= ((log (Zg j) - mu - rho * log (Zg ix)) / sigma + 0.5 * zstep / sigma)
     / pow 2 0.5.
Proof.
  assert (Hn : 0 < IZR (nz - 1)) by (apply IZR_lt; lia).
  assert (Hstep : 0 <= zstep).
  { unfold zstep. apply Rmult_le_pos; [lra|].
    left. now apply Rinv_0_lt_compat. }
  assert (Hhalf : 0 <= 0.5 * zstep / sigma).
  { apply Rmult_le_pos; [lra|]. left. now apply Rinv_0_lt_compat. }
  apply Rmult_le_compat_r; [left; now apply Rinv_0_lt_compat | lra].
Qed.

End Masses.

(** Property X19: with [sigma > 0], [pow(2, 0.5) > 0], a productivity
    grid whose last point is not below its first in logs, and an [erf]
    that is non-decreasing with values in [[-1, 1]], every entry that
    [transMat] writes before the last column is a mass between 0 and
    1. *)
Theorem transMat_masses_in_unit_interval (pow : REAL -> REAL -> REAL)
  (erf log : REAL -> REAL) (nz : Z) (mu sigma rho : REAL) (Zg P : array)
  (ix j : Z) :
  (2 <= nz)%Z -> 0 < sigma -> 0 < pow 2 0.5 ->
  (forall a b : REAL, a <= b -> erf a <= erf b) ->
  (forall a : REAL, -1 <= erf a <= 1) ->
  log (Zg 0%Z) <= log (Zg (nz - 1)%Z) ->
  (0 <= j < nz - 1)%Z ->
  0 <= transMat pow erf log nz mu sigma rho Zg P ix (ix + j * nz)%Z <= 1.
Proof.
  intros Hnz Hsigma Hroot Hmono Hbound Hends Hj.
  destruct (transMat_post pow erf log nz mu sigma rho Zg P ix Hnz)
    as (Hcols & _ & _).
  rewrite Hcols by assumption. unfold tauchen.
  destruct (Z.eqb_spec j 0) as [_|_].
  - match goal with |- 0 <= 0.5 + 0.5 * erf ?a <= 1 =>
      pose proof (Hbound a) end. lra.
  - pose proof (lower_below_upper pow log nz mu sigma rho Zg ix
                  Hnz Hsigma Hroot Hends j) as Hlu.
    cbv beta zeta in Hlu. apply Hmono in Hlu.
    match goal with |- 0 <= 0.5 * erf ?a - 0.5 * erf ?b <= 1 =>
      pose proof (Hbound a); pose proof (Hbound b) end. lra.
Qed.

Lemma transMat_masses_in_unit_interval_witness :
  0 <= transMat libm_pow (fun x => if Rlt_dec x 0 then -1 else 1)
         (fun x => x) 3 0 1 0 (of_list [1; 2; 3]) (fun _ => 7) 0
         (0 + 1 * 3)%Z <= 1.
Proof.
  apply (transMat_masses_in_unit_interval libm_pow
           (fun x => if Rlt_dec x 0 then -1 else 1) (fun x => x) 3 0 1 0
           (of_list [1; 2; 3]) (fun _ => 7) 0 1).
  - lia.
  - lra.
  - rewrite libm_pow_positive_base by lra. apply exp_pos.
  - intros a b Hab. destruct (Rlt_dec a 0), (Rlt_dec b 0); lra.
  - intros a. destruct (Rlt_dec a 0); lra.
  - unfold of_list. simpl. lra.
  - lia.
Defined.

(** ** The productivity grid *)

(** Property X20: for [nz >= 2], [sigma > 0], [lambda > 0] and a positive
    [sqrt(1 - rho^2)], with an [exp] that is positive and strictly
    increasing and a [log] that inverts it, the grid of [ar1Vals] is
    positive, strictly increasing and equally spaced in logs. *)
Theorem ar1Vals_log_spaced (pow : REAL -> REAL -> REAL)
  (log exp sqrt : REAL -> REAL) (nz : Z) (lambda mu sigma rho : REAL) :
  (2 <= nz)%Z -> 0 < sigma -> 0 < lambda ->
  0 < sqrt (1 - pow rho 2) ->
  (forall a b : REAL, a < b -> exp a < exp b) ->
  (forall a : REAL, 0 < exp a) ->
  (forall a : REAL, log (exp a) = a) ->
  let Zf := ar1Vals pow exp sqrt nz lambda mu sigma rho in
  increasing nz Zf /\ positive nz Zf /\
  log (Zf 0%Z) <= log (Zf (nz - 1)%Z) /\
  forall j : Z,
    log (Zf (j + 1)%Z) - log (Zf j)
    = (log (Zf (nz - 1)%Z) - log (Zf 0%Z)) / IZR (nz - 1).
Proof.
  intros Hnz Hsigma Hlambda Hroot Hinc Hpos Hlog Zf.
  assert (Hn : 0 < IZR (nz - 1)) by (apply IZR_lt; lia).
  set (sigma_z := sigma / sqrt (1 - pow rho 2)).
  set (zmin := mu * (1 / (1 - rho)) - lambda * sigma_z).
  set (zmax := mu * (1 / (1 - rho)) + lambda * sigma_z).
  set (zstep := (zmax - zmin) / IZR (nz - 1)).
  assert (Hsz : 0 < sigma_z) by now apply Rdiv_lt_0_compat.
  assert (Hstep : 0 < zstep).
  { apply Rdiv_lt_0_compat; [|assumption].
    unfold zmax, zmin. nra. }
  assert (HZ : forall i : Z, Zf i = exp (zmin + zstep * IZR i))
    by reflexivity.
  assert (HL : forall i : Z, log (Zf i) = zmin + zstep * IZR i)
    by (intros i; now rewrite HZ, Hlog).
  split; [|split; [|split]].
  - intros i j Hij Hj. rewrite !HZ. apply Hinc.
    assert (IZR i < IZR j) by (apply IZR_lt; lia). nra.
  - intros i Hi. rewrite HZ. apply Hpos.
  - rewrite !HL. assert (0 <= IZR (nz - 1)) by lra. simpl. nra.
  - intros j. rewrite !HL, plus_IZR. simpl. field. lra.
Qed.

Lemma ar1Vals_log_spaced_witness :
  let Zf := ar1Vals libm_pow exp sqrt 3 3 0 1 0 in
  increasing 3 Zf /\ positive 3 Zf /\
  ln (Zf 0%Z) <= ln (Zf (3 - 1)%Z) /\
  forall j : Z,
    ln (Zf (j + 1)%Z) - ln (Zf j)
    = (ln (Zf (3 - 1)%Z) - ln (Zf 0%Z)) / IZR (3 - 1).
Proof.
  assert (Hpow : libm_pow 0 2 = 0).
  { unfold libm_pow.
    destruct (Rlt_dec 0 0) as [H|_]; [lra|].
    destruct (Rlt_dec 0 2) as [_|H]; [reflexivity | lra]. }
  apply (ar1Vals_log_spaced libm_pow ln exp sqrt 3 3 0 1 0).
  - lia.
  - lra.
  - lra.
  - rewrite Hpow. replace (1 - 0) with 1 by lra. rewrite sqrt_1. lra.
  - apply exp_increasing.
  - apply exp_pos.
  - apply ln_exp.
Defined.

(** A loop that stores [f i] at the offset [i + off] for [i] from 0. *)
Lemma fill_loop (f : Z -> REAL) (off n : Z) (A : array) (c : Z) :
  for_loop 0 n (fun i A => store A (i + off) (f i)) A c
  = if ((off <=? c) && (c <? off + n))%Z then f (c - off)%Z else A c.
Proof.
  destruct (Z_le_gt_dec 0 n) as [Hn|Hn].
  - apply (for_loop_inv
             (fun (i : Z) (B : array) =>
                B c = if ((off <=? c) && (c <? off + i))%Z
                      then f (c - off)%Z else A c));
      [assumption | |].
    + destruct (Z.leb_spec off c), (Z.ltb_spec c (off + 0)); simpl;
        try reflexivity; lia.
    + intros i B Hi HB. unfold store.
      destruct (Z.eqb_spec c (i + off)) as [->|Hne].
      * replace (i + off - off)%Z with i by lia.
        destruct (Z.leb_spec off (i + off)),
                 (Z.ltb_spec (i + off) (off + (i + 1))); simpl;
          try reflexivity; lia.
      * rewrite HB.
        destruct (Z.leb_spec off c), (Z.ltb_spec c (off + i)),
                 (Z.ltb_spec c (off + (i + 1))); simpl;
          try reflexivity; lia.
  - rewrite for_loop_empty by lia.
    destruct (Z.leb_spec off c), (Z.ltb_spec c (off + n)); simpl;
      try reflexivity; lia.
Qed.

(** Property X21: the function [ar1] writes the cells [Z[0 .. nz-1]]
    and no other cell of [Z]; the values it writes are those of the
    functor [ar1Vals] when the two ways in which they compute the mean
    and the standard deviation of the stationary distribution agree:
    [mu/(1 - rho)] against [mu*(1/(1 - rho))] (they agree for [mu = 0])
    and [pow(., 0.5)] against [sqrt]. *)
Theorem ar1_grid_is_ar1Vals (pow : REAL -> REAL -> REAL)
  (erf log exp sqrt : REAL -> REAL) (nz : Z) (mu rho sigma lambda : REAL)
  (Zg P : array) (ix : Z) :
  mu / (1 - rho) = mu * (1 / (1 - rho)) ->
  pow (1 - pow rho 2) 0.5 = sqrt (1 - pow rho 2) ->
  fst (ar1 pow erf log exp sqrt nz mu rho sigma lambda Zg P) ix
  = if ((0 <=? ix) && (ix <? nz))%Z
    then ar1Vals pow exp sqrt nz lambda mu sigma rho ix
    else Zg ix.
Proof.
  intros Hmean Hroot. unfold ar1. cbv zeta. simpl fst.
  rewrite (for_loop_ext 0 nz _
             (fun i A =>
                store A (i + 0)
                  (ar1Vals pow exp sqrt nz lambda mu sigma rho i))).
  - rewrite fill_loop. simpl.
    destruct ((0 <=? ix) && (ix <? nz))%Z; [|reflexivity].
    now rewrite Z.sub_0_r.
  - intros i A Hi. rewrite Z.add_0_r.
    unfold ar1Vals. now rewrite Hroot, Hmean.
Qed.

Lemma ar1_grid_is_ar1Vals_witness :
  fst (ar1 libm_pow (fun x => x) ln exp sqrt 3 0 0 1 3 (fun _ => 0)
         (fun _ => 0)) 1%Z
  = if ((0 <=? 1) && (1 <? 3))%Z
    then ar1Vals libm_pow exp sqrt 3 3 0 1 0 1
    else (fun _ : Z => 0) 1%Z.
Proof.
  apply ar1_grid_is_ar1Vals.
  - lra.
  - assert (Hpow : libm_pow 0 2 = 0).
    { unfold libm_pow.
      destruct (Rlt_dec 0 0) as [H|_]; [lra|].
      destruct (Rlt_dec 0 2) as [_|H]; [reflexivity | lra]. }
    rewrite Hpow. replace (1 - 0) with 1 by lra.
    now rewrite libm_pow_base_one, sqrt_1.
Defined.

(** ** The initial value function *)

(** The value that [vfInit] stores in the cells of its column. *)
Lemma vfInit_column_value (pow : REAL -> REAL -> REAL) (nk : Z)
  (eta beta alpha delta : REAL) (Zg V : array) (jx ix : Z) :
  (0 <= ix < nk)%Z ->
  vfInit pow nk eta beta alpha delta Zg V jx (ix + jx * nk)%Z
  = pow (Zg jx
         * pow (pow ((1 / (alpha * Zg jx)) * ((1 / beta) - 1 + delta))
                  (1 / (alpha - 1))) alpha
         - delta
           * pow ((1 / (alpha * Zg jx)) * ((1 / beta) - 1 + delta))
               (1 / (alpha - 1)))
      (1 - eta) / (1 - eta).
Proof.
  intros Hix. unfold vfInit. cbv zeta.
  rewrite (fill_loop (fun _ => _) (jx * nk) nk V (ix + jx * nk)).
  destruct (Z.leb_spec (jx * nk) (ix + jx * nk)),
           (Z.ltb_spec (ix + jx * nk) (jx * nk + nk)); simpl;
    try reflexivity; lia.
Qed.

(** Property X22: one application of [vfInit] at the productivity index
    [jx] writes one and the same value to the [nk] cells
    [V[jx*nk .. jx*nk + nk - 1]] of that productivity, the value
    function being flat in capital, and changes no other cell. *)
Theorem vfInit_fills_column (pow : REAL -> REAL -> REAL) (nk : Z)
  (eta beta alpha delta : REAL) (Zg V : array) (jx c : Z) :
  let Kj :=
    pow ((1 / (alpha * Zg jx)) * ((1 / beta) - 1 + delta))
      (1 / (alpha - 1)) in
  let Vj := pow (Zg jx * pow Kj alpha - delta * Kj) (1 - eta) / (1 - eta) in
  vfInit pow nk eta beta alpha delta Zg V jx c
  = if ((jx * nk <=? c) && (c <? jx * nk + nk))%Z then Vj else V c.
Proof.
  intros Kj Vj. unfold vfInit. fold Kj. fold Vj.
  exact (fill_loop (fun _ => Vj) (jx * nk) nk V c).
Qed.

(** Property X23: for [alpha], [beta] in (0,1), [delta >= 0] and a
    positive productivity [Z[jx]], the initial value that [vfInit]
    writes is the utility [c^(1-eta)/(1-eta)] of the consumption
    [c = k* ((1/beta - 1 + delta)/alpha - delta)] at the steady-state
    capital [k* = k*(Z[jx])]; this consumption is output less
    depreciation at [k*], and it is positive. *)
Theorem vfInit_steady_state_value (pow : REAL -> REAL -> REAL) (nk : Z)
  (eta beta alpha delta : REAL) (Zg V : array) (jx ix : Z) :
  (forall x y : REAL, 0 < x -> pow x y = Rpower x y) ->
  0 < alpha < 1 -> 0 < beta < 1 -> 0 <= delta -> 0 < Zg jx ->
  (0 <= ix < nk)%Z ->
  let ks := kstar alpha beta delta (Zg jx) in
  let c := ks * ((1 / beta - 1 + delta) / alpha - delta) in
  0 < c /\
  c = Zg jx * Rpower ks alpha - delta * ks /\
  vfInit pow nk eta beta alpha delta Zg V jx (ix + jx * nk)%Z
  = Rpower c (1 - eta) / (1 - eta).
Proof.
  intros Hpow Halpha Hbeta Hdelta Hz Hix ks c.
  assert (Hd : 1 < 1 / beta).
  { unfold Rdiv. rewrite Rmult_1_l. rewrite <- Rinv_1 at 1.
    apply Rinv_lt_contravar; lra. }
  assert (Hr : 0 < 1 / beta - 1 + delta) by lra.
  set (b := 1 / (alpha * Zg jx) * (1 / beta - 1 + delta)).
  set (e := 1 / (alpha - 1)).
  assert (Hb : 0 < b).
  { unfold b. apply Rmult_lt_0_compat; [|assumption].
    apply Rdiv_lt_0_compat; [lra | nra]. }
  assert (Hks : 0 < ks) by apply exp_pos.
  assert (Hprod : Zg jx * Rpower ks alpha
                  = ks * ((1 / beta - 1 + delta) / alpha)).
  { unfold ks, kstar. fold b. fold e.
    rewrite Rpower_mult.
    replace (e * alpha) with (e + 1) by (unfold e; field; lra).
    rewrite Rpower_plus, Rpower_1 by assumption.
    replace ((1 / beta - 1 + delta) / alpha) with (Zg jx * b)
      by (unfold b; field; lra).
    ring. }
  assert (Hca : 1 / beta - 1 + delta < (1 / beta - 1 + delta) / alpha).
  { apply Rmult_lt_reg_r with alpha; [lra|].
    unfold Rdiv. rewrite Rmult_assoc, Rinv_l by lra. nra. }
  assert (Hc : 0 < c) by (unfold c; apply Rmult_lt_0_compat; lra).
  assert (Hceq : c = Zg jx * Rpower ks alpha - delta * ks)
    by (rewrite Hprod; unfold c; ring).
  split; [exact Hc|]. split; [exact Hceq|].
  rewrite vfInit_column_value by assumption.
  fold b. fold e. rewrite (Hpow b e Hb).
  change (Rpower b e) with ks.
  rewrite (Hpow ks alpha Hks), <- Hceq. now rewrite Hpow.
Qed.

Lemma vfInit_steady_state_value_witness :
  let ks := kstar (1 / 2) (1 / 2) 0 (of_list [2] 0%Z) in
  let c := ks * ((1 / (1 / 2) - 1 + 0) / (1 / 2) - 0) in
  0 < c /\
  c = of_list [2] 0%Z * Rpower ks (1 / 2) - 0 * ks /\
  vfInit libm_pow 2 2 (1 / 2) (1 / 2) 0 (of_list [2]) (fun _ => 0) 0
    (1 + 0 * 2)%Z
  = Rpower c (1 - 2) / (1 - 2).
Proof.
  apply (vfInit_steady_state_value libm_pow 2 2 (1 / 2) (1 / 2) 0
           (of_list [2]) (fun _ => 0) 0 1).
  - apply libm_pow_positive_base.
  - lra.
  - lra.
  - lra.
  - unfold of_list. simpl. lra.
  - lia.
Defined.

(** ** The capital grid and the states *)

(** Property X24: the capital grid of [kGrid] brackets the steady states:
    for every productivity [Z[j]] of the grid, the steady-state capital
    [k*(Z[j])] that [vfInit] starts from lies strictly between the first
    and the last grid point. *)
Theorem steady_states_inside_grid (pow : REAL -> REAL -> REAL)
  (nk nz : Z) (beta alpha delta : REAL) (Zg : array) (j : Z) :
  (forall x y : REAL, 0 < x -> pow x y = Rpower x y) ->
  (2 <= nk)%Z -> (1 <= nz)%Z ->
  0 < alpha < 1 -> 0 < beta < 1 -> 0 < 1 / beta - 1 + delta ->
  increasing nz Zg -> positive nz Zg ->
  (0 <= j < nz)%Z ->
  kGrid pow nk nz beta alpha delta Zg 0%Z
  < kstar alpha beta delta (Zg j)
  < kGrid pow nk nz beta alpha delta Zg (nk - 1)%Z.
Proof.
  intros Hpow Hnk Hnz Halpha Hbeta Hdelta HZinc HZpos Hj.
  destruct (grid_ends pow Hpow nk nz beta alpha delta Zg) as [-> ->];
    try assumption.
  assert (Hmono : forall a b : Z, (0 <= a <= b)%Z -> (b < nz)%Z ->
            kstar alpha beta delta (Zg a) <= kstar alpha beta delta (Zg b)).
  { intros a b Hab Hb. apply kstar_monotone; try assumption.
    split; [apply HZpos; lia|].
    destruct (Z.eq_dec a b) as [->|Hne]; [lra|].
    left. apply HZinc; lia. }
  pose proof (Hmono 0%Z j ltac:(lia) ltac:(lia)) as Hlo.
  pose proof (Hmono j (nz - 1)%Z ltac:(lia) ltac:(lia)) as Hhi.
  assert (H0 : 0 < kstar alpha beta delta (Zg 0%Z)) by apply exp_pos.
  assert (H1 : 0 < kstar alpha beta delta (Zg (nz - 1)%Z)) by apply exp_pos.
  lra.
Qed.

Lemma steady_states_inside_grid_witness :
  kGrid libm_pow 2 2 (1 / 2) (1 / 2) 0 (of_list [1; 2]) 0%Z
  < kstar (1 / 2) (1 / 2) 0 (of_list [1; 2] 1%Z)
  < kGrid libm_pow 2 2 (1 / 2) (1 / 2) 0 (of_list [1; 2]) (2 - 1)%Z.
Proof.
  apply steady_states_inside_grid.
  - apply libm_pow_positive_base.
  - lia.
  - lia.
  - lra.
  - lra.
  - lra.
  - increasing_list.
  - intros i Hi. index_cases i; try lia; unfold of_list; simpl; lra.
  - lia.
Defined.

(** Property X25: on the capital grid that [kGrid] builds, with [alpha],
    [beta] in (0,1), [delta] in [[0,1]] and a positive increasing
    productivity grid, the resources of every state exceed the first
    grid point: the bracket that [vfStep] searches is never empty, its
    upper index is in the grid and every candidate of it keeps
    consumption non-negative. *)
Theorem bracket_never_empty_on_kGrid (pow : REAL -> REAL -> REAL)
  (nk nz : Z) (beta alpha delta : REAL) (Zg : array) (hx : Z) :
  (forall x y : REAL, 0 < x -> pow x y = Rpower x y) ->
  (2 <= nk)%Z -> (1 <= nz)%Z ->
  0 < alpha < 1 -> 0 < beta < 1 -> 0 <= delta <= 1 ->
  increasing nz Zg -> positive nz Zg ->
  (0 <= hx < nk * nz)%Z ->
  let K := kGrid pow nk nz beta alpha delta Zg in
  K 0%Z < ydepK_at pow nk alpha delta K Zg hx /\
  bracket_feasible pow nk alpha delta K Zg hx.
Proof.
  intros Hpow Hnk Hnz Halpha Hbeta Hdelta HZinc HZpos Hhx K.
  split.
  - apply (resources_reach_grid pow Hpow nk nz beta alpha delta Zg K);
      try assumption. reflexivity.
  - apply (bracket_feasible_on_built_grid pow Hpow nk nz beta alpha delta
             Zg K); try assumption. reflexivity.
Qed.

Lemma bracket_never_empty_on_kGrid_witness :
  let K := kGrid libm_pow 2 2 (1 / 2) (1 / 2) (1 / 10) (of_list [1; 2]) in
  K 0%Z < ydepK_at libm_pow 2 (1 / 2) (1 / 10) K (of_list [1; 2]) 3 /\
  bracket_feasible libm_pow 2 (1 / 2) (1 / 10) K (of_list [1; 2]) 3.
Proof.
  apply (bracket_never_empty_on_kGrid libm_pow 2 2 (1 / 2) (1 / 2) (1 / 10)
           (of_list [1; 2]) 3).
  - apply libm_pow_positive_base.
  - lia.
  - lia.
  - lra.
  - lra.
  - lra.
  - increasing_list.
  - intros i Hi. index_cases i; try lia; unfold of_list; simpl; lra.
  - lia.
Defined.

(** ** The utility term of the objective *)

(** Property X26: the utility term [pow(ydepK - K[klo+l], 1-eta)/(1-eta)]
    of the objective is concave in capital over a bracket of an
    increasing grid where consumption is positive, for every risk
    aversion [eta >= 0] other than 1: the part of the concavity that
    [binary_max] relies on and that does not depend on [V0]. *)
Theorem utility_term_concave (pow : REAL -> REAL -> REAL)
  (klo nksub : Z) (ydepK eta : REAL) (K : array) :
  (forall x y : REAL, 0 < x -> pow x y = Rpower x y) ->
  0 <= eta -> eta <> 1 ->
  increasing nksub (ptr_add K klo) ->
  (forall l : Z, (0 <= l < nksub)%Z -> K (klo + l)%Z < ydepK) ->
  concave nksub (ptr_add K klo)
    (fun l => pow (ydepK - K (klo + l)%Z) (1 - eta) / (1 - eta)).
Proof. apply crra_concave_on_bracket. Qed.

Lemma utility_term_concave_witness :
  concave 4 (ptr_add (of_list [1; 2; 3; 4]) 0)
    (fun l => libm_pow (5 - of_list [1; 2; 3; 4] (0 + l)%Z) (1 - 2)
              / (1 - 2)).
Proof.
  apply utility_term_concave.
  - apply libm_pow_positive_base.
  - lra.
  - lra.
  - increasing_list.
  - intros l Hl. index_cases l; try lia; unfold of_list; simpl; lra.
Defined.
